(** * Atlasjs: the tile/viewport coordinate engine and the grid-layer
      tile lifecycle manager

    A shallow embedding of the parts of the library that the properties
    below are about, and the proofs of these properties.

    Part I, the program:
    - [JsNum]: the numbers of the language;
    - [Js]: calls that write an object and may throw;
    - [Geometry]: [Point], [Bounds] and the [LatLng] constructor;
    - [Util]: [wrapNum];
    - [Text], [Host]: the conversions between numbers and strings, and the
      functions of the host ([Math], [Browser]);
    - [Crs]: [Transformation], the base CRS with [wrapLatLng], [Earth],
      [SphericalMercator] and [EPSG3857];
    - [MapCore]: [getCenter], [getZoom], [_checkIfLoaded], [_limitZoom] and
      what they call;
    - [GridLayer]: the tile store, key encoding, coordinate wrapping, the
      tile range, the prune pass [_pruneTiles] with [_retainParent] and
      [_retainChildren], and the reconciliation pass [_update];
    - [PointOps], [BoundsOps], [LatLngOps], [LatLngBounds]: [trunc], the
      relations between bounds, [pad], [LatLng.equals] and [clone], and
      the geographical bounds with [extend] and [contains];
    - [CrsOps]: [Transformation.transform];
    - [Utilities]: [indexOf], [stamp] and [formatNum];
    - [MapView]: [_resetView] with the events it fires, [_limitCenter],
      [_getBoundsOffset] and [_rebound];
    - [TileLayer]: [_removeTilesAtZoom], and [initialize] and
      [_getSubdomain] of the tile layer.

    Part II, the vocabulary of the properties: the retention rules of the
    prune pass, the properties as the specification words them, the
    auxiliary notions of the proofs, and sample objects.

    Part III, the properties: first those of the specification, then
    further properties of the code.

    Numbers.  A number is modelled by [Num]: an exact rational, or one of
    the three special values NaN, +Infinity, -Infinity.  Rounding error of
    the binary64 format and the sign of zero are not modelled (a zero
    divisor is taken to be +0).  The coordinates of the tiles kept in the
    tile store are integers ([Z]): the only place that creates tiles is the
    pair of counting loops of [_update], which run over a finite range of
    integers.

    The document.  Elements, panes and levels of the document are left out:
    a tile is its record without [el], and the events fired are kept in a
    log. *)

From Stdlib Require Import ZArith QArith Qround Qabs Lia Lqa Bool List String Ascii.
From Stdlib Require Import Decimal DecimalString DecimalPos.
From Stdlib Require Import Permutation FinFun.
Import ListNotations.

Set Implicit Arguments.

(* ################################################################## *)
(** * Part I: the program                                               *)
(* ################################################################## *)

(* ================================================================== *)
(** * JavaScript numbers                                                *)
(* ================================================================== *)

Module JsNum.

Local Open Scope Q_scope.

Inductive Num : Type :=
| NaN
| NegInf
| PosInf
| Fin (q : Q).

(** Results of arithmetic are kept in lowest terms, so that two equal
    results are the same term. *)
Definition fin (q : Q) : Num := Fin (Qred q).

Definition of_Z (n : Z) : Num := Fin (inject_Z n).

Definition Qltb (a b : Q) : bool :=
  match a ?= b with Lt => true | _ => false end.

Definition Qleb (a b : Q) : bool :=
  match a ?= b with Gt => false | _ => true end.

Definition Qeqb (a b : Q) : bool :=
  match a ?= b with Eq => true | _ => false end.

(** [isNaN] and [isFinite] on a number. *)
Definition isNaN (a : Num) : bool :=
  match a with NaN => true | _ => false end.

Definition isFinite (a : Num) : bool :=
  match a with Fin _ => true | _ => false end.

(** ToBoolean: 0 and NaN are falsy. *)
Definition truthy (a : Num) : bool :=
  match a with
  | NaN => false
  | Fin q => negb (Qeqb q 0)
  | _ => true
  end.

Definition neg (a : Num) : Num :=
  match a with
  | NaN => NaN
  | NegInf => PosInf
  | PosInf => NegInf
  | Fin q => fin (- q)
  end.

Definition add (a b : Num) : Num :=
  match a, b with
  | NaN, _ | _, NaN => NaN
  | PosInf, NegInf | NegInf, PosInf => NaN
  | PosInf, _ | _, PosInf => PosInf
  | NegInf, _ | _, NegInf => NegInf
  | Fin p, Fin q => fin (p + q)
  end.

Definition sub (a b : Num) : Num :=
  match a, b with
  | NaN, _ | _, NaN => NaN
  | PosInf, PosInf | NegInf, NegInf => NaN
  | PosInf, _ | _, NegInf => PosInf
  | NegInf, _ | _, PosInf => NegInf
  | Fin p, Fin q => fin (p - q)
  end.

(** An infinity times (or divided by) a finite factor. *)
Definition inf_signed (positive : bool) (q : Q) : Num :=
  match q ?= 0 with
  | Eq => NaN
  | Gt => if positive then PosInf else NegInf
  | Lt => if positive then NegInf else PosInf
  end.

Definition mul (a b : Num) : Num :=
  match a, b with
  | NaN, _ | _, NaN => NaN
  | PosInf, PosInf | NegInf, NegInf => PosInf
  | PosInf, NegInf | NegInf, PosInf => NegInf
  | PosInf, Fin q | Fin q, PosInf => inf_signed true q
  | NegInf, Fin q | Fin q, NegInf => inf_signed false q
  | Fin p, Fin q => fin (p * q)
  end.

Definition div (a b : Num) : Num :=
  match a, b with
  | NaN, _ | _, NaN => NaN
  | (PosInf | NegInf), (PosInf | NegInf) => NaN
  | PosInf, Fin q => if Qltb q 0 then NegInf else PosInf
  | NegInf, Fin q => if Qltb q 0 then PosInf else NegInf
  | Fin _, (PosInf | NegInf) => Fin 0
  | Fin p, Fin q =>
      if Qeqb q 0 then inf_signed true p else fin (p / q)
  end.

(** Truncation toward zero. *)
Definition Qtrunc (q : Q) : Z :=
  if Qltb q 0 then Qceiling q else Qfloor q.

(** The remainder operator [%]: the result has the sign of the dividend. *)
Definition Qrem (p q : Q) : Q := p - q * inject_Z (Qtrunc (p / q)).

Definition rem (a b : Num) : Num :=
  match a, b with
  | NaN, _ | _, NaN => NaN
  | (PosInf | NegInf), _ => NaN
  | Fin p, (PosInf | NegInf) => Fin p
  | Fin p, Fin q =>
      if Qeqb q 0 then NaN else fin (Qrem p q)
  end.

Definition floor (a : Num) : Num :=
  match a with Fin q => of_Z (Qfloor q) | _ => a end.

Definition ceil (a : Num) : Num :=
  match a with Fin q => of_Z (Qceiling q) | _ => a end.

(** [Math.round]: halves go up. *)
Definition round (a : Num) : Num :=
  match a with Fin q => of_Z (Qfloor (q + (1 # 2))) | _ => a end.

Definition abs (a : Num) : Num :=
  match a with
  | NaN => NaN
  | NegInf | PosInf => PosInf
  | Fin q => fin (Qabs q)
  end.

(** The relational operators; every comparison with NaN is false. *)
Definition ltb (a b : Num) : bool :=
  match a, b with
  | NaN, _ | _, NaN => false
  | _, NegInf => false
  | NegInf, _ => true
  | PosInf, _ => false
  | _, PosInf => true
  | Fin p, Fin q => Qltb p q
  end.

Definition leb (a b : Num) : bool :=
  match a, b with
  | NaN, _ | _, NaN => false
  | NegInf, _ => true
  | _, PosInf => true
  | _, NegInf => false
  | PosInf, _ => false
  | Fin p, Fin q => Qleb p q
  end.

Definition gtb (a b : Num) : bool := ltb b a.
Definition geb (a b : Num) : bool := leb b a.

(** Strict equality [===] between numbers. *)
Definition eqb (a b : Num) : bool :=
  match a, b with
  | NegInf, NegInf | PosInf, PosInf => true
  | Fin p, Fin q => Qeqb p q
  | _, _ => false
  end.

(** [Math.min] and [Math.max] of two numbers. *)
Definition min (a b : Num) : Num :=
  match a, b with
  | NaN, _ | _, NaN => NaN
  | _, _ => if ltb b a then b else a
  end.

Definition max (a b : Num) : Num :=
  match a, b with
  | NaN, _ | _, NaN => NaN
  | _, _ => if ltb a b then b else a
  end.

End JsNum.

Export JsNum.

Declare Scope num_scope.
Delimit Scope num_scope with num.
Bind Scope num_scope with Num.
Infix "+" := JsNum.add : num_scope.
Infix "-" := JsNum.sub : num_scope.
Infix "*" := JsNum.mul : num_scope.
Infix "/" := JsNum.div : num_scope.
Infix "%%" := JsNum.rem (at level 40, left associativity) : num_scope.
Infix "<?" := JsNum.ltb : num_scope.
Infix "<=?" := JsNum.leb : num_scope.
Infix ">?" := JsNum.gtb : num_scope.
Infix ">=?" := JsNum.geb : num_scope.
Infix "===" := JsNum.eqb (at level 70, no associativity) : num_scope.

Local Open Scope string_scope.

(* ================================================================== *)
(** * Exceptions and state                                              *)
(* ================================================================== *)

(** The errors that the library throws here, named after their
    messages. *)
Inductive Error : Type :=
| InvalidLatLng (lat lng : Num)
    (* 'Invalid LatLng object: (' + lat + ', ' + lng + ')' *)
| SetCenterAndZoomFirst
    (* 'Set map center and zoom first.' *)
| InfiniteTiles
    (* 'Attempted to load an infinite number of tiles' *)
| TypeError.
    (* a property read on [undefined], raised by the host *)

(** A call either returns a value or throws. *)
Inductive Completion (A : Type) : Type :=
| Return (a : A)
| Throw (e : Error).

Arguments Return {A} a.
Arguments Throw {A} e.

(** Code that reads and writes an object of type [S] and may throw: the
    object survives the exception, with whatever was written before it. *)
Definition Js (S A : Type) : Type := S -> S * Completion A.

Definition ret {S A} (a : A) : Js S A := fun s => (s, Return a).

Definition throw {S A} (e : Error) : Js S A :=
  fun s => (s, Throw e).

Definition bind {S A B} (m : Js S A) (k : A -> Js S B) : Js S B :=
  fun s =>
    match m s with
    | (s', Return a) => k a s'
    | (s', Throw e) => (s', Throw e)
    end.

Definition get {S} : Js S S := fun s => (s, Return s).

Definition modify {S} (f : S -> S) : Js S unit := fun s => (f s, Return tt).

(** A call that cannot write: a thrown error leaves the object as it is. *)
Definition lift {S A} (c : Completion A) : Js S A := fun s => (s, c).

Declare Scope js_scope.
Delimit Scope js_scope with js.
Notation "x <- m ;; k" := (bind m (fun x => k))
  (at level 61, m at next level, right associativity) : js_scope.
Notation "m ;; k" := (bind m (fun _ => k))
  (at level 61, right associativity) : js_scope.

(** [for (x of xs) body(x)] *)
Fixpoint for_each {S A} (xs : list A) (body : A -> Js S unit) : Js S unit :=
  match xs with
  | [] => ret tt
  | x :: xs' => bind (body x) (fun _ => for_each xs' body)
  end.

(* ================================================================== *)
(** * Geometric primitives                                              *)
(* ================================================================== *)

Module Geometry.

Local Open Scope num_scope.

(** ** Point *)

Record Point : Type := mkPoint { x : Num; y : Num }.

Definition add (p q : Point) : Point := mkPoint (x p + x q) (y p + y q).
Definition subtract (p q : Point) : Point := mkPoint (x p - x q) (y p - y q).
Definition divideBy (p : Point) (num : Num) : Point :=
  mkPoint (x p / num) (y p / num).
Definition multiplyBy (p : Point) (num : Num) : Point :=
  mkPoint (x p * num) (y p * num).
Definition scaleBy (p q : Point) : Point := mkPoint (x p * x q) (y p * y q).
Definition unscaleBy (p q : Point) : Point := mkPoint (x p / x q) (y p / y q).
Definition round (p : Point) : Point :=
  mkPoint (JsNum.round (x p)) (JsNum.round (y p)).
Definition floor (p : Point) : Point :=
  mkPoint (JsNum.floor (x p)) (JsNum.floor (y p)).
Definition ceil (p : Point) : Point :=
  mkPoint (JsNum.ceil (x p)) (JsNum.ceil (y p)).

(** ** Bounds *)

(** A [Bounds] object has both corners or none (before its first
    [extend]). *)
Record Corners : Type := mkCorners { min : Point; max : Point }.

Definition Bounds : Type := option Corners.

(** [extend] with a point. *)
Definition extend (b : Bounds) (p : Point) : Bounds :=
  match b with
  | None => Some (mkCorners p p)
  | Some c =>
      Some (mkCorners
              (mkPoint (JsNum.min (x p) (x (min c)))
                       (JsNum.min (y p) (y (min c))))
              (mkPoint (JsNum.max (x p) (x (max c)))
                       (JsNum.max (y p) (y (max c)))))
  end.

(** [new Bounds(a, b)] with two points: [extend] with each in turn. *)
Definition newBounds (a b : Point) : Corners :=
  mkCorners
    (mkPoint (JsNum.min (x b) (x a)) (JsNum.min (y b) (y a)))
    (mkPoint (JsNum.max (x b) (x a)) (JsNum.max (y b) (y a))).

Definition getCenter (b : Corners) : Point :=
  mkPoint ((x (min b) + x (max b)) / of_Z 2)
          ((y (min b) + y (max b)) / of_Z 2).
Definition getBottomLeft (b : Corners) : Point :=
  mkPoint (x (min b)) (y (max b)).
Definition getTopRight (b : Corners) : Point :=
  mkPoint (x (max b)) (y (min b)).

(** [contains] with a point. *)
Definition contains (b : Corners) (p : Point) : bool :=
  (x p >=? x (min b)) && (x p <=? x (max b)) &&
  (y p >=? y (min b)) && (y p <=? y (max b)).

(** ** LatLng *)

Record LatLng : Type := mkLatLng { lat : Num; lng : Num; alt : option Num }.

(** [new LatLng(lat, lng, alt)] on numbers; [alt] may be [undefined]. *)
Definition newLatLng (lat lng : Num) (alt : option Num) : Completion LatLng :=
  if isNaN lat || isNaN lng
  then Throw (InvalidLatLng lat lng)
  else Return (mkLatLng lat lng alt).

End Geometry.

(* ================================================================== *)
(** * Utilities                                                         *)
(* ================================================================== *)

Module Util.

Local Open Scope num_scope.

(** [wrapNum(x, range, includeMax)] *)
Definition wrapNum (x : Num) (range : Num * Num) (includeMax : bool) : Num :=
  let max := snd range in
  let min := fst range in
  let d := max - min in
  if (x === max) && includeMax then x
  else ((x - min) %% d + d) %% d + min.

End Util.

(* ================================================================== *)
(** * The host: text and mathematics                                    *)
(* ================================================================== *)

(** Conversions between numbers and strings, as far as tile keys need
    them: an integer prints as its decimal digits with a leading [-] when
    negative, and a string made of an optional sign and decimal digits
    reads back as that integer.  What the host does on the other strings
    (fractions, exponents, radix prefixes, surrounding white space) is left
    to [to_number_other]. *)

Module Text.

Definition digit_of (c : ascii) : option Z :=
  let n := Z.of_nat (nat_of_ascii c) in
  if ((48 <=? n) && (n <=? 57))%Z then Some (n - 48)%Z else None.

Fixpoint digits_value (s : string) (acc : Z) : option Z :=
  match s with
  | EmptyString => Some acc
  | String c s' =>
      match digit_of c with
      | Some d => digits_value s' (10 * acc + d)
      | None => None
      end
  end.

(** One or more decimal digits. *)
Definition unsigned_integer (s : string) : option Z :=
  match s with
  | EmptyString => None
  | _ => digits_value s 0
  end.

(** An optional sign and one or more decimal digits. *)
Definition signed_integer (s : string) : option Z :=
  match s with
  | String "+" s' => unsigned_integer s'
  | String "-" s' => option_map Z.opp (unsigned_integer s')
  | _ => unsigned_integer s
  end.

(** [String(n)] for an integer [n]. *)
Definition integer_to_string (n : Z) : string :=
  DecimalString.NilZero.string_of_int (Z.to_int n).

(** The pieces of [s.split(sep)] for a one-character separator. *)
Fixpoint split (sep : ascii) (s : string) : list string :=
  match s with
  | EmptyString => [EmptyString]
  | String c s' =>
      if Ascii.eqb c sep then EmptyString :: split sep s'
      else match split sep s' with
           | piece :: pieces => String c piece :: pieces
           | [] => [String c EmptyString]
           end
  end.

End Text.

Class Host : Type := {
  (** unary [+] on a string that is neither empty, nor an infinity, nor a
      signed decimal integer *)
  to_number_other : string -> Num;
  Math_PI : Num;
  Math_sin : Num -> Num;
  Math_log : Num -> Num;
  Math_atan : Num -> Num;
  Math_exp : Num -> Num;
  Math_pow : Num -> Num -> Num;
  Math_sqrt : Num -> Num;
  (** [Browser.any3d] *)
  Browser_any3d : bool
}.

Section HostText.

Context `{Host}.

(** Unary [+] on a string. *)
Definition string_to_number (s : string) : Num :=
  match Text.signed_integer s with
  | Some n => of_Z n
  | None =>
      if String.eqb s "" then of_Z 0
      else if String.eqb s "Infinity" || String.eqb s "+Infinity" then PosInf
      else if String.eqb s "-Infinity" then NegInf
      else to_number_other s
  end.

(** Unary [+] on an element of an array of strings; a missing element is
    [undefined], which converts to NaN. *)
Definition element_to_number (k : list string) (i : nat) : Num :=
  match nth_error k i with
  | Some s => string_to_number s
  | None => NaN
  end.

End HostText.

(* ================================================================== *)
(** * Projections and coordinate reference systems                      *)
(* ================================================================== *)

Module Crs.

Import Geometry.
Local Open Scope num_scope.

Record Transformation : Type :=
  toTransformation { _a : Num; _b : Num; _c : Num; _d : Num }.

(** [scale = scale || 1] *)
Definition scale_or_1 (scale : Num) : Num :=
  if truthy scale then scale else of_Z 1.

Definition _transform (t : Transformation) (point : Point) (scale : Num)
  : Point :=
  let scale := scale_or_1 scale in
  mkPoint (scale * (_a t * x point + _b t))
          (scale * (_c t * y point + _d t)).

Definition untransform (t : Transformation) (point : Point) (scale : Num)
  : Point :=
  let scale := scale_or_1 scale in
  mkPoint ((x point / scale - _b t) / _a t)
          ((y point / scale - _d t) / _c t).

Record CRS : Type := mkCRS {
  projection_project : LatLng -> Point;
  projection_unproject : Point -> Completion LatLng;
  projection_bounds : Corners;
  transformation : Transformation;
  wrapLng : option (Num * Num);
  wrapLat : option (Num * Num);
  infinite : bool
}.

Section WithHost.

Context `{Host}.

(** ** The base CRS *)

Definition scale (zoom : Num) : Num := of_Z 256 * Math_pow (of_Z 2) zoom.

Definition latLngToPoint (crs : CRS) (latlng : LatLng) (zoom : Num) : Point :=
  let projectedPoint := projection_project crs latlng in
  _transform (transformation crs) projectedPoint (scale zoom).

Definition pointToLatLng (crs : CRS) (point : Point) (zoom : Num)
  : Completion LatLng :=
  let untransformedPoint := untransform (transformation crs) point (scale zoom) in
  projection_unproject crs untransformedPoint.

Definition getProjectedBounds (crs : CRS) (zoom : Num) : option Corners :=
  if infinite crs then None
  else
    let b := projection_bounds crs in
    let s := scale zoom in
    Some (newBounds (_transform (transformation crs) (min b) s)
                    (_transform (transformation crs) (max b) s)).

Definition wrapLatLng (crs : CRS) (latlng : LatLng) : Completion LatLng :=
  let lng :=
    match wrapLng crs with
    | Some range => Util.wrapNum (lng latlng) range true
    | None => lng latlng
    end in
  let lat :=
    match wrapLat crs with
    | Some range => Util.wrapNum (lat latlng) range true
    | None => lat latlng
    end in
  newLatLng lat lng (alt latlng).

(** ** Earth: the base CRS with the longitude wrap range [-180, 180];
    the CRSs derived from it supply the projection and the
    transformation. *)

Definition Earth_wrapLng : Num * Num := (of_Z (-180), of_Z 180).

Definition Earth (project : LatLng -> Point)
  (unproject : Point -> Completion LatLng) (bounds : Corners)
  (t : Transformation) : CRS :=
  {| projection_project := project;
     projection_unproject := unproject;
     projection_bounds := bounds;
     transformation := t;
     wrapLng := Some Earth_wrapLng;
     wrapLat := None;
     infinite := false |}.

(** ** The spherical Mercator projection *)

Definition earthRadius : Num := of_Z 6378137.

Definition MAX_LATITUDE : Num := Fin (850511287798 # 10000000000).

Definition SphericalMercator_project (latlng : LatLng) : Point :=
  let d := Math_PI / of_Z 180 in
  let max := MAX_LATITUDE in
  let lat := JsNum.max (JsNum.min max (lat latlng)) (neg max) in
  let sin := Math_sin (lat * d) in
  mkPoint (earthRadius * lng latlng * d)
          (earthRadius * Math_log ((of_Z 1 + sin) / (of_Z 1 - sin)) / of_Z 2).

Definition SphericalMercator_unproject (point : Point) : Completion LatLng :=
  let d := of_Z 180 / Math_PI in
  newLatLng
    ((of_Z 2 * Math_atan (Math_exp (y point / earthRadius))
      - Math_PI / of_Z 2) * d)
    (x point * d / earthRadius)
    None.

Definition SphericalMercator_bounds : Corners :=
  let d := earthRadius * Math_PI in
  newBounds (mkPoint (neg d) (neg d)) (mkPoint d d).

Definition EPSG3857 : CRS :=
  let scale := Fin (1 # 2) / (Math_PI * earthRadius) in
  Earth SphericalMercator_project SphericalMercator_unproject
        SphericalMercator_bounds
        (toTransformation scale (Fin (1 # 2)) (neg scale) (Fin (1 # 2))).

End WithHost.

End Crs.

(* ================================================================== *)
(** * Map core                                                          *)
(* ================================================================== *)

Module MapCore.

Import Geometry.
Local Open Scope num_scope.
Local Open Scope js_scope.

(** The fields of a map that the view queries read and write.  A field of
    type [option] is [undefined] when [None]. *)
Record Map : Type := mkMap {
  _loaded : bool;
  _zoom : option Num;
  _lastCenter : option LatLng;
  _pixelOrigin : Point;
  _size : option Point;
  _sizeChanged : bool;
  (** [clientWidth] and [clientHeight] of the container *)
  container_client : Point;
  (** [getPosition(this._mapPane)] *)
  mapPane_pos : Point;
  _animatingZoom : bool;
  _animateToZoom : Num;
  _layersMinZoom : option Num;
  _layersMaxZoom : option Num;
  options_crs : Crs.CRS;
  options_minZoom : option Num;
  options_maxZoom : option Num;
  options_zoomSnap : Num
}.

Definition set_size (size : Point) (m : Map) : Map :=
  mkMap (_loaded m) (_zoom m) (_lastCenter m) (_pixelOrigin m) (Some size)
        false (container_client m) (mapPane_pos m) (_animatingZoom m)
        (_animateToZoom m) (_layersMinZoom m) (_layersMaxZoom m)
        (options_crs m) (options_minZoom m) (options_maxZoom m)
        (options_zoomSnap m).

(** ToNumber of a field that may be [undefined]. *)
Definition to_number (v : option Num) : Num :=
  match v with Some n => n | None => NaN end.

(** [v || 0] *)
Definition or_0 (v : Num) : Num := if truthy v then v else of_Z 0.

Section WithHost.

Context `{Host}.

Definition _checkIfLoaded : Js Map unit :=
  m <- get ;;
  if negb (_loaded m) then throw SetCenterAndZoomFirst else ret tt.

Definition getZoom : Js Map (option Num) :=
  m <- get ;; ret (_zoom m).

Definition getMinZoom (m : Map) : Num :=
  match options_minZoom m with
  | None => or_0 (to_number (_layersMinZoom m))
  | Some z => z
  end.

Definition getMaxZoom (m : Map) : Num :=
  match options_maxZoom m with
  | None => match _layersMaxZoom m with None => PosInf | Some z => z end
  | Some z => z
  end.

Definition getSize : Js Map Point :=
  m <- get ;;
  (if match _size m with None => true | Some _ => _sizeChanged m end
   then modify (set_size (mkPoint (or_0 (x (container_client m)))
                                  (or_0 (y (container_client m)))))
   else ret tt) ;;
  m <- get ;;
  ret (match _size m with Some size => size | None => mkPoint NaN NaN end).

Definition getPixelOrigin : Js Map Point :=
  _checkIfLoaded ;;
  m <- get ;; ret (_pixelOrigin m).

Definition getZoomScale (m : Map) (toZoom : Num) (fromZoom : option Num) : Num :=
  let fromZoom :=
    match fromZoom with None => to_number (_zoom m) | Some z => z end in
  Crs.scale toZoom / Crs.scale fromZoom.

Definition project (m : Map) (latlng : LatLng) (zoom : option Num) : Point :=
  let zoom := match zoom with None => to_number (_zoom m) | Some z => z end in
  Crs.latLngToPoint (options_crs m) latlng zoom.

Definition unproject (m : Map) (point : Point) (zoom : option Num)
  : Completion LatLng :=
  let zoom := match zoom with None => to_number (_zoom m) | Some z => z end in
  Crs.pointToLatLng (options_crs m) point zoom.

Definition _getMapPanePos (m : Map) : Point := mapPane_pos m.

Definition _moved (m : Map) : bool :=
  let pos := _getMapPanePos m in
  negb ((x pos === of_Z 0) && (y pos === of_Z 0)).

Definition containerPointToLayerPoint (m : Map) (point : Point) : Point :=
  subtract point (_getMapPanePos m).

Definition _getCenterLayerPoint : Js Map Point :=
  size <- getSize ;;
  m <- get ;;
  ret (containerPointToLayerPoint m (divideBy size (of_Z 2))).

Definition layerPointToLatLng (point : Point) : Js Map LatLng :=
  origin <- getPixelOrigin ;;
  m <- get ;;
  lift (unproject m (add point origin) None).

Definition getCenter : Js Map LatLng :=
  _checkIfLoaded ;;
  m <- get ;;
  match _lastCenter m with
  | Some c => if negb (_moved m) then ret c
              else (p <- _getCenterLayerPoint ;; layerPointToLatLng p)
  | None => p <- _getCenterLayerPoint ;; layerPointToLatLng p
  end.

Definition _limitZoom (m : Map) (zoom : Num) : Num :=
  let min := getMinZoom m in
  let max := getMaxZoom m in
  let snap := if Browser_any3d then options_zoomSnap m else of_Z 1 in
  let zoom := if truthy snap then JsNum.round (zoom / snap) * snap else zoom in
  JsNum.max min (JsNum.min max zoom).

End WithHost.

End MapCore.

(* ================================================================== *)
(** * The grid layer                                                    *)
(* ================================================================== *)

Module GridLayer.

Import Geometry.
Local Open Scope num_scope.

(** ** Tile coordinates and tiles *)

(** The coordinates of a tracked tile: integers. *)
Record TileCoords : Type := mkTileCoords { tx : Z; ty : Z; tz : Z }.

(** A [Point] carrying a [z] property, with any numbers in it. *)
Record Coords : Type := mkCoords { cx : Num; cy : Num; cz : Num }.

Definition to_Coords (c : TileCoords) : Coords :=
  mkCoords (of_Z (tx c)) (of_Z (ty c)) (of_Z (tz c)).

(** A tile record; [loaded] is the time stamp of the load, [None] while it
    is [undefined]; the flags [active] and [retain] are [false] while
    [undefined].  The element [el] belongs to the document and is left
    out. *)
Record Tile : Type := mkTile {
  coords : TileCoords;
  current : bool;
  loaded : option Num;
  active : bool;
  retain : bool
}.

Definition is_loaded (t : Tile) : bool :=
  match loaded t with Some stamp => truthy stamp | None => false end.

Definition set_retain (v : bool) (t : Tile) : Tile :=
  mkTile (coords t) (current t) (loaded t) (active t) v.

Definition set_current (v : bool) (t : Tile) : Tile :=
  mkTile (coords t) v (loaded t) (active t) (retain t).

(** ** The tile store [this._tiles]: an object used as a map from keys to
    tiles, enumerated in insertion order.  The store holds its own
    properties; the keys looked up are tile keys ([x:y:z]), which are none
    of the names that an object inherits from [Object.prototype]. *)

Definition Tiles : Type := list (string * Tile).

Definition keys (ts : Tiles) : list string := map fst ts.

Fixpoint lookup (key : string) (ts : Tiles) : option Tile :=
  match ts with
  | [] => None
  | (k, t) :: ts' => if String.eqb k key then Some t else lookup key ts'
  end.

(** [this._tiles[key].field = v] *)
Fixpoint update (key : string) (f : Tile -> Tile) (ts : Tiles) : Tiles :=
  match ts with
  | [] => []
  | (k, t) :: ts' =>
      if String.eqb k key then (k, f t) :: ts'
      else (k, t) :: update key f ts'
  end.

(** [delete this._tiles[key]] *)
Definition delete (key : string) (ts : Tiles) : Tiles :=
  filter (fun e => negb (String.eqb (fst e) key)) ts.

(** [this._tiles[key] = tile] *)
Fixpoint assign (key : string) (tile : Tile) (ts : Tiles) : Tiles :=
  match ts with
  | [] => [(key, tile)]
  | (k, t) :: ts' =>
      if String.eqb k key then (k, tile) :: ts'
      else (k, t) :: assign key tile ts'
  end.

(** ** Events fired by the layer, oldest first *)

Inductive Event : Type :=
| loading
| tileloadstart (coords : TileCoords)
| tileunload (coords : Coords).

(** ** The layer *)

Inductive TileSize : Type :=
| SizeNumber (s : Num)
| SizePoint (s : Point).

Record Layer : Type := mkLayer {
  _map : option MapCore.Map;
  _tileZoom : option Num;
  _tiles : Tiles;
  _loading : bool;
  _globalTileRange : option Corners;
  _wrapX : option (Num * Num);
  _wrapY : option (Num * Num);
  fired : list Event;
  options_tileSize : TileSize;
  options_minZoom : option Num;
  options_maxZoom : option Num;
  options_minNativeZoom : option Num;
  options_maxNativeZoom : option Num;
  options_keepBuffer : Num;
  (** [options.bounds], as the test
      [toLatLngBounds(options.bounds).overlaps(this._tileCoordsToBounds(coords))] *)
  options_bounds : option (TileCoords -> bool)
}.

Definition set_map (m : option MapCore.Map) (s : Layer) : Layer :=
  mkLayer m (_tileZoom s) (_tiles s) (_loading s) (_globalTileRange s)
          (_wrapX s) (_wrapY s) (fired s) (options_tileSize s)
          (options_minZoom s) (options_maxZoom s) (options_minNativeZoom s)
          (options_maxNativeZoom s) (options_keepBuffer s) (options_bounds s).

Definition set_tiles (ts : Tiles) (s : Layer) : Layer :=
  mkLayer (_map s) (_tileZoom s) ts (_loading s) (_globalTileRange s)
          (_wrapX s) (_wrapY s) (fired s) (options_tileSize s)
          (options_minZoom s) (options_maxZoom s) (options_minNativeZoom s)
          (options_maxNativeZoom s) (options_keepBuffer s) (options_bounds s).

Definition set_loading (v : bool) (s : Layer) : Layer :=
  mkLayer (_map s) (_tileZoom s) (_tiles s) v (_globalTileRange s)
          (_wrapX s) (_wrapY s) (fired s) (options_tileSize s)
          (options_minZoom s) (options_maxZoom s) (options_minNativeZoom s)
          (options_maxNativeZoom s) (options_keepBuffer s) (options_bounds s).

(** [this.fire(type, data)] *)
Definition fire (e : Event) (s : Layer) : Layer :=
  mkLayer (_map s) (_tileZoom s) (_tiles s) (_loading s) (_globalTileRange s)
          (_wrapX s) (_wrapY s) (fired s ++ [e]) (options_tileSize s)
          (options_minZoom s) (options_maxZoom s) (options_minNativeZoom s)
          (options_maxNativeZoom s) (options_keepBuffer s) (options_bounds s).

Definition getTileSize (s : Layer) : Point :=
  match options_tileSize s with
  | SizePoint p => p
  | SizeNumber n => mkPoint n n
  end.

(** ** Keys *)

Definition _tileCoordsToKey (c : TileCoords) : string :=
  Text.integer_to_string (tx c) ++ ":" ++
  Text.integer_to_string (ty c) ++ ":" ++
  Text.integer_to_string (tz c).

Section Keys.

Context `{Host}.

Definition _keyToTileCoords (key : string) : Coords :=
  let k := Text.split ":" key in
  mkCoords (element_to_number k 0) (element_to_number k 1)
           (element_to_number k 2).

End Keys.

(** ** Wrapping and the tile range *)

Definition _wrapCoords (s : Layer) (c : Coords) : Coords :=
  mkCoords
    (match _wrapX s with
     | Some range => Util.wrapNum (cx c) range false
     | None => cx c
     end)
    (match _wrapY s with
     | Some range => Util.wrapNum (cy c) range false
     | None => cy c
     end)
    (cz c).

Definition _pxBoundsToTileRange (s : Layer) (bounds : Corners) : Corners :=
  let tileSize := getTileSize s in
  newBounds
    (floor (unscaleBy (min bounds) tileSize))
    (subtract (ceil (unscaleBy (max bounds) tileSize))
              (mkPoint (of_Z 1) (of_Z 1))).

Definition _clampZoom (s : Layer) (zoom : Num) : Num :=
  match options_minNativeZoom s with
  | Some lo =>
      if zoom <? lo then lo
      else match options_maxNativeZoom s with
           | Some hi => if hi <? zoom then hi else zoom
           | None => zoom
           end
  | None =>
      match options_maxNativeZoom s with
      | Some hi => if hi <? zoom then hi else zoom
      | None => zoom
      end
  end.

(** ** Removing tiles *)

Section Pruning.

Context `{Host}.

Definition _removeTile (key : string) (s : Layer) : Layer :=
  match lookup key (_tiles s) with
  | None => s
  | Some _ =>
      fire (tileunload (_keyToTileCoords key))
           (set_tiles (delete key (_tiles s)) s)
  end.

(** [for (const key in this._tiles) body(key)]: the keys are those present
    when the loop starts; one deleted before its turn is skipped. *)
Definition for_in_tiles (body : string -> Layer -> Layer) (s : Layer) : Layer :=
  fold_left
    (fun s key =>
       match lookup key (_tiles s) with
       | Some _ => body key s
       | None => s
       end)
    (keys (_tiles s)) s.

Definition _removeAllTiles (s : Layer) : Layer :=
  for_in_tiles _removeTile s.

(** ** Retention *)

Definition mark_retained (key : string) (s : Layer) : Layer :=
  set_tiles (update key (set_retain true) (_tiles s)) s.

(** [_retainParent(x, y, z, minZoom)]; the recursion stops after
    [z - minZoom] steps, so that [_retainParent] obeys the recursive
    equation of the source ([retainParent_unfold]). *)
Fixpoint retainParent_rec (steps : nat) (x y z minZoom : Z) (s : Layer)
  : Layer * bool :=
  let x2 := (x / 2)%Z in
  let y2 := (y / 2)%Z in
  let z2 := (z - 1)%Z in
  let key := _tileCoordsToKey (mkTileCoords x2 y2 z2) in
  let tile := lookup key (_tiles s) in
  let continue (s : Layer) :=
    if (z2 >? minZoom)%Z then
      match steps with
      | S steps' => retainParent_rec steps' x2 y2 z2 minZoom s
      | O => (s, false)
      end
    else (s, false) in
  match tile with
  | Some t =>
      if active t then (mark_retained key s, true)
      else if is_loaded t then continue (mark_retained key s)
      else continue s
  | None => continue s
  end.

Definition _retainParent (x y z minZoom : Z) (s : Layer) : Layer * bool :=
  retainParent_rec (Z.to_nat (z - minZoom)) x y z minZoom s.

(** The body of the two loops of [_retainChildren], for the child at
    [(i, j)]; [descend] is the recursive call, made when [z + 1 < maxZoom]. *)
Definition retainChild (descend : Z -> Z -> Layer -> Layer) (i j z maxZoom : Z)
  (s : Layer) : Layer :=
  let key := _tileCoordsToKey (mkTileCoords i j (z + 1)) in
  let tile := lookup key (_tiles s) in
  let continue (s : Layer) :=
    if (z + 1 <? maxZoom)%Z then descend i j s else s in
  match tile with
  | Some t =>
      if active t then mark_retained key s
      else if is_loaded t then continue (mark_retained key s)
      else continue s
  | None => continue s
  end.

(** [_retainChildren(x, y, z, maxZoom)]; the recursion stops after
    [maxZoom - z] steps, so that [_retainChildren] obeys the recursive
    equation of the source ([retainChildren_unfold]).  Each of the loops
    [for (i = 2 * x; i < 2 * x + 2; i++)] is written as the two values
    that it visits; the loop of the source visits them, and ends, where
    the language counts exactly (up to 2^53): the properties of the prune
    pass are stated for such coordinates ([exact_store]). *)
Fixpoint retainChildren_rec (steps : nat) (x y z maxZoom : Z) (s : Layer)
  : Layer :=
  let descend (i j : Z) (s : Layer) :=
    match steps with
    | S steps' => retainChildren_rec steps' i j (z + 1) maxZoom s
    | O => s
    end in
  fold_left
    (fun s i =>
       fold_left (fun s j => retainChild descend i j z maxZoom s)
                 [2 * y; 2 * y + 1]%Z s)
    [2 * x; 2 * x + 1]%Z s.

Definition _retainChildren (x y z maxZoom : Z) (s : Layer) : Layer :=
  retainChildren_rec (Z.to_nat (maxZoom - z)) x y z maxZoom s.

(** ** The prune pass *)

(** [zoom] is [this._map.getZoom()], a plain read of the map's zoom. *)
Definition _pruneTiles (s : Layer) : Layer :=
  match _map s with
  | None => s
  | Some map =>
      let zoom := MapCore.to_number (MapCore._zoom map) in
      if (zoom >? MapCore.to_number (options_maxZoom s))
         || (zoom <? MapCore.to_number (options_minZoom s))
      then _removeAllTiles s
      else
        let s :=
          for_in_tiles
            (fun key s =>
               set_tiles
                 (update key (fun tile => set_retain (current tile) tile)
                         (_tiles s)) s) s in
        let s :=
          for_in_tiles
            (fun key s =>
               match lookup key (_tiles s) with
               | Some tile =>
                   if current tile && negb (active tile) then
                     let c := coords tile in
                     let (s, found) :=
                       _retainParent (tx c) (ty c) (tz c) (tz c - 5) s in
                     if negb found
                     then _retainChildren (tx c) (ty c) (tz c) (tz c + 2) s
                     else s
                   else s
               | None => s
               end) s in
        for_in_tiles
          (fun key s =>
             match lookup key (_tiles s) with
             | Some tile => if negb (retain tile) then _removeTile key s else s
             | None => s
             end) s
  end.

End Pruning.

(** ** The reconciliation pass *)

Section Update.

Context `{Host}.

Local Open Scope js_scope.

(** The full reset [this._setView(center, zoom)], entered by [_update] when
    the zoom is more than one level away from the tile zoom; it rebuilds the
    levels of the document and is not part of this development. *)
Variable _setView : LatLng -> Num -> Js Layer unit.

(** A call on [this._map]. *)
Definition on_map {A} (c : Js MapCore.Map A) : Js Layer A :=
  fun s =>
    match _map s with
    | Some m => let (m', r) := c m in (set_map (Some m') s, r)
    | None => (s, Throw TypeError)
    end.

Definition _getTiledPixelBounds (center : LatLng) : Js Layer Corners :=
  s <- get ;;
  zoom <- on_map MapCore.getZoom ;;
  let mapZoom :=
    match _map s with
    | Some map =>
        if MapCore._animatingZoom map
        then JsNum.max (MapCore._animateToZoom map) (MapCore.to_number zoom)
        else MapCore.to_number zoom
    | None => MapCore.to_number zoom
    end in
  scale <- on_map (fun m => (m, Return (MapCore.getZoomScale m mapZoom (_tileZoom s)))) ;;
  projected <- on_map (fun m => (m, Return (MapCore.project m center (_tileZoom s)))) ;;
  let pixelCenter := floor projected in
  size <- on_map MapCore.getSize ;;
  let halfSize := divideBy size (scale * of_Z 2) in
  ret (newBounds (subtract pixelCenter halfSize) (add pixelCenter halfSize)).

Definition _isValidTile (c : TileCoords) : Js Layer bool :=
  s <- get ;;
  crs <- on_map (fun m => (m, Return (MapCore.options_crs m))) ;;
  inside <-
    (if negb (Crs.infinite crs) then
       match Crs.wrapLng crs, Crs.wrapLat crs, _globalTileRange s with
       | Some _, Some _, _ => ret true
       | wrapLng, wrapLat, Some bounds =>
           ret (negb
             ((match wrapLng with None => true | Some _ => false end
               && ((of_Z (tx c) <? x (min bounds))
                   || (of_Z (tx c) >? x (max bounds))))
              || (match wrapLat with None => true | Some _ => false end
                  && ((of_Z (ty c) <? y (min bounds))
                      || (of_Z (ty c) >? y (max bounds))))))
       | _, _, None => throw TypeError
       end
     else ret true) ;;
  if negb inside then ret false
  else match options_bounds s with
       | None => ret true
       | Some overlaps => ret (overlaps c)
       end.

(** The integer held by a number that is one: the tile zoom (a rounded
    zoom, clamped by the native zoom options) and the finite bounds of a
    tile range (results of [Math.floor] and [Math.ceil]). *)
Definition integral (n : Num) : Z :=
  match n with Fin q => Qfloor q | _ => 0%Z end.

(** The values of [for (let i = lo; i <= hi; i++)] for integral bounds.
    The loop of the source visits them, and ends, where the language
    counts exactly (up to 2^53): the properties of the loops of [_update]
    are stated for such bounds ([exact_range]). *)
Definition counting (lo hi : Num) : list Z :=
  match lo, hi with
  | Fin _, Fin _ =>
      map (fun k => (integral lo + Z.of_nat k)%Z)
          (seq 0 (Z.to_nat (integral hi - integral lo + 1)))
  | _, _ => []
  end.

Fixpoint foldM {S A B} (body : B -> A -> Js S B) (xs : list A) (acc : B)
  : Js S B :=
  match xs with
  | [] => ret acc
  | a :: xs' => acc' <- body acc a ;; foldM body xs' acc'
  end.

Definition distanceTo (c : TileCoords) (p : Point) : Num :=
  let dx := x p - of_Z (tx c) in
  let dy := y p - of_Z (ty c) in
  Math_sqrt (dx * dx + dy * dy).

(** [queue.sort(compare)]: a stable sort, by insertion. *)
Fixpoint insert_by (compare : TileCoords -> TileCoords -> Num)
  (a : TileCoords) (sorted : list TileCoords) : list TileCoords :=
  match sorted with
  | [] => [a]
  | b :: rest =>
      if compare a b <? of_Z 0 then a :: sorted
      else b :: insert_by compare a rest
  end.

Definition sort_by (compare : TileCoords -> TileCoords -> Num)
  (queue : list TileCoords) : list TileCoords :=
  fold_left (fun sorted a => insert_by compare a sorted) queue [].

(** [_addTile(coords, container)]: the element is created for the wrapped
    coordinates and put in the document; the tile is recorded. *)
Definition _addTile (c : TileCoords) (s : Layer) : Layer :=
  let key := _tileCoordsToKey c in
  fire (tileloadstart c)
       (set_tiles (assign key (mkTile c true None false false) (_tiles s)) s).

Definition _update (center : option LatLng) : Js Layer unit :=
  s <- get ;;
  match _map s with
  | None => ret tt
  | Some _ =>
      mapZoom <- on_map MapCore.getZoom ;;
      let zoom := _clampZoom s (MapCore.to_number mapZoom) in
      center <- match center with
                | None => on_map MapCore.getCenter
                | Some c => ret c
                end ;;
      match _tileZoom s with
      | None => ret tt
      | Some tileZoom =>
          pixelBounds <- _getTiledPixelBounds center ;;
          let tileRange := _pxBoundsToTileRange s pixelBounds in
          let tileCenter := getCenter tileRange in
          let margin := options_keepBuffer s in
          let noPruneRange :=
            newBounds
              (subtract (getBottomLeft tileRange) (mkPoint margin (neg margin)))
              (add (getTopRight tileRange) (mkPoint margin (neg margin))) in
          if negb (isFinite (x (min tileRange)) && isFinite (y (min tileRange))
                   && isFinite (x (max tileRange))
                   && isFinite (y (max tileRange)))
          then throw InfiniteTiles
          else
            modify
              (for_in_tiles
                 (fun key s =>
                    set_tiles
                      (update key
                         (fun tile =>
                            let c := coords tile in
                            if negb (of_Z (tz c) === tileZoom)
                               || negb (contains noPruneRange
                                          (mkPoint (of_Z (tx c)) (of_Z (ty c))))
                            then set_current false tile
                            else tile)
                         (_tiles s)) s)) ;;
            if abs (zoom - tileZoom) >? of_Z 1
            then _setView center zoom
            else
              queue <-
                foldM
                  (fun queue j =>
                     foldM
                       (fun queue i =>
                          let c := mkTileCoords i j (integral tileZoom) in
                          valid <- _isValidTile c ;;
                          if negb valid then ret queue
                          else
                            s <- get ;;
                            match lookup (_tileCoordsToKey c) (_tiles s) with
                            | Some _ =>
                                modify
                                  (fun s =>
                                     set_tiles
                                       (update (_tileCoordsToKey c)
                                               (set_current true) (_tiles s)) s) ;;
                                ret queue
                            | None => ret (queue ++ [c])%list
                            end)
                       (counting (x (min tileRange)) (x (max tileRange))) queue)
                  (counting (y (min tileRange)) (y (max tileRange))) [] ;;
              let queue :=
                sort_by (fun a b => distanceTo a tileCenter - distanceTo b tileCenter)
                        queue in
              match queue with
              | [] => ret tt
              | _ =>
                  s <- get ;;
                  (if negb (_loading s)
                   then modify (fun s => fire loading (set_loading true s))
                   else ret tt) ;;
                  for_each queue (fun c => modify (_addTile c))
              end
      end
  end.

End Update.

End GridLayer.

(* ================================================================== *)
(** * Further methods of the geometric primitives                       *)
(* ================================================================== *)

(** A step that may throw, followed by another. *)
Definition and_then {A B} (c : Completion A) (k : A -> Completion B)
  : Completion B :=
  match c with
  | Return a => k a
  | Throw e => Throw e
  end.

Module PointOps.

Import Geometry.
Local Open Scope num_scope.

(** [trunc]: [Math.trunc] where the host has it, and otherwise the function
    [v > 0 ? Math.floor(v) : Math.ceil(v)], which returns the same
    numbers. *)
Definition trunc (v : Num) : Num :=
  if v >? of_Z 0 then JsNum.floor v else JsNum.ceil v.

End PointOps.

Module BoundsOps.

Import Geometry.
Local Open Scope num_scope.

(** [contains] with a [Bounds]. *)
Definition contains_bounds (b obj : Corners) : bool :=
  (x (min obj) >=? x (min b)) && (x (max obj) <=? x (max b)) &&
  (y (min obj) >=? y (min b)) && (y (max obj) <=? y (max b)).

Definition intersects (b bounds : Corners) : bool :=
  let xIntersects :=
    (x (max bounds) >=? x (min b)) && (x (min bounds) <=? x (max b)) in
  let yIntersects :=
    (y (max bounds) >=? y (min b)) && (y (min bounds) <=? y (max b)) in
  xIntersects && yIntersects.

Definition overlaps (b bounds : Corners) : bool :=
  let xOverlaps :=
    (x (max bounds) >? x (min b)) && (x (min bounds) <? x (max b)) in
  let yOverlaps :=
    (y (max bounds) >? y (min b)) && (y (min bounds) <? y (max b)) in
  xOverlaps && yOverlaps.

(** [pad]: the buffer the source calls [heightBuffer] is computed from the
    x extent and applied to x, and [widthBuffer] from and to y. *)
Definition pad (b : Corners) (bufferRatio : Num) : Corners :=
  let heightBuffer := abs (x (min b) - x (max b)) * bufferRatio in
  let widthBuffer := abs (y (min b) - y (max b)) * bufferRatio in
  newBounds
    (mkPoint (x (min b) - heightBuffer) (y (min b) - widthBuffer))
    (mkPoint (x (max b) + heightBuffer) (y (max b) + widthBuffer)).

End BoundsOps.

Module LatLngOps.

Import Geometry.
Local Open Scope num_scope.

Definition clone (l : LatLng) : Completion LatLng :=
  newLatLng (lat l) (lng l) (alt l).

(** [equals(obj, maxMargin)]: [obj] is a LatLng or missing, [maxMargin] a
    number or [undefined]. *)
Definition equals (l : LatLng) (obj : option LatLng) (maxMargin : option Num)
  : bool :=
  match obj with
  | None => false
  | Some o =>
      let margin :=
        JsNum.max (abs (lat l - lat o)) (abs (lng l - lng o)) in
      margin <=? match maxMargin with
                 | None => Fin (1 # 1000000000)
                 | Some m => m
                 end
  end.

End LatLngOps.

Module LatLngBounds.

Import Geometry.
Local Open Scope num_scope.

(** A [LatLngBounds] object has both corners or none (before its first
    [extend]). *)
Record LatLngCorners : Type :=
  mkLatLngCorners { _southWest : LatLng; _northEast : LatLng }.

Definition LatLngBounds : Type := option LatLngCorners.

(** [extend] with a [LatLng]: the first one is copied into both corners
    (by the constructor of LatLng, without its altitude); a later one moves
    the corners in place.  The bounds have corners afterwards. *)
Definition extend (b : LatLngBounds) (obj : LatLng) : Completion LatLngCorners :=
  match b with
  | None =>
      and_then (newLatLng (lat obj) (lng obj) None) (fun sw =>
      and_then (newLatLng (lat obj) (lng obj) None) (fun ne =>
      Return (mkLatLngCorners sw ne)))
  | Some c =>
      let sw := _southWest c in
      let ne := _northEast c in
      Return (mkLatLngCorners
                (mkLatLng (JsNum.min (lat obj) (lat sw))
                          (JsNum.min (lng obj) (lng sw)) (alt sw))
                (mkLatLng (JsNum.max (lat obj) (lat ne))
                          (JsNum.max (lng obj) (lng ne)) (alt ne)))
  end.


Definition getSouthWest (b : LatLngCorners) : LatLng := _southWest b.
Definition getNorthEast (b : LatLngCorners) : LatLng := _northEast b.

(** [contains] with a [LatLng]. *)
Definition contains (b : LatLngCorners) (obj : LatLng) : bool :=
  let sw := _southWest b in
  let ne := _northEast b in
  (lat obj >=? lat sw) && (lat obj <=? lat ne) &&
  (lng obj >=? lng sw) && (lng obj <=? lng ne).

End LatLngBounds.

(* ================================================================== *)
(** * Further functions of the coordinate reference systems             *)
(* ================================================================== *)

Module CrsOps.

Import Geometry LatLngBounds.
Local Open Scope num_scope.

(** [Transformation.transform]: [_transform] on a copy of the point. *)
Definition transform (t : Crs.Transformation) (point : Point) (scale : Num)
  : Point :=
  Crs._transform t point scale.

End CrsOps.

(* ================================================================== *)
(** * Further utilities                                                 *)
(* ================================================================== *)

Module Utilities.

Local Open Scope num_scope.

(** ** [indexOf(array, el)], for elements compared by [===] *)

Section IndexOf.

Variable A : Type.
Variable strict_eq : A -> A -> bool.

(** The loop [for (i = from; i < array.length; i++)] on the elements from
    index [from] on. *)
Fixpoint indexOf_from (from : Z) (rest : list A) (el : A) : Z :=
  match rest with
  | [] => (-1)%Z
  | a :: rest' =>
      if strict_eq a el then from else indexOf_from (from + 1) rest' el
  end.

Definition indexOf (array : list A) (el : A) : Z := indexOf_from 0 array el.

End IndexOf.

(** ** [stamp(obj)] *)

(** An object as [stamp] sees it: its own [_atlas_id] property where it
    has one, its prototype, which is another object or [null], and whether
    properties can be added to it.  An object is named by its place in the
    list of the objects in existence.  The objects are ordinary ones, and
    [_atlas_id], where present, is a data property that holds a whole
    number. *)
Record Obj : Type := mkObj {
  own_id : option Z;
  proto : option nat;
  extensible : bool
}.

(** The counter [lastId] and the objects in existence. *)
Record World : Type := mkWorld {
  lastId : Z;
  objects : list Obj
}.

Fixpoint set_nth {A} (n : nat) (a : A) (l : list A) : list A :=
  match l, n with
  | [], _ => []
  | _ :: l', O => a :: l'
  | b :: l', S n' => b :: set_nth n' a l'
  end.

(** ['_atlas_id' in obj] and [obj._atlas_id] look for the property in the
    object and then along its prototype chain; [fuel] bounds the number of
    objects looked at. *)
Fixpoint find_id (fuel : nat) (objs : list Obj) (obj : nat) : option Z :=
  match fuel with
  | O => None
  | S fuel' =>
      match nth_error objs obj with
      | None => None
      | Some o =>
          match own_id o with
          | Some id => Some id
          | None =>
              match proto o with
              | Some p => find_id fuel' objs p
              | None => None
              end
          end
      end
  end.

(** A prototype chain has no cycle, so that it holds no more objects than
    there are. *)
Definition visible_id (w : World) (obj : nat) : option Z :=
  find_id (List.length (objects w)) (objects w) obj.

(** [++lastId] for a counter that is a whole number and not negative: up
    to 2^53 the numbers are counted one by one, and 2^53 + 1 is rounded
    back to 2^53. *)
Definition increment (n : Z) : Z :=
  if (n <? 2 ^ 53)%Z then (n + 1)%Z else n.

Definition set_own_id (id : Z) (o : Obj) : Obj :=
  mkObj (Some id) (proto o) (extensible o).

(** [in] throws for what is not an object.  The code is in strict mode:
    the assignment to an object that cannot be extended throws, after
    [++lastId] has moved the counter. *)
Definition stamp (obj : nat) : Js World Z :=
  fun w =>
    match nth_error (objects w) obj with
    | None => (w, Throw TypeError)
    | Some o =>
        match visible_id w obj with
        | Some id => (w, Return id)
        | None =>
            let id := increment (lastId w) in
            if extensible o
            then (mkWorld id (set_nth obj (set_own_id id o) (objects w)),
                  Return id)
            else (mkWorld id (objects w), Throw TypeError)
        end
    end.

(** ** [formatNum(num, precision)] *)

Inductive Precision : Type :=
| NoRounding              (* [false] *)
| DefaultDigits           (* [undefined] *)
| Digits (precision : Num).

Section WithHost.

Context `{Host}.

Definition formatNum (num : Num) (precision : Precision) : Num :=
  match precision with
  | NoRounding => num
  | _ =>
      let pow :=
        Math_pow (of_Z 10)
                 match precision with
                 | Digits p => p
                 | _ => of_Z 6
                 end in
      JsNum.round (num * pow) / pow
  end.

End WithHost.

End Utilities.

(* ================================================================== *)
(** * Map core: setting and limiting the view                           *)
(* ================================================================== *)

Module MapView.

Import Geometry LatLngBounds.
Local Open Scope num_scope.
Local Open Scope js_scope.

(** The events of the map fired while the view is set. *)
Module Fired.

Inductive MapEvent : Type :=
| viewprereset
| zoomstart
| movestart
| zoom
| move
| zoomend
| moveend
| viewreset
| load.

End Fired.

Abbreviation MapEvent := Fired.MapEvent.

(** A map with the events it fired, oldest first. *)
Record View : Type := mkView {
  view_map : MapCore.Map;
  view_fired : list MapEvent
}.

Definition on_view_map {A} (c : Js MapCore.Map A) : Js View A :=
  fun v =>
    let (m', r) := c (view_map v) in (mkView m' (view_fired v), r).

Definition fire (e : MapEvent) : Js View unit :=
  modify (fun v => mkView (view_map v) (view_fired v ++ [e])).

Definition when (b : bool) (c : Js View unit) : Js View unit :=
  if b then c else ret tt.

Import MapCore.

Definition set_loaded (v : bool) (m : Map) : Map :=
  mkMap v (_zoom m) (_lastCenter m) (_pixelOrigin m) (_size m)
        (_sizeChanged m) (container_client m) (mapPane_pos m)
        (_animatingZoom m) (_animateToZoom m) (_layersMinZoom m)
        (_layersMaxZoom m) (options_crs m) (options_minZoom m)
        (options_maxZoom m) (options_zoomSnap m).

Definition set_zoom (v : option Num) (m : Map) : Map :=
  mkMap (_loaded m) v (_lastCenter m) (_pixelOrigin m) (_size m)
        (_sizeChanged m) (container_client m) (mapPane_pos m)
        (_animatingZoom m) (_animateToZoom m) (_layersMinZoom m)
        (_layersMaxZoom m) (options_crs m) (options_minZoom m)
        (options_maxZoom m) (options_zoomSnap m).

Definition set_lastCenter (v : option LatLng) (m : Map) : Map :=
  mkMap (_loaded m) (_zoom m) v (_pixelOrigin m) (_size m)
        (_sizeChanged m) (container_client m) (mapPane_pos m)
        (_animatingZoom m) (_animateToZoom m) (_layersMinZoom m)
        (_layersMaxZoom m) (options_crs m) (options_minZoom m)
        (options_maxZoom m) (options_zoomSnap m).

Definition set_pixelOrigin (v : Point) (m : Map) : Map :=
  mkMap (_loaded m) (_zoom m) (_lastCenter m) v (_size m)
        (_sizeChanged m) (container_client m) (mapPane_pos m)
        (_animatingZoom m) (_animateToZoom m) (_layersMinZoom m)
        (_layersMaxZoom m) (options_crs m) (options_minZoom m)
        (options_maxZoom m) (options_zoomSnap m).

(** [setPosition(this._mapPane, point)] *)
Definition set_mapPane_pos (v : Point) (m : Map) : Map :=
  mkMap (_loaded m) (_zoom m) (_lastCenter m) (_pixelOrigin m) (_size m)
        (_sizeChanged m) (container_client m) v
        (_animatingZoom m) (_animateToZoom m) (_layersMinZoom m)
        (_layersMaxZoom m) (options_crs m) (options_minZoom m)
        (options_maxZoom m) (options_zoomSnap m).

(** [a !== b] between the stored zoom and a number. *)
Definition zoom_differs (stored : option Num) (zoom : Num) : bool :=
  match stored with
  | None => true
  | Some z => negb (z === zoom)
  end.

Section WithHost.

Context `{Host}.

Definition _getNewPixelOrigin (center : LatLng) (zoom : option Num)
  : Js Map Point :=
  size <- getSize ;;
  let viewHalf := divideBy size (of_Z 2) in
  m <- get ;;
  ret (round (add (subtract (project m center zoom) viewHalf)
                  (_getMapPanePos m))).

Definition _moveStart (zoomChanged noMoveStart : bool) : Js View unit :=
  when zoomChanged (fire Fired.zoomstart) ;;
  when (negb noMoveStart) (fire Fired.movestart).

(** [_move(center, zoom, data, supressEvent)]; [zoom] is [None] where it
    is [undefined], and [pinch] is [data && data.pinch]. *)
Definition _move (center : LatLng) (zoom : option Num) (pinch : bool)
  (supressEvent : bool) : Js View unit :=
  v <- get ;;
  let zoom :=
    match zoom with
    | None => _zoom (view_map v)
    | Some z => Some z
    end in
  let zoomChanged :=
    match zoom with
    | None => false
    | Some z => zoom_differs (_zoom (view_map v)) z
    end in
  on_view_map (modify (set_zoom zoom)) ;;
  on_view_map (modify (set_lastCenter (Some center))) ;;
  origin <- on_view_map (_getNewPixelOrigin center None) ;;
  on_view_map (modify (set_pixelOrigin origin)) ;;
  if negb supressEvent then
    when (zoomChanged || pinch) (fire Fired.zoom) ;;
    fire Fired.move
  else when pinch (fire Fired.zoom).

Definition _moveEnd (zoomChanged : bool) : Js View unit :=
  when zoomChanged (fire Fired.zoomend) ;;
  fire Fired.moveend.

Definition _resetView (center : LatLng) (zoom : Num) (noMoveStart : bool)
  : Js View unit :=
  on_view_map (modify (set_mapPane_pos (mkPoint (of_Z 0) (of_Z 0)))) ;;
  v <- get ;;
  let loading := negb (_loaded (view_map v)) in
  on_view_map (modify (set_loaded true)) ;;
  v <- get ;;
  let zoom := _limitZoom (view_map v) zoom in
  fire Fired.viewprereset ;;
  v <- get ;;
  let zoomChanged := zoom_differs (_zoom (view_map v)) zoom in
  _moveStart zoomChanged noMoveStart ;;
  _move center (Some zoom) false false ;;
  _moveEnd zoomChanged ;;
  fire Fired.viewreset ;;
  when loading (fire Fired.load).

(** ** Keeping the view inside the maximum bounds *)

Definition _rebound (left right : Num) : Num :=
  if left + right >? of_Z 0
  then JsNum.round (left - right) / of_Z 2
  else JsNum.max (of_Z 0) (JsNum.ceil left)
       - JsNum.max (of_Z 0) (JsNum.floor right).

Definition _getBoundsOffset (m : Map) (pxBounds : Corners)
  (maxBounds : LatLngCorners) (zoom : option Num) : Point :=
  let projectedMaxBounds :=
    newBounds (project m (getNorthEast maxBounds) zoom)
              (project m (getSouthWest maxBounds) zoom) in
  let minOffset := subtract (min projectedMaxBounds) (min pxBounds) in
  let maxOffset := subtract (max projectedMaxBounds) (max pxBounds) in
  let dx := _rebound (x minOffset) (neg (x maxOffset)) in
  let dy := _rebound (y minOffset) (neg (y maxOffset)) in
  mkPoint dx dy.

Definition _limitCenter (center : LatLng) (zoom : option Num)
  (bounds : option LatLngCorners) : Js Map LatLng :=
  match bounds with
  | None => ret center
  | Some bounds =>
      m <- get ;;
      let centerPoint := project m center zoom in
      size <- getSize ;;
      let viewHalf := divideBy size (of_Z 2) in
      let viewBounds :=
        newBounds (subtract centerPoint viewHalf) (add centerPoint viewHalf) in
      m <- get ;;
      let offset := _getBoundsOffset m viewBounds bounds zoom in
      if (abs (x offset) <=? of_Z 1) && (abs (y offset) <=? of_Z 1)
      then ret center
      else lift (unproject m (add centerPoint offset) zoom)
  end.

End WithHost.

End MapView.

(* ================================================================== *)
(** * The grid layer: removal by zoom; the tile layer                   *)
(* ================================================================== *)

Module TileLayer.

Import Geometry GridLayer.
Local Open Scope num_scope.

Section WithHost.

Context `{Host}.

(** [GridLayer._removeTilesAtZoom(zoom)] *)
Definition _removeTilesAtZoom (zoom : Num) (s : Layer) : Layer :=
  for_in_tiles
    (fun key s =>
       match lookup key (_tiles s) with
       | Some tile =>
           if negb (of_Z (tz (coords tile)) === zoom) then s
           else _removeTile key s
       | None => s
       end) s.

End WithHost.

(** The options of a tile layer that [initialize] reads and writes; a
    number that is [undefined] is NaN wherever it is used here. *)
Record Options : Type := mkOptions {
  minZoom : Num;
  maxZoom : Num;
  tileSize : Num;
  zoomOffset : Num;
  zoomReverse : bool;
  detectRetina : bool
}.

(** What [TileLayer.initialize] does to the options; [retina] is
    [Browser.retina]. *)
Definition initialize (retina : bool) (options : Options) : Options :=
  if detectRetina options && retina && (maxZoom options >? of_Z 0) then
    let tileSize := JsNum.floor (tileSize options / of_Z 2) in
    if negb (zoomReverse options) then
      let zoomOffset := zoomOffset options + of_Z 1 in
      let maxZoom :=
        JsNum.max (minZoom options) (maxZoom options - of_Z 1) in
      let minZoom := JsNum.max (of_Z 0) (minZoom options) in
      mkOptions minZoom maxZoom tileSize zoomOffset
                (zoomReverse options) (detectRetina options)
    else
      let zoomOffset := zoomOffset options - of_Z 1 in
      let minZoom :=
        JsNum.min (maxZoom options) (minZoom options + of_Z 1) in
      let minZoom := JsNum.max (of_Z 0) minZoom in
      mkOptions minZoom (maxZoom options) tileSize zoomOffset
                (zoomReverse options) (detectRetina options)
  else if negb (zoomReverse options) then
    mkOptions (minZoom options)
              (JsNum.max (minZoom options) (maxZoom options))
              (tileSize options) (zoomOffset options)
              (zoomReverse options) (detectRetina options)
  else
    mkOptions (JsNum.min (maxZoom options) (minZoom options))
              (maxZoom options)
              (tileSize options) (zoomOffset options)
              (zoomReverse options) (detectRetina options).

(** The element of an array at a number: [undefined] unless the number is
    an index of the array. *)
Definition element {A} (array : list A) (index : Num) : option A :=
  match index with
  | Fin q =>
      if Qeqb q (inject_Z (Qfloor q)) && (0 <=? Qfloor q)%Z
      then nth_error array (Z.to_nat (Qfloor q))
      else None
  | _ => None
  end.

(** [_getSubdomain(tilePoint)] *)
Definition _getSubdomain (subdomains : list string) (tilePoint : TileCoords)
  : option string :=
  let index :=
    abs (of_Z (tx tilePoint) + of_Z (ty tilePoint))
    %% of_Z (Z.of_nat (List.length subdomains)) in
  element subdomains index.

End TileLayer.

(* ################################################################## *)
(** * Part II: the vocabulary of the properties                         *)
(* ################################################################## *)

(* ================================================================== *)
(** * The retention rules of the prune pass                             *)
(* ================================================================== *)

(** The rules that [_pruneTiles] applies, stated on the tile store as the
    pass finds it. *)

Module Retention.

Import GridLayer.

(** The tile one zoom level up that covers a tile, and the four tiles one
    level down that it covers. *)
Definition parent (c : TileCoords) : TileCoords :=
  mkTileCoords (tx c / 2) (ty c / 2) (tz c - 1).

Definition children (c : TileCoords) : list TileCoords :=
  [ mkTileCoords (2 * tx c) (2 * ty c) (tz c + 1);
    mkTileCoords (2 * tx c) (2 * ty c + 1) (tz c + 1);
    mkTileCoords (2 * tx c + 1) (2 * ty c) (tz c + 1);
    mkTileCoords (2 * tx c + 1) (2 * ty c + 1) (tz c + 1) ].

(** The ancestors of a tile, nearest first, up to [levels] zoom levels. *)
Fixpoint ancestors (levels : nat) (c : TileCoords) : list TileCoords :=
  match levels with
  | O => []
  | S levels' => parent c :: ancestors levels' (parent c)
  end.

(** A property of the tile stored under a key; false when there is none. *)
Definition tile_is (p : Tile -> bool) (ts : Tiles) (key : string) : bool :=
  match lookup key ts with Some t => p t | None => false end.

Definition active_at (ts : Tiles) (c : TileCoords) : bool :=
  tile_is active ts (_tileCoordsToKey c).

(** A tile that can stand in for another: active, or loaded. *)
Definition usable (t : Tile) : bool := active t || is_loaded t.

(** A tile that is wanted and not shown yet: current and not active. *)
Definition waiting (t : Tile) : bool := current t && negb (active t).

(** The tiles of a list as far as the first active one, included. *)
Fixpoint until_active (ts : Tiles) (cs : list TileCoords) : list TileCoords :=
  match cs with
  | [] => []
  | c :: cs' => if active_at ts c then [c] else c :: until_active ts cs'
  end.

Definition has_key (key : string) (cs : list TileCoords) : bool :=
  existsb (fun c => String.eqb key (_tileCoordsToKey c)) cs.

(** [key] is retained as an ancestor of the tile at [c]: it is the key of
    one of the five nearest ancestors, no ancestor nearer than it is
    active, and its tile is usable. *)
Definition retained_as_ancestor (ts : Tiles) (c : TileCoords) (key : string)
  : bool :=
  has_key key (until_active ts (ancestors 5 c)) && tile_is usable ts key.

Definition active_ancestor (ts : Tiles) (c : TileCoords) : bool :=
  existsb (active_at ts) (ancestors 5 c).

(** The descendants searched below a tile, [levels] zoom levels down: its
    four children, and below each child that is not active, the
    descendants searched below that child. *)
Fixpoint searched_below (ts : Tiles) (levels : nat) (c : TileCoords)
  : list TileCoords :=
  match levels with
  | O => []
  | S levels' =>
      flat_map
        (fun child =>
           child :: (if active_at ts child then []
                     else searched_below ts levels' child))
        (children c)
  end.

(** [key] is retained as a descendant of the tile at [c]: none of the five
    nearest ancestors of [c] is active, [key] is the key of a descendant
    searched below [c] two levels down, and its tile is usable. *)
Definition retained_as_descendant (ts : Tiles) (c : TileCoords) (key : string)
  : bool :=
  negb (active_ancestor ts c)
  && has_key key (searched_below ts 2 c)
  && tile_is usable ts key.

(** The retention rule: the tile under [key] is current, or it is retained
    as an ancestor or as a descendant of some waiting tile. *)
Definition retained (ts : Tiles) (key : string) : bool :=
  tile_is current ts key
  || existsb
       (fun e =>
          waiting (snd e)
          && (retained_as_ancestor ts (coords (snd e)) key
              || retained_as_descendant ts (coords (snd e)) key))
       ts.

End Retention.

(* ================================================================== *)
(** * The properties as the specification words them                    *)
(* ================================================================== *)

Module Spec.

Import Geometry.
Local Open Scope num_scope.


Definition snap (increment v : Num) : Num :=
  if truthy increment then JsNum.round (v / increment) * increment else v.



(** "floor(min / tileSize) to ceil(max / tileSize) - 1, per axis" *)
Definition pixelBoundsToTileRange (pixelBounds : Corners) (tileSize : Point)
  : Corners :=
  mkCorners
    (mkPoint (JsNum.floor (x (min pixelBounds) / x tileSize))
             (JsNum.floor (y (min pixelBounds) / y tileSize)))
    (mkPoint (JsNum.ceil (x (max pixelBounds) / x tileSize) - of_Z 1)
             (JsNum.ceil (y (max pixelBounds) / y tileSize) - of_Z 1)).

(** The retention rules in the words of the specification: "a tile is
    retained if: it is current; OR it is the closest ancestor (up to 5 zoom
    levels up) that is already loaded; OR, failing that, if any descendant
    (up to 2 zoom levels down) is loaded/active (checked recursively,
    covering all 4 children at each level)". *)

Import GridLayer Retention.

Fixpoint closest_loaded (ts : Tiles) (cs : list TileCoords) : option TileCoords :=
  match cs with
  | [] => None
  | c :: cs' =>
      if tile_is is_loaded ts (_tileCoordsToKey c) then Some c
      else closest_loaded ts cs'
  end.

Definition closest_loaded_ancestor (ts : Tiles) (c : TileCoords) (key : string)
  : bool :=
  match closest_loaded ts (ancestors 5 c) with
  | Some a => String.eqb key (_tileCoordsToKey a)
  | None => false
  end.

Fixpoint descendants (levels : nat) (c : TileCoords) : list TileCoords :=
  match levels with
  | O => []
  | S levels' =>
      flat_map (fun child => child :: descendants levels' child) (children c)
  end.

Definition loaded_descendant (ts : Tiles) (c : TileCoords) (key : string)
  : bool :=
  negb (active_ancestor ts c)
  && has_key key (descendants 2 c)
  && tile_is usable ts key.

Definition retained (ts : Tiles) (key : string) : bool :=
  tile_is current ts key
  || existsb
       (fun e =>
          waiting (snd e)
          && (closest_loaded_ancestor ts (coords (snd e)) key
              || loaded_descendant ts (coords (snd e)) key))
       ts.

(** "latitude is clamped to ±85.0511287798° before projection" *)
Definition clamp_latitude (lat : Num) : Num :=
  let limit := Fin (850511287798 # 10000000000) in
  if limit <? lat then limit
  else if lat <? neg limit then neg limit
  else lat.

(** The formulas of the spherical Mercator projection, applied to a
    latitude as it is. *)
Definition mercator `{Host} (lat lng : Num) : Point :=
  let d := Math_PI / of_Z 180 in
  let sin := Math_sin (lat * d) in
  mkPoint (Crs.earthRadius * lng * d)
          (Crs.earthRadius * Math_log ((of_Z 1 + sin) / (of_Z 1 - sin))
           / of_Z 2).

(*SPEC-DEFS*)

End Spec.

(* ================================================================== *)
(** * Auxiliary notions of the proofs                                   *)
(* ================================================================== *)

Module Wrapping.

Local Open Scope Q_scope.

(** The value that [wrapNum] computes from finite numbers. *)
Definition Qwrap (x lo hi : Q) : Q :=
  Qrem (Qrem (x - lo) (hi - lo) + (hi - lo)) (hi - lo) + lo.

End Wrapping.

Import Geometry.

(** The numbers that [Math.floor] and [Math.ceil] return: the integers and
    the special values. *)
Definition whole (a : Num) : Prop :=
  match a with Fin q => exists k : Z, q = inject_Z k | _ => True end.

(** The test that guards the pass. *)
Definition all_finite (range : Corners) : bool :=
  isFinite (x (min range)) && isFinite (y (min range))
  && isFinite (x (max range)) && isFinite (y (max range)).

(** A step leaves the layer's own fields alone when it writes the map
    only. *)
Definition map_only {A} (c : Js GridLayer.Layer A) : Prop :=
  forall s, fst (c s) = GridLayer.set_map (GridLayer._map (fst (c s))) s.

(** A string without the separator. *)
Fixpoint free_of (sep : ascii) (s : string) : Prop :=
  match s with
  | EmptyString => True
  | String c s' => Ascii.eqb c sep = false /\ free_of sep s'
  end.

(** ** The marks of the prune pass *)

Module Marks.

Import GridLayer Retention.

(** The store [ts] with the retain mark of each tile set by [mark]. *)
Definition retag (mark : string -> Tile -> bool) (ts : Tiles) : Tiles :=
  map (fun e => (fst e, set_retain (mark (fst e) (snd e)) (snd e))) ts.

(** [key] is among the marked keys. *)
Definition mem (key : string) (marked : list string) : bool :=
  existsb (String.eqb key) marked.

(** The keys that [_retainParent] marks from the tile at [c], searching
    [levels] levels up, and what it returns. *)
Fixpoint parent_marks (ts : Tiles) (levels : nat) (c : TileCoords)
  : list string * bool :=
  match levels with
  | O => ([], false)
  | S levels' =>
      let key := _tileCoordsToKey (parent c) in
      match lookup key ts with
      | Some t =>
          if active t then ([key], true)
          else
            let (marked, found) := parent_marks ts levels' (parent c) in
            ((if is_loaded t then [key] else []) ++ marked, found)%list
      | None => parent_marks ts levels' (parent c)
      end
  end.

(** The keys that [_retainChildren] marks below the tile at [c], searching
    [levels] levels down. *)
Fixpoint children_marks (ts : Tiles) (levels : nat) (c : TileCoords)
  : list string :=
  match levels with
  | O => []
  | S levels' =>
      flat_map
        (fun child =>
           let key := _tileCoordsToKey child in
           match lookup key ts with
           | Some t =>
               if active t then [key]
               else ((if is_loaded t then [key] else [])
                     ++ children_marks ts levels' child)%list
           | None => children_marks ts levels' child
           end)
        (children c)
  end.

(** The layer [s0] holding the store [ts] under the retain marks [mark]. *)
Definition holding (s0 : Layer) (ts : Tiles) (mark : string -> Tile -> bool)
  : Layer :=
  set_tiles (retag mark ts) s0.

(** What the loop body of [_retainChildren] marks for one child. *)
Definition child_marks (ts : Tiles) (levels : nat) (child : TileCoords)
  : list string :=
  let key := _tileCoordsToKey child in
  match lookup key ts with
  | Some t =>
      if active t then [key]
      else ((if is_loaded t then [key] else [])
            ++ children_marks ts levels child)%list
  | None => children_marks ts levels child
  end.

(** The keys that the second loop of [_pruneTiles] marks for the tile at
    [c], when that tile is waiting. *)
Definition marks (ts : Tiles) (c : TileCoords) : list string :=
  let (marked, found) := parent_marks ts 5 c in
  if found then marked else (marked ++ children_marks ts 2 c)%list.

(** The keys it marks when the loop is at [key]. *)
Definition marks_at (ts : Tiles) (key : string) : list string :=
  match lookup key ts with
  | Some t => if waiting t then marks ts (coords t) else []
  | None => []
  end.

Section WithHost.

Context `{Host}.

(** The event fired when the tile under [key] is removed. *)
Definition unload (key : string) : Event := tileunload (_keyToTileCoords key).

(** Firing events one after the other. *)
Definition fire_all (events : list Event) (s : Layer) : Layer :=
  fold_left (fun s e => fire e s) events s.

End WithHost.

End Marks.

(** ** Identifiers *)

(** The counter is not negative; the identifiers that the objects own are
    positive, none exceeds the counter, and no two objects own the same;
    and the objects are listed with a prototype before the objects that
    inherit from it. *)
Definition well_stamped (w : Utilities.World) : Prop :=
  (0 <= Utilities.lastId w)%Z
  /\ (forall i o id,
        nth_error (Utilities.objects w) i = Some o ->
        Utilities.own_id o = Some id ->
        (0 < id <= Utilities.lastId w)%Z)
  /\ (forall i j oi oj id,
        nth_error (Utilities.objects w) i = Some oi ->
        nth_error (Utilities.objects w) j = Some oj ->
        Utilities.own_id oi = Some id -> Utilities.own_id oj = Some id ->
        i = j)
  /\ (forall i o p,
        nth_error (Utilities.objects w) i = Some o ->
        Utilities.proto o = Some p -> (p < i)%nat).

(** ** Calls *)

(** The value that a call returned, NaN coordinates standing for a call
    that threw. *)
Definition snd_value (r : MapCore.Map * Completion Point) : Point :=
  match snd r with
  | Return p => p
  | Throw _ => mkPoint NaN NaN
  end.

(** ** Tiles in pixels *)

(** The pixel bounds of a tile: the corners [nwPoint] and [sePoint] that
    [_tileCoordsToNwSe] computes before it unprojects them. *)
Definition tile_pixel_bounds (s : GridLayer.Layer) (coords : Point) : Corners :=
  let tileSize := GridLayer.getTileSize s in
  let nwPoint := scaleBy coords tileSize in
  let sePoint := add nwPoint tileSize in
  mkCorners nwPoint sePoint.

(** ** The reconciliation pass *)

(** A tile that differs from another in its current mark at most, and a
    store that differs from another in the current marks at most. *)
Definition same_tile (t t' : GridLayer.Tile) : Prop :=
  GridLayer.set_current (GridLayer.current t') t = t'.

Definition recoloured (ts ts' : GridLayer.Tiles) : Prop :=
  Forall2 (fun e e' => fst e = fst e' /\ same_tile (snd e) (snd e')) ts ts'.

(** The tile that [_addTile] records. *)
Definition new_tile (c : GridLayer.TileCoords) : GridLayer.Tile :=
  GridLayer.mkTile c true None false false.

(** What [_isValidTile] answers, a call that throws counting as no. *)
Definition is_valid (s : GridLayer.Layer) (c : GridLayer.TileCoords) : bool :=
  match snd (GridLayer._isValidTile c s) with
  | Return b => b
  | Throw _ => false
  end.

(** The coordinates that the two loops of [_update] visit, in their
    order: row after row of the tile range, at the tile zoom. *)
Definition range_coords (tileRange : Corners) (tileZoom : Num)
  : list GridLayer.TileCoords :=
  flat_map
    (fun j =>
       map (fun i => GridLayer.mkTileCoords i j (GridLayer.integral tileZoom))
           (GridLayer.counting (x (min tileRange)) (x (max tileRange))))
    (GridLayer.counting (y (min tileRange)) (y (max tileRange))).

(** ** Whole numbers that are counted exactly *)

(** The numbers of the language hold every whole number up to 2^53 in
    magnitude, and beyond that [i + 1] can be [i] again: a counting loop
    of the source then does not advance, where the embedding, which counts
    in [Z], goes on.  The properties of the loops are therefore stated for
    tile coordinates below 2^50 in magnitude (the children of the children
    of such a tile, and the zooms five below and two above its own, are
    counted exactly), and for tile ranges within these bounds. *)
Definition exact_coords (c : GridLayer.TileCoords) : bool :=
  (Z.abs (GridLayer.tx c) <? 2 ^ 50)%Z
  && (Z.abs (GridLayer.ty c) <? 2 ^ 50)%Z
  && (Z.abs (GridLayer.tz c) <? 2 ^ 50)%Z.

Definition exact_store (ts : GridLayer.Tiles) : bool :=
  forallb (fun e => exact_coords (GridLayer.coords (snd e))) ts.

Definition exact_number (n : Num) : bool :=
  (of_Z (- 2 ^ 50) <? n)%num && (n <? of_Z (2 ^ 50))%num.

Definition exact_range (r : Corners) : bool :=
  exact_number (x (min r)) && exact_number (y (min r))
  && exact_number (x (max r)) && exact_number (y (max r)).

(** ** Points and bounds made of numbers *)

(** A point neither coordinate of which is NaN, and one whose coordinates
    are both finite. *)
Definition numeric (p : Point) : bool :=
  negb (isNaN (x p)) && negb (isNaN (y p)).

Definition finite (p : Point) : bool := isFinite (x p) && isFinite (y p).

(** Bounds whose minimum corner does not exceed the maximum corner. *)
Definition ordered (b : Corners) : bool :=
  (x (min b) <=? x (max b))%num && (y (min b) <=? y (max b))%num.

(** ** Numbers and coordinates *)

(** The number of digits that [formatNum] keeps. *)
Definition digits_of (precision : Utilities.Precision) : Num :=
  match precision with
  | Utilities.Digits p => p
  | _ => of_Z 6
  end.


(** The margin that [LatLng.equals] allows. *)
Definition margin_of (maxMargin : option Num) : Num :=
  match maxMargin with
  | None => Fin (1 # 1000000000)
  | Some m => m
  end.

(** ** The view of the map *)

Section ViewVocabulary.

Context `{Host}.

(** The maximum bounds as [_getBoundsOffset] projects them. *)
Definition projected_bounds (m : MapCore.Map)
  (maxBounds : LatLngBounds.LatLngCorners) (zoom : option Num) : Corners :=
  newBounds (MapCore.project m (LatLngBounds.getNorthEast maxBounds) zoom)
            (MapCore.project m (LatLngBounds.getSouthWest maxBounds) zoom).

(** The view bounds that [_limitCenter] computes around a center. *)
Definition view_bounds (m : MapCore.Map) (center : LatLng) (zoom : option Num)
  : Corners :=
  let centerPoint := MapCore.project m center zoom in
  let viewHalf := divideBy (snd_value (MapCore.getSize m)) (of_Z 2) in
  newBounds (subtract centerPoint viewHalf) (add centerPoint viewHalf).

End ViewVocabulary.

(** The events that [_resetView] fires, in their order. *)
Definition reset_events (changed noMoveStart loading : bool)
  : list MapView.MapEvent :=
  ([MapView.Fired.viewprereset]
   ++ (if changed then [MapView.Fired.zoomstart] else [])
   ++ (if noMoveStart then [] else [MapView.Fired.movestart])
   ++ (if changed then [MapView.Fired.zoom] else [])
   ++ [MapView.Fired.move]
   ++ (if changed then [MapView.Fired.zoomend] else [])
   ++ [MapView.Fired.moveend; MapView.Fired.viewreset]
   ++ (if loading then [MapView.Fired.load] else []))%list.

(** ** The marks and the tiles of the reconciliation pass *)

(** The range around the tile range whose tiles [_update] leaves alone,
    and the tiles that its first loop marks as not current: those of
    another zoom and those outside that range. *)
Definition no_prune_range (s : GridLayer.Layer) (tileRange : Corners)
  : Corners :=
  let margin := GridLayer.options_keepBuffer s in
  newBounds
    (subtract (getBottomLeft tileRange) (mkPoint margin (neg margin)))
    (add (getTopRight tileRange) (mkPoint margin (neg margin))).

Definition stale (tileZoom : Num) (noPruneRange : Corners)
  (tile : GridLayer.Tile) : bool :=
  let c := GridLayer.coords tile in
  negb (of_Z (GridLayer.tz c) === tileZoom)%num
  || negb (contains noPruneRange
             (mkPoint (of_Z (GridLayer.tx c)) (of_Z (GridLayer.ty c)))).

Definition first_mark (tileZoom : Num) (noPruneRange : Corners)
  (tile : GridLayer.Tile) : GridLayer.Tile :=
  if stale tileZoom noPruneRange tile
  then GridLayer.set_current false tile
  else tile.

(** A key that is the key of a valid coordinate among those visited. *)
Definition wanted (s : GridLayer.Layer) (visited : list GridLayer.TileCoords)
  (key : string) : bool :=
  existsb
    (fun c => is_valid s c && String.eqb (GridLayer._tileCoordsToKey c) key)
    visited.

(** A valid coordinate that has no tile in a store. *)
Definition missing (s : GridLayer.Layer) (ts : GridLayer.Tiles)
  (c : GridLayer.TileCoords) : bool :=
  is_valid s c
  && match GridLayer.lookup (GridLayer._tileCoordsToKey c) ts with
     | None => true
     | Some _ => false
     end.

(** The layer after [_addTile] has run on the coordinates of a queue, in
    their order; and the end of [_update], which does so for a queue that
    is not empty, after the layer has been marked as loading. *)
Definition add_all (queue : list GridLayer.TileCoords) (s : GridLayer.Layer)
  : GridLayer.Layer :=
  fold_left (fun s c => GridLayer._addTile c s) queue s.

Definition add_queue (queue : list GridLayer.TileCoords) (s : GridLayer.Layer)
  : GridLayer.Layer :=
  match queue with
  | [] => s
  | _ =>
      add_all queue
        (if GridLayer._loading s then s
         else GridLayer.fire GridLayer.loading (GridLayer.set_loading true s))
  end.

(* ================================================================== *)
(** * Sample objects                                                    *)
(* ================================================================== *)

Module Samples.

Import Geometry.

(** A host with 3D transforms; its mathematical functions are crude
    (none of the facts evaluated on it depends on them). *)
Definition host : Host :=
  {| to_number_other := fun _ => NaN;
     Math_PI := Fin (355 # 113);
     Math_sin := fun a => a;
     Math_log := fun a => a;
     Math_atan := fun a => a;
     Math_exp := fun a => a;
     Math_pow := fun a b => (a * b)%num;
     Math_sqrt := fun a => a;
     Browser_any3d := true |}.

Definition crs : Crs.CRS := @Crs.EPSG3857 host.

(** A map as [initialize] leaves it when no view was given. *)
Definition fresh_map : MapCore.Map :=
  {| MapCore._loaded := false;
     MapCore._zoom := None;
     MapCore._lastCenter := None;
     MapCore._pixelOrigin := mkPoint NaN NaN;
     MapCore._size := None;
     MapCore._sizeChanged := true;
     MapCore.container_client := mkPoint (of_Z 800) (of_Z 600);
     MapCore.mapPane_pos := mkPoint (of_Z 0) (of_Z 0);
     MapCore._animatingZoom := false;
     MapCore._animateToZoom := NaN;
     MapCore._layersMinZoom := None;
     MapCore._layersMaxZoom := None;
     MapCore.options_crs := crs;
     MapCore.options_minZoom := None;
     MapCore.options_maxZoom := None;
     MapCore.options_zoomSnap := of_Z 1 |}.

(** A map created with [zoom: 3] and no center: [initialize] stores the
    zoom and sets no view. *)
Definition zoom_only_map : MapCore.Map :=
  {| MapCore._loaded := false;
     MapCore._zoom := Some (of_Z 3);
     MapCore._lastCenter := None;
     MapCore._pixelOrigin := mkPoint NaN NaN;
     MapCore._size := None;
     MapCore._sizeChanged := true;
     MapCore.container_client := mkPoint (of_Z 800) (of_Z 600);
     MapCore.mapPane_pos := mkPoint (of_Z 0) (of_Z 0);
     MapCore._animatingZoom := false;
     MapCore._animateToZoom := NaN;
     MapCore._layersMinZoom := None;
     MapCore._layersMaxZoom := None;
     MapCore.options_crs := crs;
     MapCore.options_minZoom := None;
     MapCore.options_maxZoom := None;
     MapCore.options_zoomSnap := of_Z 1 |}.

(** A map with [minZoom: 0], [maxZoom: 3] and [zoomSnap: 2]. *)
Definition snapping_map : MapCore.Map :=
  {| MapCore._loaded := false;
     MapCore._zoom := None;
     MapCore._lastCenter := None;
     MapCore._pixelOrigin := mkPoint NaN NaN;
     MapCore._size := None;
     MapCore._sizeChanged := true;
     MapCore.container_client := mkPoint (of_Z 800) (of_Z 600);
     MapCore.mapPane_pos := mkPoint (of_Z 0) (of_Z 0);
     MapCore._animatingZoom := false;
     MapCore._animateToZoom := NaN;
     MapCore._layersMinZoom := None;
     MapCore._layersMaxZoom := None;
     MapCore.options_crs := crs;
     MapCore.options_minZoom := Some (of_Z 0);
     MapCore.options_maxZoom := Some (of_Z 3);
     MapCore.options_zoomSnap := of_Z 2 |}.

(** A map showing zoom 2, as [setView] leaves it. *)
Definition loaded_map : MapCore.Map :=
  {| MapCore._loaded := true;
     MapCore._zoom := Some (of_Z 2);
     MapCore._lastCenter := Some (mkLatLng (of_Z 0) (of_Z 0) None);
     MapCore._pixelOrigin := mkPoint (of_Z 112) (of_Z 212);
     MapCore._size := None;
     MapCore._sizeChanged := true;
     MapCore.container_client := mkPoint (of_Z 800) (of_Z 600);
     MapCore.mapPane_pos := mkPoint (of_Z 0) (of_Z 0);
     MapCore._animatingZoom := false;
     MapCore._animateToZoom := NaN;
     MapCore._layersMinZoom := Some (of_Z 0);
     MapCore._layersMaxZoom := Some (of_Z 18);
     MapCore.options_crs := crs;
     MapCore.options_minZoom := None;
     MapCore.options_maxZoom := None;
     MapCore.options_zoomSnap := of_Z 1 |}.

Definition tile (x y z : Z) (current : bool) (loaded : option Num)
  (active : bool) : string * GridLayer.Tile :=
  (GridLayer._tileCoordsToKey (GridLayer.mkTileCoords x y z),
   GridLayer.mkTile (GridLayer.mkTileCoords x y z) current loaded active false).

(** A layer of 256-pixel tiles on [loaded_map], between zooms: the tile of
    zoom 2 is wanted and not loaded yet; those of zoom 1 and 0 above it are
    loaded and still fading in; below it, a tile of zoom 3 is active and a
    tile of zoom 4 under that one is loaded; a tile of zoom 1 elsewhere is
    loaded.  Only the tile of zoom 2 is current. *)
Definition zooming_layer : GridLayer.Layer :=
  {| GridLayer._map := Some loaded_map;
     GridLayer._tileZoom := Some (of_Z 2);
     GridLayer._tiles :=
       [ tile 0 0 0 false (Some (of_Z 1000)) false;
         tile 0 0 1 false (Some (of_Z 1100)) false;
         tile 1 1 1 false (Some (of_Z 1100)) false;
         tile 0 0 2 true None false;
         tile 0 0 3 false (Some (of_Z 700)) true;
         tile 0 0 4 false (Some (of_Z 800)) false ];
     GridLayer._loading := true;
     GridLayer._globalTileRange :=
       Some (mkCorners (mkPoint (of_Z 0) (of_Z 0)) (mkPoint (of_Z 3) (of_Z 3)));
     GridLayer._wrapX := Some (of_Z 0, of_Z 4);
     GridLayer._wrapY := None;
     GridLayer.fired := [];
     GridLayer.options_tileSize := GridLayer.SizeNumber (of_Z 256);
     GridLayer.options_minZoom := Some (of_Z 0);
     GridLayer.options_maxZoom := None;
     GridLayer.options_minNativeZoom := None;
     GridLayer.options_maxNativeZoom := None;
     GridLayer.options_keepBuffer := of_Z 2;
     GridLayer.options_bounds := None |}.

(** The same layer on a map whose zoom was corrupted into NaN. *)
Definition corrupted_map : MapCore.Map :=
  {| MapCore._loaded := true;
     MapCore._zoom := Some NaN;
     MapCore._lastCenter := Some (mkLatLng (of_Z 0) (of_Z 0) None);
     MapCore._pixelOrigin := mkPoint (of_Z 112) (of_Z 212);
     MapCore._size := None;
     MapCore._sizeChanged := true;
     MapCore.container_client := mkPoint (of_Z 800) (of_Z 600);
     MapCore.mapPane_pos := mkPoint (of_Z 0) (of_Z 0);
     MapCore._animatingZoom := false;
     MapCore._animateToZoom := NaN;
     MapCore._layersMinZoom := Some (of_Z 0);
     MapCore._layersMaxZoom := Some (of_Z 18);
     MapCore.options_crs := crs;
     MapCore.options_minZoom := None;
     MapCore.options_maxZoom := None;
     MapCore.options_zoomSnap := of_Z 1 |}.

Definition corrupted_layer : GridLayer.Layer :=
  GridLayer.set_map (Some corrupted_map) zooming_layer.

(** A layer of native zooms 1 to 3 and of minimum zoom 3, on
    [loaded_map], whose zoom of 2 is below that minimum. *)
Definition limited_layer : GridLayer.Layer :=
  {| GridLayer._map := Some loaded_map;
     GridLayer._tileZoom := Some (of_Z 2);
     GridLayer._tiles :=
       [ tile 0 0 1 false (Some (of_Z 1100)) true;
         tile 0 0 2 true None false;
         tile 1 0 2 true (Some (of_Z 1200)) true ];
     GridLayer._loading := true;
     GridLayer._globalTileRange :=
       Some (mkCorners (mkPoint (of_Z 0) (of_Z 0)) (mkPoint (of_Z 3) (of_Z 3)));
     GridLayer._wrapX := Some (of_Z 0, of_Z 4);
     GridLayer._wrapY := None;
     GridLayer.fired := [];
     GridLayer.options_tileSize := GridLayer.SizeNumber (of_Z 256);
     GridLayer.options_minZoom := Some (of_Z 3);
     GridLayer.options_maxZoom := None;
     GridLayer.options_minNativeZoom := Some (of_Z 1);
     GridLayer.options_maxNativeZoom := Some (of_Z 3);
     GridLayer.options_keepBuffer := of_Z 2;
     GridLayer.options_bounds := None |}.

(** A reset path that does nothing. *)
Definition no_reset : LatLng -> Num -> Js GridLayer.Layer unit :=
  fun _ _ => ret tt.

(*SAMPLES*)

End Samples.

(* ################################################################## *)
(** * Part III: the properties                                          *)
(* ################################################################## *)

(* ================================================================== *)
(** * Facts about numbers                                               *)
(* ================================================================== *)

Module JsNumFacts.

Local Open Scope Q_scope.

Lemma Qltb_lt (a b : Q) : Qltb a b = true <-> a < b.
Proof.
  unfold Qltb. rewrite Qlt_alt. destruct (a ?= b); split; congruence.
Qed.

Lemma Qltb_ge (a b : Q) : Qltb a b = false <-> b <= a.
Proof.
  unfold Qltb. destruct (Qcompare_spec a b) as [E|L|G]; split; intro h;
    try congruence; try lra; exfalso; lra.
Qed.

Lemma Qleb_le (a b : Q) : Qleb a b = true <-> a <= b.
Proof.
  unfold Qleb. destruct (Qcompare_spec a b) as [E|L|G]; split; intro h;
    try congruence; try lra; exfalso; lra.
Qed.

Lemma Qeqb_eq (a b : Q) : Qeqb a b = true <-> a == b.
Proof.
  unfold Qeqb. rewrite Qeq_alt. destruct (a ?= b); split; congruence.
Qed.

Lemma Qeqb_neq (a b : Q) : Qeqb a b = false <-> ~ a == b.
Proof.
  rewrite <- Qeqb_eq. destruct (Qeqb a b); split; congruence.
Qed.

Lemma fin_eq (p q : Q) : p == q -> fin p = fin q.
Proof. intro h. unfold fin. f_equal. now apply Qred_complete. Qed.

(** Truncation of a ratio in [[0, 1)] and in [[1, 2)]. *)
Lemma Qfloor_unique (t : Q) (n : Z) :
  inject_Z n <= t -> t < inject_Z (n + 1) -> Qfloor t = n.
Proof.
  intros lo hi.
  pose proof (Qfloor_le t) as f1. pose proof (Qlt_floor t) as f2.
  assert (inject_Z (Qfloor t) < inject_Z (n + 1)) as a by lra.
  assert (inject_Z n < inject_Z (Qfloor t + 1)) as b by lra.
  rewrite <- Zlt_Qlt in a, b. lia.
Qed.

Lemma Qtrunc_unit (t : Q) : 0 <= t -> t < 1 -> Qtrunc t = 0%Z.
Proof.
  intros lo hi. unfold Qtrunc.
  assert (Qltb t 0 = false) as -> by now apply Qltb_ge.
  apply Qfloor_unique; unfold inject_Z; simpl; lra.
Qed.

Lemma Qtrunc_one (t : Q) : 1 <= t -> t < 2 -> Qtrunc t = 1%Z.
Proof.
  intros lo hi. unfold Qtrunc.
  assert (Qltb t 0 = false) as -> by (apply Qltb_ge; lra).
  apply Qfloor_unique; unfold inject_Z; simpl; lra.
Qed.

(** The fractional part left by truncation has the sign of the number. *)
Lemma Qtrunc_frac_nonneg (t : Q) :
  0 <= t -> 0 <= t - inject_Z (Qtrunc t) /\ t - inject_Z (Qtrunc t) < 1.
Proof.
  intro lo. unfold Qtrunc.
  assert (Qltb t 0 = false) as -> by now apply Qltb_ge.
  pose proof (Qfloor_le t). pose proof (Qlt_floor t) as f.
  rewrite inject_Z_plus in f. change (inject_Z 1) with 1 in f. lra.
Qed.

Lemma Qtrunc_frac_neg (t : Q) :
  t < 0 -> -1 < t - inject_Z (Qtrunc t) /\ t - inject_Z (Qtrunc t) <= 0.
Proof.
  intro lo. unfold Qtrunc.
  assert (Qltb t 0 = true) as -> by now apply Qltb_lt.
  pose proof (Qle_ceiling t). pose proof (Qceiling_lt t) as f.
  unfold Z.sub in f. rewrite inject_Z_plus in f.
  set (c := inject_Z (Qceiling t)) in *.
  change (inject_Z (- (1))) with (-1 # 1) in f. clearbody c. lra.
Qed.

#[export] Instance Qtrunc_comp : Proper (Qeq ==> eq) Qtrunc.
Proof.
  intros a b e. unfold Qtrunc.
  assert (Qltb a 0 = Qltb b 0) as ->.
  { destruct (Qltb b 0) eqn:hb.
    - apply Qltb_lt. apply Qltb_lt in hb. lra.
    - apply Qltb_ge. apply Qltb_ge in hb. lra. }
  destruct (Qltb b 0); [apply Qceiling_comp | apply Qfloor_comp]; exact e.
Qed.

#[export] Instance Qrem_comp : Proper (Qeq ==> Qeq ==> Qeq) Qrem.
Proof.
  intros a b e c d f. unfold Qrem.
  assert (Qtrunc (a / c) = Qtrunc (b / d)) as ->
    by (apply Qtrunc_comp; rewrite e, f; reflexivity).
  rewrite e, f. reflexivity.
Qed.

Lemma Qrem_frac (p q : Q) :
  ~ q == 0 -> Qrem p q / q == p / q - inject_Z (Qtrunc (p / q)).
Proof. intro nz. unfold Qrem. now field. Qed.

Lemma Qrem_small (p q : Q) : 0 <= p / q -> p / q < 1 -> Qrem p q == p.
Proof.
  intros lo hi. unfold Qrem. rewrite (Qtrunc_unit lo hi).
  change (inject_Z 0) with 0. ring.
Qed.

Lemma Qrem_shift (p q : Q) : 1 <= p / q -> p / q < 2 -> Qrem p q == p - q.
Proof.
  intros lo hi. unfold Qrem. rewrite (Qtrunc_one lo hi).
  change (inject_Z 1) with 1. ring.
Qed.

(** The ratio of a remainder to its divisor lies strictly between -1
    and 1. *)
Lemma Qrem_frac_bounds (p q : Q) :
  ~ q == 0 -> -1 < Qrem p q / q /\ Qrem p q / q < 1.
Proof.
  intro nz. rewrite (Qrem_frac p nz).
  destruct (Qlt_le_dec (p / q) 0) as [neg | pos].
  - pose proof (Qtrunc_frac_neg neg). lra.
  - pose proof (Qtrunc_frac_nonneg pos). lra.
Qed.

(** The value [((a % d) + d) % d] of [wrapNum], as a ratio to [d]. *)
Lemma Qrem_twice_frac (a d : Q) :
  ~ d == 0 ->
  0 <= Qrem (Qrem a d + d) d / d /\ Qrem (Qrem a d + d) d / d < 1.
Proof.
  intro nz. rewrite (Qrem_frac (Qrem a d + d) nz).
  assert ((Qrem a d + d) / d == Qrem a d / d + 1) as e by now field.
  pose proof (Qrem_frac_bounds a nz) as [lo hi].
  assert (0 <= (Qrem a d + d) / d) as pos by lra.
  pose proof (Qtrunc_frac_nonneg pos). lra.
Qed.

End JsNumFacts.

(** Turns the boolean comparisons of rationals in the context and in the
    goal into propositions, and settles the arithmetic. *)
Ltac Qbool :=
  repeat match goal with
  | h : Qltb _ _ = true |- _ => apply JsNumFacts.Qltb_lt in h
  | h : Qltb _ _ = false |- _ => apply JsNumFacts.Qltb_ge in h
  | h : Qleb _ _ = true |- _ => apply JsNumFacts.Qleb_le in h
  | h : Qeqb _ _ = true |- _ => apply JsNumFacts.Qeqb_eq in h
  | h : Qeqb _ _ = false |- _ => apply JsNumFacts.Qeqb_neq in h
  | |- Qltb _ _ = true => apply JsNumFacts.Qltb_lt
  | |- Qltb _ _ = false => apply JsNumFacts.Qltb_ge
  | |- Qleb _ _ = true => apply JsNumFacts.Qleb_le
  | |- Qeqb _ _ = true => apply JsNumFacts.Qeqb_eq
  | |- Qeqb _ _ = false => apply JsNumFacts.Qeqb_neq
  end;
  try lra.

(** Turns the comparisons of injected integers in the context into
    comparisons of integers. *)
Ltac Qints :=
  repeat match goal with
  | h : (inject_Z _ <= inject_Z _)%Q |- _ => rewrite <- Zle_Qle in h
  | h : (inject_Z _ < inject_Z _)%Q |- _ => rewrite <- Zlt_Qlt in h
  end.

(* ================================================================== *)
(** * Facts about [wrapNum]                                             *)
(* ================================================================== *)

Module UtilFacts.

Import JsNumFacts Wrapping.
Local Open Scope Q_scope.

Lemma wrapNum_fin (x lo hi : Q) (includeMax : bool) :
  ~ hi - lo == 0 ->
  JsNum.eqb (Fin x) (Fin hi) && includeMax = false ->
  Util.wrapNum (Fin x) (Fin lo, Fin hi) includeMax = fin (Qwrap x lo hi).
Proof.
  intros nz ne. unfold Util.wrapNum. cbn [fst snd]. rewrite ne.
  cbn [JsNum.sub JsNum.rem JsNum.add fin].
  assert (Qeqb (Qred (hi - lo)) 0 = false) as nz'
      by (apply Qeqb_neq; now rewrite Qred_correct).
  rewrite nz'. cbn [JsNum.add JsNum.rem fin]. rewrite nz'.
  cbn [JsNum.add fin]. apply (f_equal Fin). apply Qred_complete.
  unfold Qwrap. now rewrite !Qred_correct.
Qed.

(** With a range of zero width the result is NaN. *)
Lemma wrapNum_flat (x lo hi : Q) :
  hi - lo == 0 -> Util.wrapNum (Fin x) (Fin lo, Fin hi) false = NaN.
Proof.
  intro z. unfold Util.wrapNum. cbn [fst snd]. rewrite andb_false_r.
  cbn [JsNum.sub JsNum.rem JsNum.add fin].
  assert (Qeqb (Qred (hi - lo)) 0 = true) as ->
      by (apply Qeqb_eq; now rewrite Qred_correct).
  reflexivity.
Qed.

Lemma Qwrap_comp (x x' lo hi : Q) : x == x' -> Qwrap x lo hi == Qwrap x' lo hi.
Proof. intro e. unfold Qwrap. now rewrite e. Qed.

(** A wrapped value is a fixed point of the wrap. *)
Lemma Qwrap_idempotent (x lo hi : Q) :
  ~ hi - lo == 0 -> Qwrap (Qwrap x lo hi) lo hi == Qwrap x lo hi.
Proof.
  intro nz. unfold Qwrap at 1 3.
  set (d := hi - lo) in *.
  set (b := Qrem (Qrem (x - lo) d + d) d).
  pose proof (Qrem_twice_frac (x - lo) nz) as [lo_b hi_b]. fold b in lo_b, hi_b.
  assert (Qwrap x lo hi - lo == b) as -> by (unfold Qwrap; fold d; fold b; ring).
  rewrite (Qrem_small lo_b hi_b).
  assert ((b + d) / d == b / d + 1) as e by now field.
  rewrite (@Qrem_shift (b + d) d) by lra.
  ring.
Qed.

(** Wrapping is idempotent on every number and every range. *)
Lemma wrapNum_idempotent (x : Num) (range : Num * Num) :
  Util.wrapNum (Util.wrapNum x range false) range false
  = Util.wrapNum x range false.
Proof.
  destruct range as [lo hi].
  destruct x as [| | |x]; destruct lo as [| | |lo]; destruct hi as [| | |hi];
    try reflexivity;
    try (unfold Util.wrapNum; cbn [fst snd]; rewrite !andb_false_r;
         reflexivity).
  - (* finite number, finite range *)
    destruct (Qeq_dec (hi - lo) 0) as [z | nz].
    + rewrite (wrapNum_flat x z). reflexivity.
    + rewrite (wrapNum_fin x false nz) by apply andb_false_r.
      unfold fin at 1. rewrite (wrapNum_fin _ false nz) by apply andb_false_r.
      apply fin_eq.
      rewrite (Qwrap_comp lo hi (Qred_correct (Qwrap x lo hi))).
      now apply Qwrap_idempotent.
Qed.

End UtilFacts.

(* ================================================================== *)
(** * Coordinates: wrapping, construction, projection                   *)
(* ================================================================== *)

Import Geometry.

(** C8. Wrapping tile coordinates is idempotent, whatever wrap ranges the
    layer holds on either axis, and it keeps the z component. *)
Theorem wrapCoords_idempotent (s : GridLayer.Layer) (c : GridLayer.Coords) :
  GridLayer._wrapCoords s (GridLayer._wrapCoords s c) = GridLayer._wrapCoords s c
  /\ GridLayer.cz (GridLayer._wrapCoords s c) = GridLayer.cz c.
Proof.
  split; [| reflexivity].
  unfold GridLayer._wrapCoords. cbn [GridLayer.cx GridLayer.cy GridLayer.cz].
  destruct (GridLayer._wrapX s), (GridLayer._wrapY s);
    now rewrite ?UtilFacts.wrapNum_idempotent.
Qed.

(** C6 (as the code has it). Constructing a LatLng fails exactly when the
    latitude or the longitude is NaN; every other pair of numbers, the
    infinite ones included, is accepted and stored as given. *)
Theorem newLatLng_fails_iff_NaN (lat lng : Num) (alt : option Num) :
  ((exists e, newLatLng lat lng alt = Throw e) <-> lat = NaN \/ lng = NaN)
  /\ (lat <> NaN -> lng <> NaN ->
      newLatLng lat lng alt = Return (mkLatLng lat lng alt)).
Proof.
  unfold newLatLng.
  destruct lat, lng; cbn; repeat split;
    try (intros [e h]; discriminate h);
    try (intros [h | h]; discriminate h);
    try (intros; now eexists);
    try (intros; congruence);
    try (now left); try (now right).
Qed.

(** C6, as stated, fails: an infinite latitude is accepted. *)
Lemma newLatLng_accepts_infinity :
  newLatLng PosInf (of_Z 0) None = Return (mkLatLng PosInf (of_Z 0) None)
  /\ isFinite PosInf = false.
Proof. split; reflexivity. Qed.

Lemma newLatLng_fails_iff_NaN_witness :
  newLatLng NegInf (of_Z 7) None = Return (mkLatLng NegInf (of_Z 7) None).
Proof.
  apply (proj2 (newLatLng_fails_iff_NaN NegInf (of_Z 7) None)); discriminate.
Defined.

(** A longitude wrapped into the Earth range. *)
Lemma Qwrap_Earth_range (q : Q) :
  (-180 <= Wrapping.Qwrap q (-180) 180 /\ Wrapping.Qwrap q (-180) 180 < 180)%Q.
Proof.
  unfold Wrapping.Qwrap.
  assert (~ (180 - -180 == 0)%Q) as nz by (intro h; lra).
  pose proof (JsNumFacts.Qrem_twice_frac (q - -180) nz) as [lo hi].
  set (b := Qrem (Qrem (q - -180) (180 - -180) + (180 - -180)) (180 - -180)) in *.
  assert (b == (180 - -180) * (b / (180 - -180)))%Q as e by now field.
  set (t := (b / (180 - -180))%Q) in *. clearbody t. clearbody b. lra.
Qed.

(** C10 (as the code has it). In a CRS built on Earth, [wrapLatLng] maps a
    finite longitude into [-180, 180), except that 180 itself is returned
    as it is; latitude and altitude are those of the input. *)
Theorem Earth_wrapLatLng_range
  (project : LatLng -> Point) (unproject : Point -> Completion LatLng)
  (bounds : Corners) (t : Crs.Transformation) (latlng : LatLng) (q : Q) :
  lng latlng = Fin q ->
  lat latlng <> NaN ->
  exists r : Q,
    Crs.wrapLatLng (Crs.Earth project unproject bounds t) latlng
    = Return (mkLatLng (lat latlng) (Fin r) (alt latlng))
    /\ ((q == 180)%Q -> Fin r = Fin q)
    /\ (~ (q == 180)%Q -> (-180 <= r)%Q /\ (r < 180)%Q).
Proof.
  intros hq hlat. unfold Crs.wrapLatLng, Crs.Earth, Crs.Earth_wrapLng.
  cbn [Crs.wrapLng Crs.wrapLat]. rewrite hq.
  destruct (Qeq_dec q 180) as [e | ne].
  - exists q. unfold Util.wrapNum. cbn [fst snd JsNum.eqb of_Z].
    assert (Qeqb q (inject_Z 180) = true) as -> by now apply JsNumFacts.Qeqb_eq.
    cbn [andb]. unfold newLatLng.
    destruct (lat latlng); try congruence; cbn; repeat split; try tauto.
  - exists (Qred (Wrapping.Qwrap q (-180) 180)).
    assert (JsNum.eqb (Fin q) (Fin (inject_Z 180)) && true = false) as ne'.
    { rewrite andb_true_r. now apply JsNumFacts.Qeqb_neq. }
    unfold of_Z.
    rewrite (@UtilFacts.wrapNum_fin q (inject_Z (-180)) (inject_Z 180) true)
      by (try exact ne'; intro h; unfold inject_Z in h; lra).
    unfold newLatLng, fin.
    destruct (lat latlng); try congruence; cbn [isNaN orb];
      (split; [reflexivity | split; [tauto | intros _]]);
      rewrite Qred_correct; apply Qwrap_Earth_range.
Qed.

(** C10, as stated, fails: an infinite longitude (which the constructor
    admits) is not mapped into the interval: [wrapLatLng] throws. *)
Lemma Earth_wrapLatLng_infinite_longitude :
  newLatLng (of_Z 0) PosInf None = Return (mkLatLng (of_Z 0) PosInf None)
  /\ Crs.wrapLatLng Samples.crs (mkLatLng (of_Z 0) PosInf None)
     = Throw (InvalidLatLng (of_Z 0) NaN).
Proof. split; reflexivity. Qed.

Lemma Earth_wrapLatLng_range_witness :
  exists r : Q,
    Crs.wrapLatLng Samples.crs (mkLatLng (of_Z 10) (of_Z 190) None)
    = Return (mkLatLng (of_Z 10) (Fin r) None)
    /\ ((190 == 180)%Q -> Fin r = Fin 190)
    /\ (~ (190 == 180)%Q -> (-180 <= r)%Q /\ (r < 180)%Q).
Proof.
  apply (@Earth_wrapLatLng_range _ _ _ _ (mkLatLng (of_Z 10) (of_Z 190) None) 190);
    [reflexivity | discriminate].
Defined.

Section Projection.

Context `{Host}.

(** A product depends on the value of a finite factor only. *)
Lemma mul_Qeq (p q : Q) (d : Num) : (p == q)%Q -> (Fin p * d = Fin q * d)%num.
Proof.
  intro same.
  assert ((p ?= 0) = (q ?= 0))%Q as sign by now rewrite same.
  destruct d as [| | | r]; cbn [JsNum.mul]; try reflexivity;
    [unfold inf_signed; now rewrite sign ..
    | apply JsNumFacts.fin_eq; now rewrite same].
Qed.

(** [Math.max(Math.min(max, lat), -max)] limits the latitude to the range
    from [-max] to [max]: it is the limited latitude, as far as its
    products tell. *)
Lemma clamped_latitude (lat d : Num) :
  (JsNum.max (JsNum.min Crs.MAX_LATITUDE lat) (neg Crs.MAX_LATITUDE) * d
   = Spec.clamp_latitude lat * d)%num.
Proof.
  unfold Spec.clamp_latitude, Crs.MAX_LATITUDE, JsNum.neg, fin.
  pose proof (Qred_correct (- (850511287798 # 10000000000))) as low.
  assert (0 < 850511287798 # 10000000000)%Q as positive by reflexivity.
  set (hi := 850511287798 # 10000000000) in *.
  set (lo := Qred (- hi)) in *.
  destruct lat as [| | | q]; cbn [JsNum.min JsNum.max JsNum.ltb];
    repeat match goal with
    | |- context [Qltb ?a ?b] =>
        destruct (Qltb a b) eqn:?; cbn [JsNum.min JsNum.max JsNum.ltb]
    end;
    try reflexivity; try solve [exfalso; Qbool]; apply mul_Qeq; Qbool.
Qed.

(** C7. The latitude is limited to +/- [MAX_LATITUDE] = 85.0511287798
    before the projection: [project] is the Mercator formula on the
    limited latitude.  So a latitude above [MAX_LATITUDE] projects to the
    very point that [MAX_LATITUDE] projects to, a latitude below
    [-MAX_LATITUDE] to the point of [-MAX_LATITUDE], and a latitude in
    between is projected as it is; the altitude plays no part. *)
Theorem SphericalMercator_project_clamps (lat lng : Num) (alt alt' : option Num) :
  Crs.SphericalMercator_project (mkLatLng lat lng alt)
  = Spec.mercator (Spec.clamp_latitude lat) lng
  /\ ((Crs.MAX_LATITUDE <? lat)%num = true ->
      Crs.SphericalMercator_project (mkLatLng lat lng alt)
      = Crs.SphericalMercator_project (mkLatLng Crs.MAX_LATITUDE lng alt'))
  /\ ((lat <? neg Crs.MAX_LATITUDE)%num = true ->
      Crs.SphericalMercator_project (mkLatLng lat lng alt)
      = Crs.SphericalMercator_project
          (mkLatLng (neg Crs.MAX_LATITUDE) lng alt'))
  /\ (((neg Crs.MAX_LATITUDE <=? lat) && (lat <=? Crs.MAX_LATITUDE))%num = true ->
      Crs.SphericalMercator_project (mkLatLng lat lng alt)
      = Spec.mercator lat lng).
Proof.
  assert (forall l a,
            Crs.SphericalMercator_project (mkLatLng l lng a)
            = Spec.mercator (Spec.clamp_latitude l) lng) as limited.
  { intros l a. unfold Crs.SphericalMercator_project, Spec.mercator.
    cbn [Geometry.lat Geometry.lng]. cbv zeta.
    now rewrite clamped_latitude. }
  split; [apply limited | rewrite !limited].
  unfold Spec.clamp_latitude, Crs.MAX_LATITUDE, JsNum.neg, fin.
  pose proof (Qred_correct (- (850511287798 # 10000000000))) as low.
  assert (0 < 850511287798 # 10000000000)%Q as positive by reflexivity.
  set (hi := 850511287798 # 10000000000) in *.
  set (lo := Qred (- hi)) in *.
  split; [| split].
  - intro above. rewrite above. cbn [JsNum.ltb].
    repeat match goal with
    | |- context [Qltb ?a ?b] => destruct (Qltb a b) eqn:?
    end;
    try reflexivity; exfalso; Qbool.
  - intro under. rewrite under.
    destruct lat as [| | | q]; try discriminate under;
      cbn [JsNum.ltb] in *;
      repeat match goal with
      | |- context [Qltb ?a ?b] => destruct (Qltb a b) eqn:?
      end;
      try reflexivity; exfalso; Qbool.
  - intro inside. apply andb_true_iff in inside as [lower upper].
    destruct lat as [| | | q]; try discriminate lower; try discriminate upper.
    cbn [JsNum.ltb JsNum.leb] in *.
    repeat match goal with
    | |- context [Qltb ?a ?b] => destruct (Qltb a b) eqn:?
    end;
    try reflexivity; exfalso; Qbool.
Qed.

End Projection.

(** The scenario of C7, and its mirror image: the poles and the limit
    latitudes, at longitude 0; and a latitude within the limits. *)
Lemma SphericalMercator_project_clamps_witness :
  @Crs.SphericalMercator_project Samples.host (mkLatLng (of_Z 90) (of_Z 0) None)
  = @Crs.SphericalMercator_project Samples.host
      (mkLatLng Crs.MAX_LATITUDE (of_Z 0) None)
  /\ @Crs.SphericalMercator_project Samples.host
       (mkLatLng (of_Z (-90)) (of_Z 0) None)
     = @Crs.SphericalMercator_project Samples.host
         (mkLatLng (neg Crs.MAX_LATITUDE) (of_Z 0) None)
  /\ @Crs.SphericalMercator_project Samples.host
       (mkLatLng (of_Z 45) (of_Z 0) None)
     = @Spec.mercator Samples.host (of_Z 45) (of_Z 0).
Proof.
  split; [| split].
  - apply (proj1 (proj2 (@SphericalMercator_project_clamps Samples.host
                           (of_Z 90) (of_Z 0) None None))).
    reflexivity.
  - apply (proj1 (proj2 (proj2 (@SphericalMercator_project_clamps Samples.host
                                  (of_Z (-90)) (of_Z 0) None None)))).
    reflexivity.
  - apply (proj2 (proj2 (proj2 (@SphericalMercator_project_clamps Samples.host
                                  (of_Z 45) (of_Z 0) None None)))).
    reflexivity.
Defined.

(* ================================================================== *)
(** * Map core: the view queries and the zoom limits                    *)
(* ================================================================== *)

Section MapProperties.

Context `{Host}.




(** C9 (as the code has it). On a map whose view was never set,
    [getCenter] throws the "Set map center and zoom first." error and
    leaves the map as it is, while [getZoom] throws nothing: it returns the
    stored zoom, set or not. *)
Theorem view_queries_before_load (m : MapCore.Map) :
  MapCore._loaded m = false ->
  MapCore.getCenter m = (m, Throw SetCenterAndZoomFirst)
  /\ MapCore.getZoom m = (m, Return (MapCore._zoom m)).
Proof.
  intro unloaded. split; [| reflexivity].
  unfold MapCore.getCenter, MapCore._checkIfLoaded, bind, get, throw.
  now rewrite unloaded.
Qed.

End MapProperties.



(** C9, as stated, fails: on a map that was never given a view, [getZoom]
    returns instead of throwing: [undefined] on a map created without
    options, and the zoom of the options on a map created with one. *)
Lemma getZoom_before_load_returns :
  (MapCore._loaded Samples.fresh_map = false
   /\ MapCore.getZoom Samples.fresh_map = (Samples.fresh_map, Return None))
  /\ (MapCore._loaded Samples.zoom_only_map = false
      /\ MapCore.getZoom Samples.zoom_only_map
         = (Samples.zoom_only_map, Return (Some (of_Z 3)))).
Proof. repeat split; reflexivity. Qed.

Lemma view_queries_before_load_witness :
  @MapCore.getCenter Samples.host Samples.fresh_map
  = (Samples.fresh_map, Throw SetCenterAndZoomFirst)
  /\ MapCore.getZoom Samples.fresh_map
     = (Samples.fresh_map, Return (MapCore._zoom Samples.fresh_map)).
Proof.
  apply (@view_queries_before_load Samples.host Samples.fresh_map); reflexivity.
Defined.

(* ================================================================== *)
(** * The grid layer: the tile range                                    *)
(* ================================================================== *)

Lemma whole_floor (a : Num) : whole (JsNum.floor a).
Proof. destruct a; cbn; auto. now eexists. Qed.

Lemma whole_ceil_pred (a : Num) : whole (JsNum.ceil a - of_Z 1)%num.
Proof.
  destruct a as [| | | q]; cbn; auto.
  exists (Qceiling q - 1)%Z.
  unfold Qminus, Qplus, Qred, inject_Z, Qopp. cbn.
  rewrite Z.mul_1_r. replace (Qceiling q + -1)%Z with (Qceiling q - 1)%Z by lia.
  destruct (Z.ggcd (Qceiling q - 1) 1) as [g [a b]] eqn:e.
  pose proof (Z.ggcd_gcd (Qceiling q - 1) 1) as hg.
  pose proof (Z.ggcd_correct_divisors (Qceiling q - 1) 1) as hd.
  rewrite e in hg, hd. cbn in hg, hd. rewrite Z.gcd_1_r in hg. subst g.
  destruct hd as [ha hb].
  assert (b = 1%Z) as -> by lia. cbn.
  f_equal. lia.
Qed.

(** On ordered whole numbers, [Math.min] and [Math.max] pick the
    arguments themselves. *)
Lemma min_max_ordered (a b : Num) :
  whole a -> whole b -> (a <=? b)%num = true ->
  JsNum.min b a = a /\ JsNum.max b a = b.
Proof.
  destruct a as [| | | p], b as [| | | q]; cbn;
    intros wa wb le; try discriminate; auto.
  destruct wa as [k ->], wb as [l ->].
  destruct (Qltb (inject_Z k) (inject_Z l)) eqn:lt,
           (Qltb (inject_Z l) (inject_Z k)) eqn:gt; auto;
    Qbool; Qints; (assert (k = l) as -> by lia); auto.
Qed.

(** The tile range in all cases: the Bounds constructor orders, on each
    axis, the two values computed from the pixel bounds. *)
Lemma pxBoundsToTileRange_corners (s : GridLayer.Layer) (b : Corners) :
  let range := Spec.pixelBoundsToTileRange b (GridLayer.getTileSize s) in
  GridLayer._pxBoundsToTileRange s b
  = mkCorners
      (mkPoint (JsNum.min (x (max range)) (x (min range)))
               (JsNum.min (y (max range)) (y (min range))))
      (mkPoint (JsNum.max (x (max range)) (x (min range)))
               (JsNum.max (y (max range)) (y (min range)))).
Proof. reflexivity. Qed.


(** The order holds on an axis where the pixel bounds have a positive
    extent and the tile size is positive. *)
Lemma tile_range_ordered (lo hi size : Q) :
  (lo < hi)%Q -> (0 < size)%Q ->
  (JsNum.floor (Fin lo / Fin size) <=? JsNum.ceil (Fin hi / Fin size) - of_Z 1)%num
  = true.
Proof.
  intros extent positive. cbn [JsNum.div].
  assert (Qeqb size 0 = false) as -> by Qbool.
  cbn [JsNum.floor JsNum.ceil JsNum.sub JsNum.leb of_Z fin].
  Qbool. rewrite !Qred_correct.
  unfold Qminus. rewrite <- (inject_Z_opp 1), <- inject_Z_plus. rewrite <- Zle_Qle.
  assert (lo / size < hi / size)%Q as ratio.
  { apply Qmult_lt_compat_r; [now apply Qinv_lt_0_compat | exact extent]. }
  pose proof (Qfloor_le (lo / size)) as f. pose proof (Qle_ceiling (hi / size)) as c.
  assert (inject_Z (Qfloor (lo / size)) < inject_Z (Qceiling (hi / size)))%Q as lt
      by lra.
  rewrite <- Zlt_Qlt in lt. lia.
Qed.



(* ================================================================== *)
(** * The grid layer: tile keys                                         *)
(* ================================================================== *)

Module TextFacts.

Import Text.

(** The digits of a decimal numeral read back as its value. *)
Lemma digits_value_acc (d : Decimal.uint) (acc : positive) :
  digits_value (NilEmpty.string_of_uint d) (Z.pos acc)
  = Some (Z.pos (Pos.of_uint_acc d acc)).
Proof.
  revert acc. induction d; intro acc;
    cbn [NilEmpty.string_of_uint digits_value Pos.of_uint_acc];
    try reflexivity;
    match goal with
    | |- context [digit_of ?c] =>
        let v := eval vm_compute in (digit_of c) in
        change (digit_of c) with v; cbv iota
    end;
    match goal with
    | |- digits_value _ ?n = Some (Z.pos (Pos.of_uint_acc _ ?p)) =>
        replace n with (Z.pos p) by lia
    end;
    apply IHd.
Qed.

Lemma digits_value_0 (d : Decimal.uint) :
  digits_value (NilEmpty.string_of_uint d) 0 = Some (Z.of_N (Pos.of_uint d)).
Proof.
  induction d; cbn [NilEmpty.string_of_uint digits_value Pos.of_uint];
    try reflexivity;
    match goal with
    | |- context [digit_of ?c] =>
        let v := eval vm_compute in (digit_of c) in
        change (digit_of c) with v; cbv iota
    end;
    try exact IHd;
    match goal with
    | |- digits_value _ ?n = _ =>
        let v := eval vm_compute in n in change n with v
    end;
    rewrite digits_value_acc; reflexivity.
Qed.

Lemma digits_value_positive (p : positive) :
  digits_value (NilEmpty.string_of_uint (Pos.to_uint p)) 0 = Some (Z.pos p).
Proof.
  rewrite digits_value_0, DecimalPos.Unsigned.of_to. reflexivity.
Qed.

(** The numeral of a positive number is not empty and starts with a
    digit. *)
Lemma numeral_head (p : positive) :
  exists c s, NilEmpty.string_of_uint (Pos.to_uint p) = String c s
              /\ digit_of c <> None.
Proof.
  pose proof (DecimalPos.Unsigned.to_uint_nonnil p) as nonnil.
  destruct (Pos.to_uint p); try congruence;
    cbn [NilEmpty.string_of_uint]; do 2 eexists; (split; [reflexivity |]);
    vm_compute; discriminate.
Qed.

Lemma signed_integer_digits (c : ascii) (s : string) :
  digit_of c <> None ->
  signed_integer (String c s) = digits_value (String c s) 0.
Proof.
  intro digit.
  destruct c as [[|] [|] [|] [|] [|] [|] [|] [|]];
    try reflexivity; exfalso; apply digit; reflexivity.
Qed.

Lemma numeral_nonnil (p : positive) :
  NilZero.string_of_uint (Pos.to_uint p)
  = NilEmpty.string_of_uint (Pos.to_uint p).
Proof.
  pose proof (DecimalPos.Unsigned.to_uint_nonnil p) as nonnil.
  destruct (Pos.to_uint p); [congruence | reflexivity ..].
Qed.

(** Reading back a printed integer. *)
Lemma signed_integer_to_string (n : Z) :
  signed_integer (integer_to_string n) = Some n.
Proof.
  unfold integer_to_string. destruct n as [| p | p]; [reflexivity | |];
    cbn [Z.to_int NilZero.string_of_int]; rewrite numeral_nonnil;
    destruct (numeral_head p) as (c & s & e & digit).
  - rewrite e, (@signed_integer_digits c s digit), <- e.
    apply digits_value_positive.
  - cbn [signed_integer]. unfold unsigned_integer. rewrite e, <- e.
    rewrite digits_value_positive. reflexivity.
Qed.

Lemma numeral_free_of_colon (d : Decimal.uint) :
  free_of ":" (NilEmpty.string_of_uint d).
Proof. induction d; cbn; auto. Qed.

Lemma integer_to_string_free_of_colon (n : Z) :
  free_of ":" (integer_to_string n).
Proof.
  unfold integer_to_string.
  destruct n as [| p | p]; cbn [Z.to_int NilZero.string_of_int].
  - cbn. auto.
  - rewrite numeral_nonnil. apply numeral_free_of_colon.
  - rewrite numeral_nonnil. split; [reflexivity | apply numeral_free_of_colon].
Qed.

Lemma split_single (sep : ascii) (s : string) :
  free_of sep s -> split sep s = [s].
Proof.
  induction s as [| c s IH]; [reflexivity |].
  intros [ne free]. cbn [split]. rewrite ne, (IH free). reflexivity.
Qed.

Lemma split_append (sep : ascii) (s rest : string) :
  free_of sep s ->
  split sep (s ++ String sep rest) = s :: split sep rest.
Proof.
  induction s as [| c s IH].
  - intros _. cbn. now rewrite Ascii.eqb_refl.
  - intros [ne free]. cbn [append split]. rewrite ne, (IH free). reflexivity.
Qed.

End TextFacts.

Section KeyProperties.

Context `{Host}.

Lemma string_to_number_integer (n : Z) :
  string_to_number (Text.integer_to_string n) = of_Z n.
Proof.
  unfold string_to_number. now rewrite TextFacts.signed_integer_to_string.
Qed.

Lemma key_round_trip (x y z : Z) :
  GridLayer._keyToTileCoords
    (GridLayer._tileCoordsToKey (GridLayer.mkTileCoords x y z))
  = GridLayer.to_Coords (GridLayer.mkTileCoords x y z).
Proof.
  unfold GridLayer._keyToTileCoords, GridLayer._tileCoordsToKey,
    GridLayer.to_Coords.
  cbn [GridLayer.tx GridLayer.ty GridLayer.tz].
  repeat match goal with
  | |- context [(":" ++ ?s)%string] =>
      change (":" ++ s)%string with (String ":" s)
  end.
  rewrite !TextFacts.split_append, TextFacts.split_single
    by apply TextFacts.integer_to_string_free_of_colon.
  unfold element_to_number. cbn [nth_error].
  now rewrite !string_to_number_integer.
Qed.

(** Hence two keys are equal only for equal coordinates. *)
Lemma tileCoordsToKey_injective (c c' : GridLayer.TileCoords) :
  GridLayer._tileCoordsToKey c = GridLayer._tileCoordsToKey c' -> c = c'.
Proof.
  intro same. destruct c as [x y z], c' as [x' y' z'].
  pose proof (key_round_trip x y z) as e.
  rewrite same, key_round_trip in e.
  unfold GridLayer.to_Coords, of_Z, inject_Z in e.
  cbn [GridLayer.tx GridLayer.ty GridLayer.tz] in e. congruence.
Qed.

(** C4. Decoding the key of integer tile coordinates gives back these
    integers, negative ones included; the encoding is therefore one to
    one. *)
Theorem keyToTileCoords_tileCoordsToKey (x y z : Z) :
  GridLayer._keyToTileCoords
    (GridLayer._tileCoordsToKey (GridLayer.mkTileCoords x y z))
  = GridLayer.to_Coords (GridLayer.mkTileCoords x y z)
  /\ (forall c' : GridLayer.TileCoords,
        GridLayer._tileCoordsToKey (GridLayer.mkTileCoords x y z)
        = GridLayer._tileCoordsToKey c' ->
        GridLayer.mkTileCoords x y z = c').
Proof.
  split; [apply key_round_trip |].
  intros c' same. now apply tileCoordsToKey_injective.
Qed.

End KeyProperties.

(* ================================================================== *)
(** * The grid layer: the reconciliation pass                           *)
(* ================================================================== *)

Lemma set_map_same (s : GridLayer.Layer) :
  GridLayer.set_map (GridLayer._map s) s = s.
Proof. now destruct s. Qed.

Lemma set_map_set_map (m m' : option MapCore.Map) (s : GridLayer.Layer) :
  GridLayer.set_map m (GridLayer.set_map m' s) = GridLayer.set_map m s.
Proof. reflexivity. Qed.

Lemma map_only_ret {A} (a : A) : map_only (ret a).
Proof. intro s. cbn. now rewrite set_map_same. Qed.

Lemma map_only_get : map_only get.
Proof. intro s. cbn. now rewrite set_map_same. Qed.

Lemma map_only_on_map {A} (c : Js MapCore.Map A) : map_only (GridLayer.on_map c).
Proof.
  intro s. unfold GridLayer.on_map.
  destruct (GridLayer._map s) eqn:e.
  - destruct (c m). reflexivity.
  - cbn. now rewrite set_map_same.
Qed.

Lemma map_only_bind {A B} (c : Js GridLayer.Layer A)
  (k : A -> Js GridLayer.Layer B) :
  map_only c -> (forall a, map_only (k a)) -> map_only (bind c k).
Proof.
  intros hc hk s. unfold bind. specialize (hc s).
  destruct (c s) as [s' [a | e]]; cbn [fst] in *.
  - rewrite (hk a s') at 1. rewrite hc at 2. reflexivity.
  - exact hc.
Qed.

Section UpdateProperties.

Context `{Host}.

Variable _setView : LatLng -> Num -> Js GridLayer.Layer unit.

Lemma map_only_getTiledPixelBounds (center : LatLng) :
  map_only (GridLayer._getTiledPixelBounds center).
Proof.
  unfold GridLayer._getTiledPixelBounds.
  repeat (apply map_only_bind; [| intro]);
    auto using map_only_get, map_only_on_map, map_only_ret.
Qed.

(** C2. When the tile range computed from the viewport pixel bounds has a
    bound that is not finite, [_update] throws the "infinite number of
    tiles" error; at that point the layer is as the pass found it: its
    tiles (with their current marks), its loading flag and the events it
    fired are untouched, only the map may have cached its size. *)
Theorem update_aborts_on_infinite_range
  (center : option LatLng) (s s1 s2 : GridLayer.Layer) (c : LatLng)
  (tileZoom : Num) (pixelBounds : Corners) :
  GridLayer._map s <> None ->
  GridLayer._tileZoom s = Some tileZoom ->
  match center with
  | None => GridLayer.on_map MapCore.getCenter s
  | Some c => ret c s
  end = (s1, Return c) ->
  GridLayer._getTiledPixelBounds c s1 = (s2, Return pixelBounds) ->
  all_finite (GridLayer._pxBoundsToTileRange s pixelBounds) = false ->
  GridLayer._update _setView center s = (s2, Throw InfiniteTiles)
  /\ s2 = GridLayer.set_map (GridLayer._map s2) s
  /\ GridLayer._tiles s2 = GridLayer._tiles s
  /\ GridLayer.fired s2 = GridLayer.fired s
  /\ GridLayer._loading s2 = GridLayer._loading s.
Proof.
  intros attached zoomed centred bounded infinite.
  assert (s2 = GridLayer.set_map (GridLayer._map s2) s) as frame.
  { pose proof (map_only_getTiledPixelBounds c s1) as f2.
    rewrite bounded in f2. cbn [fst] in f2.
    assert (s1 = GridLayer.set_map (GridLayer._map s1) s) as f1.
    { destruct center.
      - pose proof (map_only_ret l s) as f. now rewrite centred in f.
      - pose proof (map_only_on_map MapCore.getCenter s) as f.
        now rewrite centred in f. }
    rewrite f1 in f2. exact f2. }
  split; [| split; [exact frame | rewrite frame; now repeat split]].
  unfold GridLayer._update. unfold bind at 1. unfold get at 1.
  destruct (GridLayer._map s) as [m |] eqn:em; [| congruence].
  unfold bind at 1.
  assert (GridLayer.on_map MapCore.getZoom s = (s, Return (MapCore._zoom m))) as ->.
  { unfold GridLayer.on_map. rewrite em. cbn. now rewrite <- em, set_map_same. }
  unfold bind at 1.
  assert (match center with
          | Some c0 => ret c0
          | None => GridLayer.on_map MapCore.getCenter
          end s = (s1, Return c)) as ->
    by (destruct center; exact centred).
  rewrite zoomed. unfold bind at 1. rewrite bounded.
  unfold all_finite in infinite. rewrite infinite. reflexivity.
Qed.

End UpdateProperties.

Lemma update_aborts_on_infinite_range_witness :
  let s := Samples.corrupted_layer in
  let c := mkLatLng (of_Z 0) (of_Z 0) None in
  let s2 := fst (@GridLayer._getTiledPixelBounds Samples.host c s) in
  @GridLayer._update Samples.host Samples.no_reset None s
  = (s2, Throw InfiniteTiles)
  /\ s2 = GridLayer.set_map (GridLayer._map s2) s
  /\ GridLayer._tiles s2 = GridLayer._tiles s
  /\ GridLayer.fired s2 = GridLayer.fired s
  /\ GridLayer._loading s2 = GridLayer._loading s.
Proof.
  apply (@update_aborts_on_infinite_range Samples.host Samples.no_reset None
           Samples.corrupted_layer Samples.corrupted_layer _
           (mkLatLng (of_Z 0) (of_Z 0) None) (of_Z 2)
           (mkCorners (mkPoint NaN NaN) (mkPoint NaN NaN)));
    [discriminate | reflexivity | reflexivity | reflexivity | reflexivity].
Defined.

(* ================================================================== *)
(** * The grid layer: the prune pass                                    *)
(* ================================================================== *)

Module StoreFacts.

Import GridLayer Marks.

Lemma lookup_In (ts : Tiles) (key : string) (t : Tile) :
  NoDup (keys ts) -> In (key, t) ts -> lookup key ts = Some t.
Proof.
  induction ts as [| [k u] ts IH]; cbn; [tauto |].
  intros nodup [e | i]; inversion nodup as [| ? ? fresh nodup']; subst.
  - inversion e; subst. now rewrite String.eqb_refl.
  - destruct (String.eqb_spec k key) as [-> | ne]; [| now apply IH].
    exfalso. apply fresh. change key with (fst (key, t)). now apply in_map.
Qed.

Lemma lookup_Some_In (ts : Tiles) (key : string) (t : Tile) :
  lookup key ts = Some t -> In (key, t) ts.
Proof.
  induction ts as [| [k u] ts IH]; cbn; [discriminate |].
  destruct (String.eqb_spec k key) as [-> | ne].
  - intros [= ->]. now left.
  - intro h. right. now apply IH.
Qed.

Lemma lookup_None (ts : Tiles) (key : string) :
  ~ In key (keys ts) -> lookup key ts = None.
Proof.
  induction ts as [| [k u] ts IH]; cbn; [reflexivity |].
  intro fresh. destruct (String.eqb_spec k key) as [-> | ne]; [tauto |].
  apply IH. tauto.
Qed.

Lemma lookup_key (ts : Tiles) (key : string) :
  In key (keys ts) -> lookup key ts <> None.
Proof.
  induction ts as [| [k u] ts IH]; cbn; [tauto |].
  destruct (String.eqb_spec k key) as [-> | ne]; [discriminate |].
  intros [e | i]; [congruence | now apply IH].
Qed.

(** ** Stores that differ in the retain marks only *)

Lemma keys_retag (mark : string -> Tile -> bool) (ts : Tiles) :
  keys (retag mark ts) = keys ts.
Proof. unfold keys, retag. rewrite map_map. reflexivity. Qed.

Lemma lookup_retag (mark : string -> Tile -> bool) (ts : Tiles) (key : string) :
  lookup key (retag mark ts)
  = option_map (fun t => set_retain (mark key t) t) (lookup key ts).
Proof.
  induction ts as [| [k u] ts IH]; cbn; [reflexivity |].
  destruct (String.eqb_spec k key) as [-> | ne]; [reflexivity | exact IH].
Qed.

Lemma retag_ext (mark mark' : string -> Tile -> bool) (ts : Tiles) :
  (forall k t, In (k, t) ts -> mark k t = mark' k t) ->
  retag mark ts = retag mark' ts.
Proof.
  intro same. apply map_ext_in. intros [k t] i. cbn. now rewrite (same k t i).
Qed.

Lemma retag_retain (ts : Tiles) : retag (fun _ t => retain t) ts = ts.
Proof.
  unfold retag. rewrite <- (map_id ts) at 2. apply map_ext.
  intros [k [c cu l a r]]. reflexivity.
Qed.

Lemma set_retain_set_retain (a b : bool) (t : Tile) :
  set_retain a (set_retain b t) = set_retain a t.
Proof. reflexivity. Qed.

(** Writing the retain mark of one tile. *)
Lemma update_retag (mark : string -> Tile -> bool) (value : Tile -> bool)
  (ts : Tiles) (key : string) :
  NoDup (keys ts) ->
  (forall b t, value (set_retain b t) = value t) ->
  update key (fun t => set_retain (value t) t) (retag mark ts)
  = retag (fun k t => if String.eqb k key then value t else mark k t) ts.
Proof.
  intros nodup blind.
  induction ts as [| [k u] ts IH]; cbn; [reflexivity |].
  inversion nodup as [| ? ? fresh nodup']; subst.
  destruct (String.eqb_spec k key) as [-> | ne].
  - rewrite blind, set_retain_set_retain. f_equal.
    apply (@retag_ext mark
             (fun k t => if String.eqb k key then value t else mark k t) ts).
    intros k t i.
    destruct (String.eqb_spec k key) as [-> | _]; [| reflexivity].
    exfalso. apply fresh. change key with (fst (key, t)). now apply in_map.
  - f_equal. now apply IH.
Qed.

End StoreFacts.

Module RetainFacts.

Import GridLayer Retention Marks StoreFacts.

Lemma mem_app (key : string) (l l' : list string) :
  mem key (l ++ l')%list = mem key l || mem key l'.
Proof. apply existsb_app. Qed.

Section Marking.

Variable s0 : Layer.
Variable ts : Tiles.
Hypothesis nodup : NoDup (keys ts).

Local Abbreviation holding := (Marks.holding s0 ts).
Local Abbreviation child_marks := (Marks.child_marks ts).

Lemma holding_ext (mark mark' : string -> Tile -> bool) :
  (forall k t, In (k, t) ts -> mark k t = mark' k t) ->
  holding mark = holding mark'.
Proof. intro same. unfold Marks.holding. now rewrite (retag_ext mark mark' ts same). Qed.

Lemma mark_retained_holding (mark : string -> Tile -> bool) (key : string) :
  mark_retained key (holding mark)
  = holding (fun k t => mark k t || mem k [key]).
Proof.
  unfold mark_retained, Marks.holding. cbn [_tiles set_tiles].
  pose proof (@update_retag mark (fun _ => true) ts key nodup
                (fun _ _ => eq_refl)) as e.
  cbv beta in e.
  replace (update key (set_retain true) (retag mark ts))
    with (retag (fun k t => if String.eqb k key then true else mark k t) ts)
    by (symmetry; exact e).
  unfold set_tiles. cbn. f_equal. apply retag_ext. intros k t _.
  cbn. destruct (String.eqb k key), (mark k t); reflexivity.
Qed.

Lemma lookup_holding (mark : string -> Tile -> bool) (key : string) :
  lookup key (_tiles (holding mark))
  = option_map (fun t => set_retain (mark key t) t) (lookup key ts).
Proof. apply lookup_retag. Qed.

(** [_retainParent] marks the keys of [parent_marks]. *)
Lemma retainParent_rec_marks (steps : nat) :
  forall (x y z minZoom : Z) (mark : string -> Tile -> bool),
    steps = Z.to_nat (z - minZoom) -> (1 <= z - minZoom)%Z ->
    retainParent_rec steps x y z minZoom (holding mark)
    = (holding (fun k t =>
                  mark k t
                  || mem k (fst (parent_marks ts steps (mkTileCoords x y z)))),
       snd (parent_marks ts steps (mkTileCoords x y z))).
Proof.
  induction steps as [| steps IH]; intros x y z minZoom mark fuel far; [lia |].
  cbn [retainParent_rec parent_marks].
  change (parent (mkTileCoords x y z))
    with (mkTileCoords (x / 2) (y / 2) (z - 1)).
  set (key := _tileCoordsToKey (mkTileCoords (x / 2) (y / 2) (z - 1))).
  rewrite lookup_holding.
  assert (forall mark',
    (if (z - 1 >? minZoom)%Z
     then retainParent_rec steps (x / 2) (y / 2) (z - 1) minZoom (holding mark')
     else (holding mark', false))
    = (holding (fun k t =>
                  mark' k t
                  || mem k (fst (parent_marks ts steps
                                   (mkTileCoords (x / 2) (y / 2) (z - 1))))),
       snd (parent_marks ts steps (mkTileCoords (x / 2) (y / 2) (z - 1)))))
    as rest.
  { intro mark'. destruct (Z.gtb_spec (z - 1) minZoom) as [gt | le].
    - apply IH; lia.
    - assert (steps = O) as -> by lia. cbn. f_equal. apply holding_ext.
      intros. now rewrite orb_false_r. }
  assert (forall marked (mark' : string -> Tile -> bool),
    (if (z - 1 >? minZoom)%Z
     then retainParent_rec steps (x / 2) (y / 2) (z - 1) minZoom
            (holding (fun k t => mark' k t || mem k marked))
     else (holding (fun k t => mark' k t || mem k marked), false))
    = (let (marked', found) :=
         parent_marks ts steps (mkTileCoords (x / 2) (y / 2) (z - 1)) in
       (holding (fun k t => mark' k t || mem k (marked ++ marked')%list),
        found))) as rest'.
  { intros marked mark'. rewrite rest.
    destruct (parent_marks ts steps _) as [marked' found']. cbn [fst snd].
    f_equal. apply holding_ext. intros k u _.
    now rewrite mem_app, orb_assoc. }
  destruct (lookup key ts) as [t |] eqn:found; cbn [option_map].
  - change (active (set_retain (mark key t) t)) with (active t).
    change (is_loaded (set_retain (mark key t) t)) with (is_loaded t).
    destruct (active t).
    + now rewrite mark_retained_holding.
    + destruct (is_loaded t).
      * rewrite mark_retained_holding, rest'.
        destruct (parent_marks ts steps _) as [marked' found'].
        reflexivity.
      * rewrite rest.
        destruct (parent_marks ts steps _) as [marked' found'].
        reflexivity.
  - rewrite rest. reflexivity.
Qed.

Lemma children_marks_S (levels : nat) (c : TileCoords) :
  children_marks ts (S levels) c = flat_map (child_marks levels) (children c).
Proof. reflexivity. Qed.

(** [_retainChildren] marks the keys of [children_marks]. *)
Lemma retainChildren_rec_marks (steps : nat) :
  forall (x y z maxZoom : Z) (mark : string -> Tile -> bool),
    steps = Z.to_nat (maxZoom - z) -> (1 <= maxZoom - z)%Z ->
    retainChildren_rec steps x y z maxZoom (holding mark)
    = holding (fun k t =>
                 mark k t
                 || mem k (children_marks ts steps (mkTileCoords x y z))).
Proof.
  induction steps as [| steps IH]; intros x y z maxZoom mark fuel far; [lia |].
  assert (forall i j (mark' : string -> Tile -> bool),
    retainChild
      (fun i j s => retainChildren_rec steps i j (z + 1) maxZoom s)
      i j z maxZoom (holding mark')
    = holding (fun k t =>
                 mark' k t
                 || mem k (child_marks steps (mkTileCoords i j (z + 1)))))
    as child.
  { intros i j mark'. unfold retainChild, Marks.child_marks.
    set (key := _tileCoordsToKey (mkTileCoords i j (z + 1))).
    assert (forall marked (mark'' : string -> Tile -> bool),
      (if (z + 1 <? maxZoom)%Z
       then retainChildren_rec steps i j (z + 1) maxZoom
              (holding (fun k t => mark'' k t || mem k marked))
       else holding (fun k t => mark'' k t || mem k marked))
      = holding (fun k t =>
                   mark'' k t
                   || mem k (marked
                             ++ children_marks ts steps
                                  (mkTileCoords i j (z + 1)))%list)) as rest.
    { intros marked mark''. destruct (Z.ltb_spec (z + 1) maxZoom) as [lt | ge].
      - rewrite IH by lia. apply holding_ext. intros k u _.
        now rewrite mem_app, orb_assoc.
      - assert (steps = O) as -> by lia. apply holding_ext. intros k u _.
        cbn [children_marks]. now rewrite app_nil_r. }
    assert (forall mark'' : string -> Tile -> bool,
      (if (z + 1 <? maxZoom)%Z
       then retainChildren_rec steps i j (z + 1) maxZoom (holding mark'')
       else holding mark'')
      = holding (fun k t =>
                   mark'' k t
                   || mem k (children_marks ts steps
                               (mkTileCoords i j (z + 1))))) as rest0.
    { intro mark''.
      rewrite (holding_ext mark'' (fun k t => mark'' k t || mem k [])%list)
        by (intros; now rewrite orb_false_r).
      now rewrite rest. }
    rewrite lookup_holding.
    destruct (lookup key ts) as [t |] eqn:found; cbn [option_map].
    - change (active (set_retain (mark' key t) t)) with (active t).
      change (is_loaded (set_retain (mark' key t) t)) with (is_loaded t).
      destruct (active t); [now rewrite mark_retained_holding |].
      destruct (is_loaded t).
      + now rewrite mark_retained_holding, rest.
      + now rewrite rest0.
    - now rewrite rest0. }
  cbn [retainChildren_rec fold_left]. rewrite !child.
  rewrite children_marks_S. unfold children. cbn [flat_map tx ty tz].
  apply holding_ext. intros k u _.
  rewrite !mem_app. cbn [mem existsb]. now rewrite orb_false_r, !orb_assoc.
Qed.

End Marking.

End RetainFacts.

Module RuleFacts.

Import GridLayer Retention Marks StoreFacts RetainFacts.

Lemma existsb_flat_map {A B} (p : B -> bool) (f : A -> list B) (l : list A) :
  existsb p (flat_map f l) = existsb (fun a => existsb p (f a)) l.
Proof.
  induction l as [| a l IH]; cbn; [reflexivity |].
  now rewrite existsb_app, IH.
Qed.

Lemma existsb_andb_r {A} (p : A -> bool) (b : bool) (l : list A) :
  existsb (fun a => p a && b) l = existsb p l && b.
Proof.
  induction l as [| a l IH]; cbn; [reflexivity |].
  rewrite IH. destruct (p a), b, (existsb p l); reflexivity.
Qed.

Lemma existsb_ext {A} (p q : A -> bool) (l : list A) :
  (forall a, In a l -> p a = q a) -> existsb p l = existsb q l.
Proof.
  induction l as [| a l IH]; cbn; [reflexivity |].
  intro same. rewrite (same a), IH; auto.
Qed.

Section Rules.

Variable ts : Tiles.

Lemma tile_is_key (p : Tile -> bool) (key key' : string) :
  String.eqb key key' = true -> tile_is p ts key = tile_is p ts key'.
Proof. intro e. apply String.eqb_eq in e. now subst. Qed.

(** The keys marked going up are those of the ancestor rule. *)
Lemma parent_marks_rule (key : string) (levels : nat) :
  forall c : TileCoords,
    mem key (fst (parent_marks ts levels c))
    = has_key key (until_active ts (ancestors levels c))
      && tile_is usable ts key.
Proof.
  induction levels as [| levels IH]; intro c; [reflexivity |].
  cbn [parent_marks ancestors until_active].
  unfold active_at at 1. unfold tile_is at 1.
  specialize (IH (parent c)).
  set (key0 := _tileCoordsToKey (parent c)) in *.
  destruct (lookup key0 ts) as [t |] eqn:found.
  - destruct (active t) eqn:act.
    + cbn [fst mem existsb has_key]. fold key0. rewrite !orb_false_r.
      destruct (String.eqb key key0) eqn:e; [| reflexivity].
      rewrite (tile_is_key usable _ _ e). unfold tile_is. rewrite found.
      unfold usable. now rewrite act.
    + destruct (parent_marks ts levels (parent c)) as [marked found'].
      cbn [fst] in *. rewrite mem_app, IH.
      cbn [has_key existsb]. fold key0.
      fold (has_key key (until_active ts (ancestors levels (parent c)))).
      destruct (String.eqb key key0) eqn:e.
      * rewrite (tile_is_key usable _ _ e). unfold tile_is. rewrite found.
        unfold usable. rewrite act.
        destruct (is_loaded t); cbn [mem existsb]; rewrite ?e; cbn;
          now rewrite ?andb_false_r.
      * destruct (is_loaded t); cbn [mem existsb]; rewrite ?e; reflexivity.
  - rewrite IH. cbn [has_key existsb]. fold key0.
    fold (has_key key (until_active ts (ancestors levels (parent c)))).
    destruct (String.eqb key key0) eqn:e; [| reflexivity].
    rewrite (tile_is_key usable _ _ e). unfold tile_is. rewrite found.
    now rewrite !andb_false_r.
Qed.

(** [_retainParent] returns true when one of the ancestors is active. *)
Lemma parent_marks_found (levels : nat) :
  forall c : TileCoords,
    snd (parent_marks ts levels c) = existsb (active_at ts) (ancestors levels c).
Proof.
  induction levels as [| levels IH]; intro c; [reflexivity |].
  cbn [parent_marks ancestors existsb].
  unfold active_at at 1. unfold tile_is at 1.
  specialize (IH (parent c)).
  destruct (lookup (_tileCoordsToKey (parent c)) ts) as [t |].
  - destruct (active t); [reflexivity |].
    destruct (parent_marks ts levels (parent c)). exact IH.
  - exact IH.
Qed.

(** The keys marked going down are those of the descendant rule. *)
Lemma children_marks_rule (key : string) (levels : nat) :
  forall c : TileCoords,
    mem key (children_marks ts levels c)
    = has_key key (searched_below ts levels c) && tile_is usable ts key.
Proof.
  induction levels as [| levels IH]; intro c; [reflexivity |].
  cbn [children_marks searched_below]. unfold mem, has_key.
  rewrite !existsb_flat_map, <- existsb_andb_r.
  apply existsb_ext. intros child _.
  fold (mem key). fold (has_key key). specialize (IH child).
  cbn [existsb].
  fold (has_key key (if active_at ts child then []
                     else searched_below ts levels child)).
  assert (active_at ts child
          = match lookup (_tileCoordsToKey child) ts with
            | Some t => active t
            | None => false
            end) as -> by reflexivity.
  set (key0 := _tileCoordsToKey child) in *.
  destruct (lookup key0 ts) as [t |] eqn:found.
  - destruct (active t) eqn:act.
    + cbn [mem existsb has_key]. fold key0. rewrite !orb_false_r.
      destruct (String.eqb key key0) eqn:e; [| reflexivity].
      rewrite (tile_is_key usable _ _ e). unfold tile_is. rewrite found.
      unfold usable. now rewrite act.
    + rewrite existsb_app.
      change (existsb (String.eqb key) (children_marks ts levels child))
        with (mem key (children_marks ts levels child)).
      rewrite IH. unfold has_key at 1. cbn [existsb]. fold key0.
      fold (has_key key (searched_below ts levels child)).
      destruct (String.eqb key key0) eqn:e.
      * rewrite (tile_is_key usable _ _ e). unfold tile_is. rewrite found.
        unfold usable. rewrite act.
        destruct (is_loaded t); cbn [existsb]; rewrite ?e; cbn;
          now rewrite ?andb_false_r.
      * destruct (is_loaded t); cbn [existsb]; rewrite ?e; reflexivity.
  - change (existsb (String.eqb key) (children_marks ts levels child))
      with (mem key (children_marks ts levels child)).
    rewrite IH. unfold has_key at 2. cbn [existsb]. fold key0.
    fold (has_key key (searched_below ts levels child)).
    destruct (String.eqb key key0) eqn:e; [| reflexivity].
    rewrite (tile_is_key usable _ _ e). unfold tile_is. rewrite found.
    now rewrite !andb_false_r.
Qed.

End Rules.

End RuleFacts.

Module PruneFacts.

Import GridLayer Retention Marks StoreFacts RetainFacts RuleFacts.

Lemma marks_rule (ts : Tiles) (c : TileCoords) (key : string) :
  mem key (marks ts c)
  = retained_as_ancestor ts c key || retained_as_descendant ts c key.
Proof.
  unfold marks, retained_as_ancestor, retained_as_descendant, active_ancestor.
  rewrite <- parent_marks_rule, <- parent_marks_found.
  rewrite <- andb_assoc, <- children_marks_rule.
  destruct (parent_marks ts 5 c) as [marked found]. cbn [fst snd].
  destruct found; cbn [negb andb].
  - now rewrite orb_false_r.
  - apply mem_app.
Qed.

Section Loops.

Variable s0 : Layer.
Variable ts : Tiles.
Hypothesis nodup : NoDup (keys ts).

(** A loop over the store whose body rewrites the retain marks only. *)
Lemma for_in_tiles_holding (body : string -> Layer -> Layer)
  (step : string -> (string -> Tile -> bool) -> string -> Tile -> bool) :
  (forall key mark, In key (keys ts) ->
     body key (holding s0 ts mark) = holding s0 ts (step key mark)) ->
  forall mark,
    for_in_tiles body (holding s0 ts mark)
    = holding s0 ts (fold_left (fun mark key => step key mark) (keys ts) mark).
Proof.
  intros body_step mark. unfold for_in_tiles.
  replace (keys (_tiles (holding s0 ts mark))) with (keys ts)
    by (symmetry; apply keys_retag).
  assert (forall ks, incl ks (keys ts) -> forall mark,
    fold_left
      (fun s key =>
         match lookup key (_tiles s) with
         | Some _ => body key s
         | None => s
         end) ks (holding s0 ts mark)
    = holding s0 ts (fold_left (fun mark key => step key mark) ks mark))
    as loop.
  { induction ks as [| key ks IH]; intros part mark'; [reflexivity |].
    cbn [fold_left]. rewrite lookup_holding.
    assert (In key (keys ts)) as present by (apply part; now left).
    destruct (lookup key ts) eqn:found;
      [| now apply lookup_key in present].
    cbn [option_map]. rewrite (body_step key mark' present).
    apply IH. intros k i. apply part. now right. }
  apply loop, incl_refl.
Qed.

(** The first loop: every tile is marked as it is current. *)
Lemma first_loop (mark : string -> Tile -> bool) :
  for_in_tiles
    (fun key s =>
       set_tiles (update key (fun tile => set_retain (current tile) tile)
                         (_tiles s)) s)
    (holding s0 ts mark)
  = holding s0 ts (fun _ t => current t).
Proof.
  rewrite (for_in_tiles_holding _
             (fun key mark k t => if String.eqb k key then current t
                                  else mark k t)).
  - apply holding_ext. intros k t present.
    assert (In k (keys ts)) as i
        by (change k with (fst (k, t)); now apply in_map).
    clear present nodup. revert mark.
    induction (keys ts) as [| key ks IH]; intro mark; [destruct i |].
    cbn [fold_left].
    destruct (in_dec string_dec k ks) as [later | last].
    + now apply IH.
    + destruct i as [-> | i]; [| tauto].
      clear IH. revert mark.
      assert (forall mark : string -> Tile -> bool,
                (forall t, mark k t = current t) ->
                forall t, fold_left
                  (fun mark key k t => if String.eqb k key then current t
                                       else mark k t) ks mark k t
                = current t) as stable.
      { clear last. induction ks as [| key ks IH]; intros mark is_current u;
          [apply is_current |].
        cbn [fold_left]. apply IH. intro v.
        destruct (String.eqb k key); [reflexivity | apply is_current]. }
      intro mark. apply stable. intro u. now rewrite String.eqb_refl.
  - intros key mark' present. unfold holding. cbn [_tiles set_tiles].
    rewrite (@update_retag mark' current ts key nodup) by reflexivity.
    reflexivity.
Qed.

(** The second loop: the marks of every waiting tile are added. *)
Lemma second_loop (mark : string -> Tile -> bool) :
  for_in_tiles
    (fun key s =>
       match lookup key (_tiles s) with
       | Some tile =>
           if current tile && negb (active tile) then
             let c := coords tile in
             let (s, found) :=
               _retainParent (tx c) (ty c) (tz c) (tz c - 5) s in
             if negb found
             then _retainChildren (tx c) (ty c) (tz c) (tz c + 2) s
             else s
           else s
       | None => s
       end)
    (holding s0 ts mark)
  = holding s0 ts
      (fun k t => mark k t || existsb (fun key => mem k (marks_at ts key)) (keys ts)).
Proof.
  rewrite (for_in_tiles_holding _
             (fun key mark k t => mark k t || mem k (marks_at ts key))).
  - apply holding_ext. intros k t _. clear nodup. revert mark.
    induction (keys ts) as [| key ks IH]; intro mark; cbn [fold_left existsb].
    + now rewrite orb_false_r.
    + rewrite IH. now rewrite orb_assoc.
  - intros key mark' present. rewrite lookup_holding. unfold marks_at.
    destruct (lookup key ts) as [t |] eqn:found; cbn [option_map].
    + change (current (set_retain (mark' key t) t)) with (current t).
      change (active (set_retain (mark' key t) t)) with (active t).
      change (coords (set_retain (mark' key t) t)) with (coords t).
      fold (waiting t). destruct (waiting t).
      * cbv zeta. unfold _retainParent, _retainChildren, marks.
        replace (Z.to_nat (tz (coords t) - (tz (coords t) - 5))) with 5%nat
          by lia.
        replace (Z.to_nat (tz (coords t) + 2 - tz (coords t))) with 2%nat
          by lia.
        rewrite (@retainParent_rec_marks s0 ts nodup) by lia.
        destruct (coords t) as [x y z]. cbn [tx ty tz].
        destruct (parent_marks ts 5 (mkTileCoords x y z)) as [marked found'].
        cbn [fst snd]. destruct found'; cbn [negb]; [reflexivity |].
        rewrite (@retainChildren_rec_marks s0 ts nodup) by lia.
        apply holding_ext. intros k u _. now rewrite mem_app, orb_assoc.
      * apply holding_ext. intros k u _. cbn. now rewrite orb_false_r.
    + apply holding_ext. intros k u _. cbn. now rewrite orb_false_r.
Qed.

End Loops.

End PruneFacts.

Module RemovalFacts.

Import GridLayer Retention Marks StoreFacts.
Local Open Scope list_scope.

Lemma keys_app (l l' : Tiles) : keys (l ++ l')%list = (keys l ++ keys l')%list.
Proof. apply map_app. Qed.

Lemma lookup_app_fresh (l l' : Tiles) (key : string) :
  ~ In key (keys l) -> lookup key (l ++ l')%list = lookup key l'.
Proof.
  induction l as [| [k u] l IH]; cbn; [reflexivity |].
  intro fresh. destruct (String.eqb_spec k key) as [-> | ne]; [tauto |].
  apply IH. tauto.
Qed.

Lemma delete_fresh (l : Tiles) (key : string) :
  ~ In key (keys l) -> delete key l = l.
Proof.
  induction l as [| [k u] l IH]; cbn; [reflexivity |].
  intro fresh. destruct (String.eqb_spec k key) as [-> | ne]; [tauto |].
  cbn. f_equal. apply IH. tauto.
Qed.

Lemma delete_middle (l l' : Tiles) (key : string) (t : Tile) :
  ~ In key (keys l) -> ~ In key (keys l') ->
  delete key (l ++ (key, t) :: l')%list = (l ++ l')%list.
Proof.
  intros fresh fresh'. unfold delete. rewrite filter_app. cbn [filter fst].
  rewrite String.eqb_refl. cbn [negb].
  fold (delete key l). fold (delete key l').
  now rewrite !delete_fresh.
Qed.

Lemma set_tiles_same (s : Layer) : set_tiles (_tiles s) s = s.
Proof. now destruct s. Qed.

(** In a store without repeated keys, filtering keeps or drops the tile
    of a key. *)
Lemma lookup_filter (p : string * Tile -> bool) (l : Tiles) (key : string) :
  NoDup (keys l) ->
  lookup key (filter p l)
  = match lookup key l with
    | Some t => if p (key, t) then Some t else None
    | None => None
    end.
Proof.
  induction l as [| [k u] l IH]; cbn [filter lookup keys map fst];
    [reflexivity |].
  intro nodup. inversion nodup as [| ? ? fresh nodup']; subst.
  destruct (String.eqb_spec k key) as [-> | ne].
  - destruct (p (key, u)) eqn:keep; cbn [lookup].
    + now rewrite String.eqb_refl.
    + apply lookup_None. intro i. apply fresh.
      unfold keys in *. apply in_map_iff in i as ([k' t'] & e & i).
      apply filter_In in i as [i _]. apply in_map_iff. now exists (k', t').
  - destruct (p (k, u)); cbn [lookup].
    + destruct (String.eqb_spec k key); [congruence | now apply IH].
    + now apply IH.
Qed.

Section WithHost.

Context `{Host}.

Lemma fired_fire_all (events : list Event) (s : Layer) :
  fired (fire_all events s) = (fired s ++ events)%list.
Proof.
  revert s. induction events as [| e events IH]; intro s; cbn.
  - now rewrite app_nil_r.
  - unfold fire_all in IH. rewrite IH. cbn. now rewrite <- app_assoc.
Qed.

Lemma tiles_fire_all (events : list Event) (s : Layer) :
  _tiles (fire_all events s) = _tiles s.
Proof.
  revert s. induction events as [| e events IH]; intro s; cbn; [reflexivity |].
  unfold fire_all in IH. now rewrite IH.
Qed.

Lemma removeTile_present (s : Layer) (key : string) (t : Tile) :
  lookup key (_tiles s) = Some t ->
  _removeTile key s = fire (unload key) (set_tiles (delete key (_tiles s)) s).
Proof. intro present. unfold _removeTile. now rewrite present. Qed.

(** The third loop: the tiles without a retain mark are removed, in the
    order of the store, with a [tileunload] event each. *)
Lemma third_loop (s : Layer) :
  NoDup (keys (_tiles s)) ->
  for_in_tiles
    (fun key s =>
       match lookup key (_tiles s) with
       | Some tile => if negb (retain tile) then _removeTile key s else s
       | None => s
       end) s
  = fire_all
      (map unload (keys (filter (fun e => negb (retain (snd e))) (_tiles s))))
      (set_tiles (filter (fun e => retain (snd e)) (_tiles s)) s).
Proof.
  unfold for_in_tiles.
  assert (forall rest kept s,
    _tiles s = (kept ++ rest)%list ->
    NoDup (keys (kept ++ rest)) ->
    fold_left
      (fun s key =>
         match lookup key (_tiles s) with
         | Some _ =>
             match lookup key (_tiles s) with
             | Some tile =>
                 if negb (retain tile) then _removeTile key s else s
             | None => s
             end
         | None => s
         end) (keys rest) s
    = fire_all
        (map unload (keys (filter (fun e => negb (retain (snd e))) rest)))
        (set_tiles (kept ++ filter (fun e => retain (snd e)) rest) s)) as loop.
  { induction rest as [| [k t] rest IH]; intros kept s' held nodup.
    - cbn. rewrite app_nil_r in *. now rewrite <- held, set_tiles_same.
    - rewrite keys_app in nodup. cbn [keys map fst] in nodup.
      pose proof (NoDup_remove _ _ _ nodup) as [nodup' fresh].
      rewrite <- keys_app in nodup'.
      assert (~ In k (keys kept)) as fresh_kept
          by (intro i; apply fresh, in_or_app; now left).
      assert (~ In k (keys rest)) as fresh_rest
          by (intro i; apply fresh, in_or_app; now right).
      change (keys ((k, t) :: rest)) with (k :: keys rest).
      cbn [fold_left]. rewrite held.
      rewrite (@lookup_app_fresh kept ((k, t) :: rest) k fresh_kept).
      cbn [lookup]. rewrite String.eqb_refl. cbn [filter snd].
      destruct (retain t) eqn:marked; cbn [negb].
      + rewrite (IH (kept ++ [(k, t)])%list s').
        * now rewrite <- app_assoc.
        * now rewrite held, <- app_assoc.
        * rewrite <- app_assoc. cbn [app]. rewrite keys_app.
          cbn [keys map fst]. exact nodup.
      + assert (lookup k (_tiles s') = Some t) as present.
        { rewrite held, (@lookup_app_fresh kept ((k, t) :: rest) k fresh_kept).
          cbn [lookup]. now rewrite String.eqb_refl. }
        rewrite (removeTile_present s' k present), held.
        rewrite (@delete_middle kept rest k t fresh_kept fresh_rest).
        rewrite (IH kept); [reflexivity | reflexivity | exact nodup']. }
  intro nodup. apply (loop (_tiles s) [] s); [reflexivity | exact nodup].
Qed.

End WithHost.

End RemovalFacts.

Section PruneProperties.

Import GridLayer Retention Marks StoreFacts RetainFacts RuleFacts PruneFacts
  RemovalFacts.
Local Open Scope list_scope.

Context `{Host}.

Lemma existsb_map {A B} (p : B -> bool) (f : A -> B) (l : list A) :
  existsb p (map f l) = existsb (fun a => p (f a)) l.
Proof. induction l as [| a l IH]; cbn; [reflexivity | now rewrite IH]. Qed.

(** The marks left by the first two loops are those of the retention
    rule. *)
Lemma marks_retained (ts : Tiles) (key : string) (t : Tile) :
  NoDup (keys ts) -> In (key, t) ts ->
  current t || existsb (fun k => mem key (marks_at ts k)) (keys ts)
  = retained ts key.
Proof.
  intros nodup present. unfold retained, tile_is.
  rewrite (@lookup_In ts key t nodup present). f_equal.
  unfold keys. rewrite existsb_map. apply existsb_ext.
  intros [k u] i. cbn [fst snd]. unfold marks_at.
  rewrite (@lookup_In ts k u nodup i).
  destruct (waiting u); [apply marks_rule | reflexivity].
Qed.

Lemma filter_retained (mark : string -> Tile -> bool) (rule : string -> bool)
  (l : Tiles) :
  (forall k t, In (k, t) l -> mark k t = rule k) ->
  filter (fun e => retain (snd e)) (retag mark l)
  = retag (fun _ _ => true) (filter (fun e => rule (fst e)) l)
  /\ keys (filter (fun e => negb (retain (snd e))) (retag mark l))
     = filter (fun k => negb (rule k)) (keys l).
Proof.
  induction l as [| [k t] l IH]; intro same; [now split |].
  destruct IH as [kept dropped];
    [intros k' t' i; apply same; now right |].
  cbn [retag map filter fst snd keys]. cbn [retain set_retain].
  fold (retag mark l). fold (keys l).
  rewrite (same k t) by now left.
  destruct (rule k) eqn:r; cbn [negb].
  - rewrite kept. split; [reflexivity |]. exact dropped.
  - split; [exact kept |]. cbn [map fst]. f_equal. exact dropped.
Qed.

(** The layer that a prune pass leaves. *)
Lemma pruneTiles_result (s : Layer) (m : MapCore.Map) :
  _map s = Some m ->
  NoDup (keys (_tiles s)) ->
  (MapCore.to_number (MapCore._zoom m) >? MapCore.to_number (options_maxZoom s))%num
  || (MapCore.to_number (MapCore._zoom m) <? MapCore.to_number (options_minZoom s))%num
  = false ->
  _pruneTiles s
  = fire_all
      (map unload
           (filter (fun key => negb (retained (_tiles s) key)) (keys (_tiles s))))
      (set_tiles
         (retag (fun _ _ => true)
                (filter (fun e => retained (_tiles s) (fst e)) (_tiles s)))
         s).
Proof.
  intros attached nodup inside. unfold _pruneTiles. rewrite attached, inside.
  set (ts := _tiles s) in *.
  assert (s = holding s ts (fun _ t => retain t)) as start.
  { unfold holding. rewrite retag_retain. symmetry. apply set_tiles_same. }
  rewrite start at 1.
  rewrite (@first_loop s ts nodup), (@second_loop s ts nodup).
  set (mark := fun (k : string) (t : Tile) =>
                 current t
                 || existsb (fun key => mem k (marks_at ts key)) (keys ts)).
  rewrite third_loop
    by (unfold holding; cbn [_tiles set_tiles]; now rewrite keys_retag).
  unfold holding. cbn [_tiles set_tiles].
  destruct (@filter_retained mark (retained ts) ts) as [kept dropped].
  { intros k t i. now apply marks_retained. }
  now rewrite kept, dropped.
Qed.

(** C1 (as the code has it). In a prune pass made with the zoom of the map
    within the zoom limits of the layer, a tracked tile stays in the tile
    store exactly when the retention rule protects it: then it stays with
    its retain mark set; otherwise it is removed.  No tile appears, and a
    [tileunload] event is fired for each removed tile, in the order of the
    store, and for nothing else.  The tiles of the store have coordinates
    below 2^50 in magnitude: there the loops of [_retainChildren] and the
    recursion of [_retainParent] count exactly, as in the embedding. *)
Theorem pruneTiles_keeps_the_retained (s : Layer) (m : MapCore.Map) :
  _map s = Some m ->
  NoDup (keys (_tiles s)) ->
  exact_store (_tiles s) = true ->
  (MapCore.to_number (MapCore._zoom m) >? MapCore.to_number (options_maxZoom s))%num
  || (MapCore.to_number (MapCore._zoom m) <? MapCore.to_number (options_minZoom s))%num
  = false ->
  (forall key t,
     lookup key (_tiles s) = Some t ->
     lookup key (_tiles (_pruneTiles s))
     = if retained (_tiles s) key then Some (set_retain true t) else None)
  /\ (forall key,
        lookup key (_tiles s) = None ->
        lookup key (_tiles (_pruneTiles s)) = None)
  /\ fired (_pruneTiles s)
     = fired s
       ++ map (fun key => tileunload (_keyToTileCoords key))
              (filter (fun key => negb (retained (_tiles s) key))
                      (keys (_tiles s))).
Proof.
  intros attached nodup _ inside.
  rewrite (@pruneTiles_result s m attached nodup inside).
  rewrite tiles_fire_all, fired_fire_all. cbn [_tiles fired set_tiles].
  assert (forall key,
    lookup key
      (retag (fun _ _ => true)
             (filter (fun e => retained (_tiles s) (fst e)) (_tiles s)))
    = match lookup key (_tiles s) with
      | Some t => if retained (_tiles s) key then Some (set_retain true t)
                  else None
      | None => None
      end) as found.
  { intro key.
    rewrite lookup_retag,
      (@lookup_filter (fun e => retained (_tiles s) (fst e)) (_tiles s) key nodup).
    destruct (lookup key (_tiles s)); [| reflexivity].
    cbn [fst]. now destruct (retained (_tiles s) key). }
  repeat split.
  - intros key t present. now rewrite found, present.
  - intros key absent. now rewrite found, absent.
Qed.

End PruneProperties.

(** C1, as stated, fails, both ways.  The tile of zoom 0 survives the
    prune pass although it is not current and not the closest loaded
    ancestor of the waiting tile (the tile of zoom 1 is): every loaded
    ancestor below the closest active one is retained.  And the loaded tile
    of zoom 4, a descendant two levels below the waiting tile, is removed
    although no ancestor is active: the search does not go below the active
    tile of zoom 3. *)
Lemma pruneTiles_differs_from_the_stated_rules :
  let s := Samples.zooming_layer in
  let far := GridLayer._tileCoordsToKey (GridLayer.mkTileCoords 0 0 0) in
  let deep := GridLayer._tileCoordsToKey (GridLayer.mkTileCoords 0 0 4) in
  (option_map GridLayer.coords
     (GridLayer.lookup far
        (GridLayer._tiles (@GridLayer._pruneTiles Samples.host s)))
   = Some (GridLayer.mkTileCoords 0 0 0)
   /\ Spec.retained (GridLayer._tiles s) far = false)
  /\ (option_map GridLayer.coords (GridLayer.lookup deep (GridLayer._tiles s))
      = Some (GridLayer.mkTileCoords 0 0 4)
      /\ GridLayer.lookup deep
           (GridLayer._tiles (@GridLayer._pruneTiles Samples.host s))
         = None
      /\ Spec.retained (GridLayer._tiles s) deep = true).
Proof. repeat split; vm_compute; reflexivity. Qed.

Lemma pruneTiles_keeps_the_retained_witness :
  let s := Samples.zooming_layer in
  (forall key t,
     GridLayer.lookup key (GridLayer._tiles s) = Some t ->
     GridLayer.lookup key (GridLayer._tiles (@GridLayer._pruneTiles Samples.host s))
     = if Retention.retained (GridLayer._tiles s) key
       then Some (GridLayer.set_retain true t) else None)
  /\ (forall key,
        GridLayer.lookup key (GridLayer._tiles s) = None ->
        GridLayer.lookup key (GridLayer._tiles (@GridLayer._pruneTiles Samples.host s))
        = None)
  /\ GridLayer.fired (@GridLayer._pruneTiles Samples.host s)
     = (GridLayer.fired s
        ++ map (fun key => GridLayer.tileunload
                             (@GridLayer._keyToTileCoords Samples.host key))
               (filter (fun key => negb (Retention.retained (GridLayer._tiles s) key))
                       (GridLayer.keys (GridLayer._tiles s))))%list.
Proof.
  apply (@pruneTiles_keeps_the_retained Samples.host Samples.zooming_layer
           Samples.loaded_map).
  - reflexivity.
  - vm_compute. repeat constructor; cbn; intuition discriminate.
  - reflexivity.
  - reflexivity.
Defined.

(** ** The recursive functions, as they are written *)

Section Unfolding.

Import GridLayer.

(** [_retainParent] satisfies the recursive equation of the source. *)
Lemma retainParent_unfold (x y z minZoom : Z) (s : Layer) :
  _retainParent x y z minZoom s
  = let x2 := (x / 2)%Z in
    let y2 := (y / 2)%Z in
    let z2 := (z - 1)%Z in
    let key := _tileCoordsToKey (mkTileCoords x2 y2 z2) in
    let continue (s : Layer) :=
      if (z2 >? minZoom)%Z then _retainParent x2 y2 z2 minZoom s
      else (s, false) in
    match lookup key (_tiles s) with
    | Some t =>
        if active t then (mark_retained key s, true)
        else if is_loaded t then continue (mark_retained key s)
        else continue s
    | None => continue s
    end.
Proof.
  cbv zeta. unfold _retainParent.
  destruct (Z.gtb_spec (z - 1) minZoom) as [gt | le].
  - replace (Z.to_nat (z - minZoom)) with (S (Z.to_nat (z - 1 - minZoom)))
      by lia.
    cbn [retainParent_rec].
    destruct (Z.gtb_spec (z - 1) minZoom); [reflexivity | lia].
  - destruct (Z.to_nat (z - minZoom)); cbn [retainParent_rec];
      destruct (Z.gtb_spec (z - 1) minZoom); try lia; reflexivity.
Qed.

(** [_retainChildren] satisfies the recursive equation of the source. *)
Lemma retainChildren_unfold (x y z maxZoom : Z) (s : Layer) :
  _retainChildren x y z maxZoom s
  = fold_left
      (fun s i =>
         fold_left
           (fun s j =>
              retainChild (fun i j s => _retainChildren i j (z + 1) maxZoom s)
                          i j z maxZoom s)
           [2 * y; 2 * y + 1]%Z s)
      [2 * x; 2 * x + 1]%Z s.
Proof.
  assert (forall (descend : Z -> Z -> Layer -> Layer) i j s,
            (z + 1 <? maxZoom)%Z = false ->
            retainChild descend i j z maxZoom s
            = retainChild (fun _ _ s => s) i j z maxZoom s) as stop.
  { intros descend i j s' ge. unfold retainChild. now rewrite ge. }
  destruct (z + 1 <? maxZoom)%Z eqn:lt.
  - apply Z.ltb_lt in lt. unfold _retainChildren.
    replace (Z.to_nat (maxZoom - z)) with (S (Z.to_nat (maxZoom - (z + 1))))
      by lia.
    reflexivity.
  - cbn [fold_left].
    rewrite !(stop (fun i j s => _retainChildren i j (z + 1) maxZoom s))
      by reflexivity.
    unfold _retainChildren.
    destruct (Z.to_nat (maxZoom - z)) as [| steps];
      cbn [retainChildren_rec fold_left]; [reflexivity |].
    now rewrite
      !(stop (fun i j s => retainChildren_rec steps i j (z + 1) maxZoom s)).
Qed.

End Unfolding.

(* ################################################################## *)
(** * Part III, continued: further properties of the code               *)
(* ################################################################## *)

(* ================================================================== *)
(** * Utilities: [wrapNum], [indexOf], [stamp], [formatNum]             *)
(* ================================================================== *)

Module WrapFacts.

Import JsNumFacts Wrapping.
Local Open Scope Q_scope.

(** A wrapped value differs from the value by a whole number of widths of
    the range. *)
Lemma Qwrap_turns (x lo hi : Q) :
  exists j : Z, Qwrap x lo hi == x - (hi - lo) * inject_Z j.
Proof.
  unfold Qwrap, Qrem.
  set (d := hi - lo).
  set (t1 := Qtrunc ((x - lo) / d)).
  set (t2 := Qtrunc ((x - lo - d * inject_Z t1 + d) / d)).
  exists (t1 + t2 - 1)%Z.
  unfold Z.sub. rewrite !inject_Z_plus.
  change (inject_Z (- (1))) with (- (1)). ring.
Qed.

(** A wrapped value lies in the range, its upper end excluded. *)
Lemma Qwrap_range (x lo hi : Q) :
  lo < hi -> lo <= Qwrap x lo hi /\ Qwrap x lo hi < hi.
Proof.
  intro order. unfold Qwrap.
  assert (~ hi - lo == 0) as nz by (intro h; lra).
  pose proof (Qrem_twice_frac (x - lo) nz) as [low high].
  set (b := Qrem (Qrem (x - lo) (hi - lo) + (hi - lo)) (hi - lo)) in *.
  assert (b == (hi - lo) * (b / (hi - lo))) as e by now field.
  set (t := b / (hi - lo)) in *. clearbody t. clearbody b.
  assert (0 < hi - lo) as width by lra.
  split; nra.
Qed.

(** Two numbers of the range that differ by a whole number of widths are
    equal. *)
Lemma in_range_unique (r r' lo hi : Q) (n : Z) :
  lo <= r -> r < hi -> lo <= r' -> r' < hi ->
  r - r' == (hi - lo) * inject_Z n -> r == r'.
Proof.
  intros a b a' b' turns.
  assert (0 < hi - lo) as width by lra.
  assert (n = 0)%Z as ->.
  { assert (inject_Z n < inject_Z 1) as up.
    { change (inject_Z 1) with 1. nra. }
    assert (inject_Z (-1) < inject_Z n) as down.
    { change (inject_Z (-1)) with (- (1)). nra. }
    rewrite <- Zlt_Qlt in up, down. lia. }
  change (inject_Z 0) with 0 in turns. lra.
Qed.

End WrapFacts.

(** X1.  [wrapNum] maps a finite number into a finite range [[lo, hi]] with
    [lo < hi]: the result is at least [lo] and at most [hi], and it is [hi]
    only for the argument [hi] itself with [includeMax] set. *)
Theorem wrapNum_in_range (x lo hi : Q) (includeMax : bool) :
  (lo < hi)%Q ->
  exists r : Q,
    Util.wrapNum (Fin x) (Fin lo, Fin hi) includeMax = Fin r
    /\ (lo <= r)%Q /\ (r <= hi)%Q
    /\ ((r == hi)%Q -> includeMax = true /\ (x == hi)%Q).
Proof.
  intro order.
  destruct (JsNum.eqb (Fin x) (Fin hi) && includeMax) eqn:at_max.
  - exists x. apply andb_true_iff in at_max as [same inc].
    cbn [JsNum.eqb] in same. apply JsNumFacts.Qeqb_eq in same.
    unfold Util.wrapNum. cbn [fst snd JsNum.eqb].
    assert (Qeqb x hi = true) as -> by now apply JsNumFacts.Qeqb_eq.
    rewrite inc. cbn [andb]. repeat split; try lra; assumption.
  - exists (Qred (Wrapping.Qwrap x lo hi)).
    rewrite (@UtilFacts.wrapNum_fin x lo hi includeMax)
      by (try exact at_max; intro h; lra).
    pose proof (WrapFacts.Qwrap_range x order) as [low high].
    pose proof (Qred_correct (Wrapping.Qwrap x lo hi)) as same.
    repeat split; try lra; exfalso; lra.
Qed.

Lemma wrapNum_in_range_witness :
  exists r : Q,
    Util.wrapNum (Fin 540) (Fin (-180), Fin 180) true = Fin r
    /\ (-180 <= r)%Q /\ (r <= 180)%Q
    /\ ((r == 180)%Q -> true = true /\ (540 == 180)%Q).
Proof. apply (@wrapNum_in_range 540 (-180) 180 true). reflexivity. Defined.

(** X2.  In exact arithmetic, that is for the remainders and sums of
    [wrapNum] taken without rounding: [wrapNum] leaves a number of the
    range [[lo, hi)] as it is, and it gives the same result for two numbers
    that differ by a whole number of widths of the range.  (With the
    rounding of the code's numbers the result for a number of the range
    can differ from it in the last digits.) *)
Theorem wrapNum_fixes_and_repeats (x lo hi : Q) (k : Z) :
  (lo < hi)%Q ->
  ((lo <= x)%Q -> (x < hi)%Q ->
   forall includeMax,
     Util.wrapNum (Fin x) (Fin lo, Fin hi) includeMax = fin x)
  /\ Util.wrapNum (Fin (x + inject_Z k * (hi - lo))) (Fin lo, Fin hi) false
     = Util.wrapNum (Fin x) (Fin lo, Fin hi) false.
Proof.
  intro order.
  assert (~ (hi - lo == 0)%Q) as nz by (intro h; lra).
  split.
  - intros low high includeMax.
    assert (JsNum.eqb (Fin x) (Fin hi) && includeMax = false) as below.
    { cbn [JsNum.eqb].
      assert (Qeqb x hi = false) as -> by (apply JsNumFacts.Qeqb_neq; lra).
      reflexivity. }
    rewrite (@UtilFacts.wrapNum_fin x lo hi includeMax nz below).
    apply JsNumFacts.fin_eq.
    pose proof (WrapFacts.Qwrap_range x order) as [low' high'].
    destruct (WrapFacts.Qwrap_turns x lo hi) as [j turns].
    apply (@WrapFacts.in_range_unique _ _ lo hi (- j)); try assumption.
    rewrite inject_Z_opp. lra.
  - rewrite !(@UtilFacts.wrapNum_fin _ lo hi false nz) by apply andb_false_r.
    apply JsNumFacts.fin_eq.
    set (x' := (x + inject_Z k * (hi - lo))%Q).
    pose proof (WrapFacts.Qwrap_range x order) as [low high].
    pose proof (WrapFacts.Qwrap_range x' order) as [low' high'].
    destruct (WrapFacts.Qwrap_turns x lo hi) as [j turns].
    destruct (WrapFacts.Qwrap_turns x' lo hi) as [j' turns'].
    apply (@WrapFacts.in_range_unique _ _ lo hi (k - j' + j)); try assumption.
    unfold Z.sub. rewrite !inject_Z_plus, inject_Z_opp.
    rewrite turns, turns'. unfold x'. ring.
Qed.

Lemma wrapNum_fixes_and_repeats_witness :
  ((-180 <= 90)%Q -> (90 < 180)%Q ->
   forall includeMax,
     Util.wrapNum (Fin 90) (Fin (-180), Fin 180) includeMax = fin 90)
  /\ Util.wrapNum (Fin (90 + inject_Z 2 * (180 - -180))) (Fin (-180), Fin 180)
                  false
     = Util.wrapNum (Fin 90) (Fin (-180), Fin 180) false.
Proof.
  apply (@wrapNum_fixes_and_repeats 90 (-180) 180 2). reflexivity.
Defined.

Section IndexOfProperties.

Import Utilities.

Variable A : Type.
Variable strict_eq : A -> A -> bool.

Lemma indexOf_from_spec (rest : list A) (el : A) :
  forall from : Z,
    existsb (fun a => strict_eq a el) rest = false
    /\ indexOf_from strict_eq from rest el = (-1)%Z
    \/ exists (i : nat) (a : A),
         indexOf_from strict_eq from rest el = (from + Z.of_nat i)%Z
         /\ nth_error rest i = Some a /\ strict_eq a el = true
         /\ forall (j : nat) (b : A),
              (j < i)%nat -> nth_error rest j = Some b -> strict_eq b el = false.
Proof.
  induction rest as [| a rest IH]; intro from; cbn [indexOf_from existsb].
  - left. now split.
  - destruct (strict_eq a el) eqn:same.
    + right. exists O, a. rewrite Z.add_0_r. repeat split; try reflexivity.
      * exact same.
      * intros j b lt. lia.
    + destruct (IH (from + 1)%Z)
        as [[none stop] | (i & b & found & at_i & eq & first)].
      * left. now split.
      * right. exists (S i), b. repeat split; try assumption.
        -- rewrite found. lia.
        -- intros [| j] c lt at_j; cbn in at_j.
           ++ now inversion at_j; subst.
           ++ apply (first j c); [lia | exact at_j].
Qed.

(** X3.  [indexOf] returns the index of the first element of the array that is
    strictly equal to the element sought, and -1 exactly when no element
    is. *)
Theorem indexOf_first_match (array : list A) (el : A) :
  (indexOf strict_eq array el = (-1)%Z
   <-> forall a, In a array -> strict_eq a el = false)
  /\ (forall i : nat,
        indexOf strict_eq array el = Z.of_nat i
        <-> (exists a, nth_error array i = Some a /\ strict_eq a el = true)
            /\ forall (j : nat) (b : A),
                 (j < i)%nat -> nth_error array j = Some b ->
                 strict_eq b el = false).
Proof.
  unfold indexOf.
  assert (forall l, existsb (fun a => strict_eq a el) l = false
                    <-> forall a, In a l -> strict_eq a el = false) as none_iff.
  { intro l. split.
    - intros none a i. destruct (strict_eq a el) eqn:same; [| reflexivity].
      rewrite <- none. symmetry. apply existsb_exists. now exists a.
    - intro none. destruct (existsb _ l) eqn:some; [| reflexivity].
      apply existsb_exists in some as (a & i & same).
      now rewrite (none a i) in same. }
  destruct (indexOf_from_spec array el 0)
    as [[none stop] | (i & a & found & at_i & same & first)].
  - rewrite stop. split.
    + split; [intros _; now apply none_iff | reflexivity].
    + intro i. split; [lia |].
      intros [(a & at_i & same) _]. exfalso.
      apply nth_error_In in at_i.
      rewrite (proj1 (none_iff array) none a at_i) in same. discriminate.
  - rewrite found, Z.add_0_l. split.
    + split; [lia |]. intro none. exfalso.
      apply nth_error_In in at_i. rewrite (none a at_i) in same. discriminate.
    + intro i'. split.
      * intro e. apply Nat2Z.inj in e. subst i'. split; [now exists a | exact first].
      * intros [(a' & at_i' & same') first']. f_equal.
        destruct (Nat.lt_trichotomy i i') as [lt | [e | gt]]; [| exact e |].
        -- rewrite (first' i a lt at_i) in same. discriminate.
        -- rewrite (first i' a' gt at_i') in same'. discriminate.
Qed.

End IndexOfProperties.

Section StampProperties.

Import Utilities.

Lemma nth_error_set_nth_same {B} (l : list B) (n : nat) (b : B) :
  (n < List.length l)%nat -> nth_error (set_nth n b l) n = Some b.
Proof.
  revert n. induction l as [| c l IH]; intros [| n] lt; cbn in *;
    try lia; [reflexivity |].
  apply IH. lia.
Qed.

Lemma nth_error_set_nth_other {B} (l : list B) (n j : nat) (b : B) :
  j <> n -> nth_error (set_nth n b l) j = nth_error l j.
Proof.
  revert n j. induction l as [| c l IH]; intros [| n] [| j] ne; cbn;
    try reflexivity; try congruence.
  apply IH. congruence.
Qed.

(** An identifier that an object has is owned by an object. *)
Lemma find_id_owned (fuel : nat) (objs : list Obj) (obj : nat) (id : Z) :
  find_id fuel objs obj = Some id ->
  exists k o, nth_error objs k = Some o /\ own_id o = Some id.
Proof.
  revert obj. induction fuel as [| fuel IH]; intros obj found; cbn in found;
    [discriminate |].
  destruct (nth_error objs obj) as [o |] eqn:at_obj; [| discriminate].
  destruct (own_id o) as [id' |] eqn:own.
  - injection found as <-. now exists obj, o.
  - destruct (proto o) as [p |]; [| discriminate]. now apply (IH p).
Qed.

(** The search along the chain of an object ends: more fuel than the place
    of the object changes nothing. *)
Lemma find_id_fuel (objs : list Obj) :
  (forall i o p, nth_error objs i = Some o -> proto o = Some p -> (p < i)%nat) ->
  forall fuel fuel' obj,
    (obj < fuel)%nat -> (obj < fuel')%nat ->
    find_id fuel objs obj = find_id fuel' objs obj.
Proof.
  intros ordered fuel. induction fuel as [| fuel IH]; intros fuel' obj lt lt';
    [lia |].
  destruct fuel' as [| fuel']; [lia |]. cbn.
  destruct (nth_error objs obj) as [o |] eqn:at_obj; [| reflexivity].
  destruct (own_id o); [reflexivity |].
  destruct (proto o) as [p |] eqn:chain; [| reflexivity].
  specialize (ordered obj o p at_obj chain). apply IH; lia.
Qed.

(** X4.  [stamp] on an object, in a store where [lastId] is below 2^53 and
    the identifiers are those that the counter gave.  The object has the
    identifier that it owns or, failing that, the first that an object of
    its prototype chain owns.  If it has one, [stamp] returns it and
    changes nothing.  If it has none and can be extended, it gets
    [lastId + 1] as its own, which is larger than every identifier that an
    object had; the counter is [lastId + 1]; no other object is touched;
    no two objects own the same identifier afterwards; and a second call
    returns the same identifier and changes nothing.  If it has none and
    cannot be extended, [stamp] throws a [TypeError] and the counter has
    moved to [lastId + 1]. *)
Theorem stamp_unique_ids (w : World) (obj : nat) (o : Obj) :
  well_stamped w -> (lastId w < 2 ^ 53)%Z ->
  nth_error (objects w) obj = Some o ->
  (forall fuel, (obj < fuel)%nat ->
     find_id fuel (objects w) obj = visible_id w obj)
  /\ (own_id o <> None -> visible_id w obj = own_id o)
  /\ (forall p, own_id o = None -> proto o = Some p ->
        visible_id w obj = visible_id w p)
  /\ (forall id, visible_id w obj = Some id -> stamp obj w = (w, Return id))
  /\ (visible_id w obj = None -> extensible o = true ->
        let id := (lastId w + 1)%Z in
        let w' := fst (stamp obj w) in
        snd (stamp obj w) = Return id
        /\ lastId w' = id
        /\ nth_error (objects w') obj = Some (mkObj (Some id) (proto o) true)
        /\ (forall j, j <> obj ->
              nth_error (objects w') j = nth_error (objects w) j)
        /\ (forall j id', visible_id w j = Some id' -> (id' < id)%Z)
        /\ well_stamped w'
        /\ stamp obj w' = (w', Return id))
  /\ (visible_id w obj = None -> extensible o = false ->
        stamp obj w
        = (mkWorld (lastId w + 1) (objects w), Throw TypeError)).
Proof.
  intros (counted & bounded & unique & ordered) small at_obj.
  assert (obj < List.length (objects w))%nat as present
      by (apply nth_error_Some; congruence).
  assert (increment (lastId w) = (lastId w + 1)%Z) as next.
  { unfold increment. now destruct (Z.ltb_spec (lastId w) (2 ^ 53)); [| lia]. }
  split; [| split; [| split; [| split; [| split]]]].
  - intros fuel lt. unfold visible_id. now apply find_id_fuel.
  - intro owned. unfold visible_id.
    destruct (List.length (objects w)) as [| n]; [lia |]. cbn.
    rewrite at_obj. now destruct (own_id o).
  - intros p none chain. unfold visible_id.
    pose proof (ordered obj o p at_obj chain) as before.
    rewrite (@find_id_fuel (objects w) ordered
               (List.length (objects w)) (S obj) obj) by lia.
    cbn [find_id]. rewrite at_obj, none, chain.
    apply find_id_fuel; [exact ordered | lia | lia].
  - intros id seen. unfold stamp. now rewrite at_obj, seen.
  - intros unseen open id w'.
    assert (stamp obj w
            = (mkWorld id (set_nth obj (set_own_id id o) (objects w)),
               Return id)) as run.
    { unfold stamp. now rewrite at_obj, unseen, open, next. }
    assert (own_id o = None) as none.
    { destruct (own_id o) as [id0 |] eqn:own; [| reflexivity].
      unfold visible_id in unseen.
      destruct (List.length (objects w)) as [| n]; [lia |]. cbn in unseen.
      now rewrite at_obj, own in unseen. }
    unfold w'. rewrite run. cbn [fst snd lastId objects].
    assert (well_stamped
              (mkWorld id (set_nth obj (set_own_id id o) (objects w))))
      as kept.
    { unfold well_stamped. cbn [lastId objects].
      split; [unfold id; lia | split; [| split]].
      - intros i oi id0 at_i own.
        destruct (Nat.eq_dec i obj) as [-> | ne].
        + rewrite (nth_error_set_nth_same _ _ present) in at_i.
          injection at_i as <-. cbn in own. injection own as <-.
          unfold id. lia.
        + rewrite (nth_error_set_nth_other _ _ ne) in at_i.
          specialize (bounded i oi id0 at_i own). unfold id. lia.
      - intros i j oi oj id0 at_i at_j own_i own_j.
        destruct (Nat.eq_dec i obj) as [-> | ne_i],
                 (Nat.eq_dec j obj) as [-> | ne_j]; [reflexivity | | |].
        + rewrite (nth_error_set_nth_same _ _ present) in at_i.
          rewrite (nth_error_set_nth_other _ _ ne_j) in at_j.
          injection at_i as <-. cbn in own_i. injection own_i as <-.
          specialize (bounded j oj _ at_j own_j). unfold id in bounded. lia.
        + rewrite (nth_error_set_nth_same _ _ present) in at_j.
          rewrite (nth_error_set_nth_other _ _ ne_i) in at_i.
          injection at_j as <-. cbn in own_j. injection own_j as <-.
          specialize (bounded i oi _ at_i own_i). unfold id in bounded. lia.
        + rewrite (nth_error_set_nth_other _ _ ne_i) in at_i.
          rewrite (nth_error_set_nth_other _ _ ne_j) in at_j.
          exact (unique i j oi oj id0 at_i at_j own_i own_j).
      - intros i oi p at_i chain.
        destruct (Nat.eq_dec i obj) as [-> | ne].
        + rewrite (nth_error_set_nth_same _ _ present) in at_i.
          injection at_i as <-. cbn in chain.
          exact (ordered obj o p at_obj chain).
        + rewrite (nth_error_set_nth_other _ _ ne) in at_i.
          exact (ordered i oi p at_i chain). }
    split; [reflexivity |]. split; [reflexivity |].
    split; [rewrite (nth_error_set_nth_same _ _ present);
            unfold set_own_id; now rewrite open |].
    split; [intros j ne; now apply nth_error_set_nth_other |].
    split.
    { intros j id' seen. unfold visible_id in seen.
      apply find_id_owned in seen as (k & ok & at_k & own).
      specialize (bounded k ok id' at_k own). unfold id. lia. }
    split; [exact kept |].
    unfold stamp. cbn [objects lastId].
    rewrite (nth_error_set_nth_same _ _ present).
    assert (visible_id
              (mkWorld id (set_nth obj (set_own_id id o) (objects w))) obj
            = Some id) as ->; [| reflexivity].
    unfold visible_id. cbn [objects].
    destruct (List.length (set_nth obj (set_own_id id o) (objects w)))
      as [| n] eqn:size.
    + pose proof (nth_error_set_nth_same (objects w) (set_own_id id o) present)
        as at_new.
      assert (obj < List.length
                      (set_nth obj (set_own_id id o) (objects w)))%nat
        by (apply nth_error_Some; congruence).
      lia.
    + cbn. now rewrite (nth_error_set_nth_same _ _ present).
  - intros unseen closed. unfold stamp.
    now rewrite at_obj, unseen, closed, next.
Qed.

End StampProperties.

Lemma stamp_unique_ids_witness :
  let stamped := Utilities.mkObj (Some 1%Z) None true in
  let heir := Utilities.mkObj None (Some 0%nat) true in
  let fresh := Utilities.mkObj None None true in
  let w := Utilities.mkWorld 1 [stamped; heir; fresh] in
  let w' := fst (Utilities.stamp 2 w) in
  Utilities.stamp 1 w = (w, Return 1%Z)
  /\ snd (Utilities.stamp 2 w) = Return 2%Z
  /\ well_stamped w'
  /\ Utilities.stamp 2 w' = (w', Return 2%Z).
Proof.
  intros stamped heir fresh w w'.
  assert (well_stamped w) as good.
  { split; [cbn; lia | split; [| split]].
    - intros [| [| [| i]]] o id at_i own; cbn in at_i;
        try (destruct i; discriminate);
        injection at_i as <-; cbn in own; try discriminate.
      injection own as <-. cbn. lia.
    - intros [| [| [| i]]] [| [| [| j]]] oi oj id at_i at_j own_i own_j;
        cbn in at_i, at_j;
        try (destruct i; discriminate); try (destruct j; discriminate);
        try reflexivity;
        injection at_i as <-; injection at_j as <-;
        cbn in own_i, own_j; discriminate.
    - intros [| [| [| i]]] o p at_i chain; cbn in at_i;
        try (destruct i; discriminate);
        injection at_i as <-; cbn in chain; try discriminate.
      injection chain as <-. lia. }
  split.
  - apply (proj1 (proj2 (proj2 (proj2
             (@stamp_unique_ids w 1 heir good eq_refl eq_refl))))).
    reflexivity.
  - pose proof (proj1 (proj2 (proj2 (proj2 (proj2
             (@stamp_unique_ids w 2 fresh good eq_refl eq_refl)))))
             eq_refl eq_refl) as (returned & _ & _ & _ & _ & kept & again).
    exact (conj returned (conj kept again)).
Defined.

Section FormatProperties.

Import Utilities.

Context `{Host}.

(** X5.  With a precision that is not [false], and where the power of ten that
    the host computes is a positive number [p], [formatNum] returns a
    finite number within [1 / (2 p)] of its argument, and formatting the
    result again changes nothing. *)
Theorem formatNum_rounds (num p : Q) (precision : Precision) :
  precision <> NoRounding ->
  Math_pow (of_Z 10) (digits_of precision) = Fin p ->
  (0 < p)%Q ->
  exists r : Q,
    formatNum (Fin num) precision = Fin r
    /\ (- (1 / (2 * p)) <= r - num)%Q /\ (r - num <= 1 / (2 * p))%Q
    /\ formatNum (Fin r) precision = Fin r.
Proof.
  intros rounding power positive.
  assert (forall v : Q,
            formatNum (Fin v) precision
            = fin (inject_Z (Qfloor (Qred (v * p) + (1 # 2))) / p)) as value.
  { intro v. unfold formatNum.
    destruct precision as [| | d]; [congruence | |];
      cbn [digits_of] in power; rewrite power;
      cbn [JsNum.mul JsNum.round JsNum.div fin of_Z];
      (assert (Qeqb p 0 = false) as -> by (apply JsNumFacts.Qeqb_neq; lra));
      reflexivity. }
  set (k := Qfloor (Qred (num * p) + (1 # 2))).
  exists (Qred (inject_Z k / p)).
  assert (inject_Z k <= num * p + (1 # 2))%Q as low.
  { pose proof (Qfloor_le (Qred (num * p) + (1 # 2))) as f. fold k in f.
    rewrite Qred_correct in f. exact f. }
  assert (num * p + (1 # 2) < inject_Z k + 1)%Q as high.
  { pose proof (Qlt_floor (Qred (num * p) + (1 # 2))) as f. fold k in f.
    rewrite Qred_correct, inject_Z_plus in f. exact f. }
  assert (Qred (inject_Z k / p) * p == inject_Z k)%Q as back.
  { rewrite Qred_correct. field. lra. }
  split; [apply value |].
  assert (Qred (inject_Z k / p) - num == (inject_Z k - num * p) / p)%Q as gap.
  { rewrite Qred_correct. field. lra. }
  assert (1 / (2 * p) == (1 # 2) / p)%Q as half by (field; lra).
  assert (0 < / p)%Q as inv by now apply Qinv_lt_0_compat.
  split; [| split].
  - rewrite gap, half. unfold Qdiv.
    setoid_replace (- ((1 # 2) * / p))%Q with ((- (1 # 2)) * / p)%Q by ring.
    apply Qmult_le_compat_r; lra.
  - rewrite gap, half. unfold Qdiv. apply Qmult_le_compat_r; lra.
  - rewrite value. apply JsNumFacts.fin_eq.
    assert (Qfloor (Qred (Qred (inject_Z k / p) * p) + (1 # 2)) = k) as ->;
      [| reflexivity].
    apply JsNumFacts.Qfloor_unique.
    + rewrite Qred_correct, back. lra.
    + rewrite Qred_correct, back, inject_Z_plus. change (inject_Z 1) with 1%Q. lra.
Qed.

End FormatProperties.

Lemma formatNum_rounds_witness :
  exists r : Q,
    @Utilities.formatNum Samples.host (Fin (2 # 3)) (Utilities.Digits (of_Z 1))
    = Fin r
    /\ (- (1 / (2 * 10)) <= r - (2 # 3))%Q /\ (r - (2 # 3) <= 1 / (2 * 10))%Q
    /\ @Utilities.formatNum Samples.host (Fin r) (Utilities.Digits (of_Z 1))
       = Fin r.
Proof.
  apply (@formatNum_rounds Samples.host (2 # 3) 10 (Utilities.Digits (of_Z 1)));
    [discriminate | reflexivity | reflexivity].
Defined.

(* ================================================================== *)
(** * Geometric primitives: bounds, points and geographical coordinates *)
(* ================================================================== *)

Module OrderFacts.

Local Open Scope num_scope.

(** Splits the comparisons of rationals that [Math.min] and [Math.max]
    make. *)
Ltac Qcases :=
  repeat match goal with
  | |- context [Qltb ?a ?b] => destruct (Qltb a b) eqn:?; cbn
  end.

Lemma Qleb_gt (a b : Q) : Qleb a b = false <-> (b < a)%Q.
Proof.
  unfold Qleb. destruct (Qcompare_spec a b) as [E | L | G]; split; intro h;
    try congruence; try lra; exfalso; lra.
Qed.

(** Splits every comparison of rationals in the goal, and settles the
    arithmetic. *)
Ltac Qdecide :=
  repeat match goal with
  | |- context [Qltb ?a ?b] => destruct (Qltb a b) eqn:?; cbn
  | |- context [Qleb ?a ?b] => destruct (Qleb a b) eqn:?; cbn
  end;
  try reflexivity;
  repeat match goal with
  | h : Qleb _ _ = false |- _ => apply Qleb_gt in h
  end;
  Qbool; try (exfalso; lra).

(** Splits the conjunctions of tests in the context. *)
Ltac split_andb :=
  repeat match goal with
  | h : _ && _ = true |- _ => apply andb_true_iff in h as [? ?]
  end.

Lemma leb_refl (a : Num) : isNaN a = false -> (a <=? a) = true.
Proof. destruct a; cbn; try discriminate; intros _; try reflexivity. Qbool. Qed.

Lemma leb_trans (a b c : Num) :
  (a <=? b) = true -> (b <=? c) = true -> (a <=? c) = true.
Proof.
  destruct a, b, c; cbn; intros; try discriminate; try reflexivity. Qbool.
Qed.

Lemma ltb_leb (a b : Num) : (a <? b) = true -> (a <=? b) = true.
Proof.
  destruct a, b; cbn; intros; try discriminate; try reflexivity. Qbool.
Qed.

Lemma leb_numeric (a b : Num) :
  (a <=? b) = true -> isNaN a = false /\ isNaN b = false.
Proof. destruct a, b; cbn; intros; try discriminate; now split. Qed.

(** [Math.min] and [Math.max] of two numbers bound them. *)
Lemma min_max_bound (u v : Num) :
  isNaN u = false -> isNaN v = false ->
  (JsNum.min v u <=? u) = true /\ (JsNum.min v u <=? v) = true
  /\ (u <=? JsNum.max v u) = true /\ (v <=? JsNum.max v u) = true.
Proof.
  destruct u, v; cbn; intros; try discriminate; repeat split;
    try reflexivity; Qcases; Qbool.
Qed.

(** [Math.min] is below whatever is above one of its arguments, and
    [Math.max] above whatever is below one. *)
Lemma min_below (u v w : Num) :
  isNaN u = false -> isNaN v = false ->
  (u <=? w) = true \/ (v <=? w) = true -> (JsNum.min v u <=? w) = true.
Proof.
  intros nu nv [h | h];
    destruct (min_max_bound u v nu nv) as (a & b & _ & _);
    eauto using leb_trans.
Qed.

Lemma max_above (u v w : Num) :
  isNaN u = false -> isNaN v = false ->
  (w <=? u) = true \/ (w <=? v) = true -> (w <=? JsNum.max v u) = true.
Proof.
  intros nu nv [h | h];
    destruct (min_max_bound u v nu nv) as (_ & _ & a & b);
    eauto using leb_trans.
Qed.

(** A comparison with NaN fails. *)
Lemma min_NaN (u v : Num) (w : Num) :
  isNaN u = true \/ isNaN v = true -> (w >=? JsNum.min v u) = false.
Proof. intros [h | h]; destruct u, v, w; cbn in *; congruence. Qed.

Lemma max_NaN (u v : Num) (w : Num) :
  isNaN u = true \/ isNaN v = true -> (w <=? JsNum.max v u) = false.
Proof. intros [h | h]; destruct u, v, w; cbn in *; congruence. Qed.

End OrderFacts.

Section BoundsProperties.

Import OrderFacts BoundsOps.
Local Open Scope num_scope.

Lemma numeric_coordinates (p : Point) :
  numeric p = true -> isNaN (x p) = false /\ isNaN (y p) = false.
Proof.
  unfold numeric. intro h. apply andb_true_iff in h as [a b].
  now apply negb_true_iff in a, b.
Qed.

(** X6.  [new Bounds(a, b)], made from two points without NaN, has its
    minimum corner below its maximum corner on both axes and contains both
    points, in whatever order they are given. *)
Theorem newBounds_contains_both (a b : Point) :
  numeric a = true -> numeric b = true ->
  ordered (newBounds a b) = true
  /\ contains (newBounds a b) a = true
  /\ contains (newBounds a b) b = true.
Proof.
  intros na nb.
  apply numeric_coordinates in na as [ax ay], nb as [bx by_].
  destruct (min_max_bound (x a) (x b) ax bx) as (x1 & x2 & x3 & x4).
  destruct (min_max_bound (y a) (y b) ay by_) as (y1 & y2 & y3 & y4).
  unfold ordered, contains, newBounds, JsNum.geb. cbn [min max x y].
  rewrite x1, x2, x3, x4, y1, y2, y3, y4.
  rewrite (leb_trans _ _ _ x1 x3), (leb_trans _ _ _ y1 y3).
  now repeat split.
Qed.

(** X7.  [extend] with a point always yields bounds with corners.  When the
    point has no NaN coordinate, these contain every point that the bounds
    contained before, and the new point as well provided that the corners
    before held no NaN.  When the point has a NaN coordinate, they contain
    no point at all. *)
Theorem extend_grows (b : Bounds) (p : Point) :
  exists c' : Corners,
    extend b p = Some c'
    /\ (numeric p = true ->
        (forall c, b = Some c ->
                   numeric (min c) = true /\ numeric (max c) = true) ->
        contains c' p = true)
    /\ (numeric p = true ->
        forall c q, b = Some c -> contains c q = true -> contains c' q = true)
    /\ (numeric p = false -> forall q, contains c' q = false).
Proof.
  destruct b as [c |]; cbn [extend]; eexists; (split; [reflexivity |]).
  - split; [| split].
    + intros np held. destruct (held c eq_refl) as [nmin nmax].
      apply numeric_coordinates in np as [px py], nmin as [ix iy],
                                   nmax as [ax ay].
      unfold contains, JsNum.geb. cbn [min max x y].
      destruct (min_max_bound (x (min c)) (x p) ix px) as (_ & x2 & _ & _).
      destruct (min_max_bound (x (max c)) (x p) ax px) as (_ & _ & _ & x4).
      destruct (min_max_bound (y (min c)) (y p) iy py) as (_ & y2 & _ & _).
      destruct (min_max_bound (y (max c)) (y p) ay py) as (_ & _ & _ & y4).
      now rewrite x2, x4, y2, y4.
    + intros np c0 q [= <-] inside.
      apply numeric_coordinates in np as [px py].
      unfold contains, JsNum.geb in *. cbn [min max x y].
      apply andb_true_iff in inside as [inside y_hi].
      apply andb_true_iff in inside as [inside y_lo].
      apply andb_true_iff in inside as [x_lo x_hi].
      pose proof (leb_numeric _ _ x_lo) as [n1 _].
      pose proof (leb_numeric _ _ x_hi) as [_ n2].
      pose proof (leb_numeric _ _ y_lo) as [n3 _].
      pose proof (leb_numeric _ _ y_hi) as [_ n4].
      rewrite (min_below (x (min c)) (x p) (x q)) by auto.
      rewrite (max_above (x (max c)) (x p) (x q)) by auto.
      rewrite (min_below (y (min c)) (y p) (y q)) by auto.
      rewrite (max_above (y (max c)) (y p) (y q)) by auto.
      reflexivity.
    + intros np q. unfold contains. cbn [min max x y].
      unfold numeric in np. apply andb_false_iff in np as [h | h];
        apply negb_false_iff in h.
      * rewrite (min_NaN (x (min c)) (x p) (x q)) by auto. reflexivity.
      * rewrite (min_NaN (y (min c)) (y p) (y q)) by auto.
        now rewrite !andb_false_r.
  - split; [| split].
    + intros np _. apply numeric_coordinates in np as [px py].
      unfold contains, JsNum.geb. cbn [min max x y].
      now rewrite !leb_refl.
    + intros _ c q [=].
    + intros np q. unfold contains, JsNum.geb. cbn [min max x y].
      unfold numeric in np. apply andb_false_iff in np as [h | h];
        apply negb_false_iff in h.
      * destruct (x p); try discriminate. now destruct (x q).
      * destruct (y p); try discriminate.
        destruct (y q); now rewrite !andb_false_r.
Qed.

(** X8.  Bounds that overlap intersect; both relations are symmetric; and
    bounds intersect the ordered bounds that they contain. *)
Theorem overlaps_intersects (b c : Corners) :
  (overlaps b c = true -> intersects b c = true)
  /\ intersects b c = intersects c b
  /\ overlaps b c = overlaps c b
  /\ (ordered c = true -> contains_bounds b c = true ->
      intersects b c = true).
Proof.
  unfold overlaps, intersects, contains_bounds, ordered, JsNum.geb, JsNum.gtb.
  cbv zeta. repeat split.
  - intro h. split_andb.
    repeat (apply andb_true_iff; split); now apply ltb_leb.
  - rewrite (andb_comm (x (min b) <=? x (max c))),
            (andb_comm (y (min b) <=? y (max c))). reflexivity.
  - rewrite (andb_comm (x (min b) <? x (max c))),
            (andb_comm (y (min b) <? y (max c))). reflexivity.
  - intros o h. split_andb.
    repeat (apply andb_true_iff; split); eauto using leb_trans.
Qed.

End BoundsProperties.

Lemma newBounds_contains_both_witness :
  let a := mkPoint (of_Z 5) (of_Z (-1)) in
  let b := mkPoint (of_Z 2) PosInf in
  ordered (newBounds a b) = true
  /\ contains (newBounds a b) a = true
  /\ contains (newBounds a b) b = true.
Proof.
  apply (@newBounds_contains_both (mkPoint (of_Z 5) (of_Z (-1)))
           (mkPoint (of_Z 2) PosInf)); reflexivity.
Defined.

Section PadProperties.

Import OrderFacts BoundsOps.
Local Open Scope num_scope.

Lemma finite_coordinates (p : Point) :
  finite p = true -> exists a b : Q, x p = Fin a /\ y p = Fin b.
Proof.
  unfold finite. destruct (x p), (y p); cbn; try discriminate.
  intros _. now eexists _, _.
Qed.

(** The buffer of [pad] on one axis is a finite number that is not
    negative. *)
Lemma buffer_nonneg (a c r : Q) :
  (0 <= r)%Q ->
  exists h : Q, abs (Fin a - Fin c) * Fin r = Fin h /\ (0 <= h)%Q.
Proof.
  intro pos. eexists. split; [reflexivity |].
  rewrite !Qred_correct.
  apply Qmult_le_0_compat; [apply Qabs_nonneg | exact pos].
Qed.

Lemma sub_buffer_below (a h : Q) : (0 <= h)%Q -> (Fin a - Fin h <=? Fin a) = true.
Proof.
  intro pos. cbn [JsNum.sub JsNum.leb fin]. Qbool. rewrite Qred_correct. lra.
Qed.

Lemma add_buffer_above (c h : Q) : (0 <= h)%Q -> (Fin c <=? Fin c + Fin h) = true.
Proof.
  intro pos. cbn [JsNum.add JsNum.leb fin]. Qbool. rewrite Qred_correct. lra.
Qed.

(** X9.  The center of ordered bounds with finite corners lies within them. *)
Theorem getCenter_inside (b : Corners) :
  finite (min b) = true -> finite (max b) = true -> ordered b = true ->
  contains b (getCenter b) = true.
Proof.
  intros fmin fmax o.
  destruct (finite_coordinates _ fmin) as (a1 & a2 & e1 & e2).
  destruct (finite_coordinates _ fmax) as (c1 & c2 & e3 & e4).
  unfold ordered, contains, getCenter, JsNum.geb in *. cbn [x y].
  rewrite e1, e2, e3, e4 in *. split_andb.
  cbn [JsNum.leb JsNum.add JsNum.div fin of_Z] in *.
  assert (Qeqb (inject_Z 2) 0 = false) as -> by reflexivity.
  cbn [JsNum.leb fin].
  repeat (apply andb_true_iff; split); Qbool; rewrite !Qred_correct;
    unfold Qdiv; change (/ inject_Z 2)%Q with (1 # 2)%Q; lra.
Qed.

(** X10.  In exact arithmetic, that is where the difference of the corners
    and its product with the ratio are taken without rounding and without
    overflow: padding ordered bounds with finite corners by a ratio that is
    not negative gives bounds that contain them.  (Where the difference
    overflows in the code's numbers and the ratio is 0, the padded corners
    are NaN.) *)
Theorem pad_contains (b : Corners) (r : Q) :
  finite (min b) = true -> finite (max b) = true -> ordered b = true ->
  (0 <= r)%Q ->
  contains_bounds (pad b (Fin r)) b = true.
Proof.
  intros fmin fmax o pos.
  destruct (finite_coordinates _ fmin) as (a1 & a2 & e1 & e2).
  destruct (finite_coordinates _ fmax) as (c1 & c2 & e3 & e4).
  unfold contains_bounds, pad, newBounds, JsNum.geb. cbn [min max x y].
  rewrite e1, e2, e3, e4.
  destruct (buffer_nonneg a1 c1 pos) as (h1 & -> & pos1).
  destruct (buffer_nonneg a2 c2 pos) as (h2 & -> & pos2).
  rewrite (min_below (Fin a1 - Fin h1) (Fin c1 + Fin h1) (Fin a1))
    by (try reflexivity; left; now apply sub_buffer_below).
  rewrite (max_above (Fin a1 - Fin h1) (Fin c1 + Fin h1) (Fin c1))
    by (try reflexivity; right; now apply add_buffer_above).
  rewrite (min_below (Fin a2 - Fin h2) (Fin c2 + Fin h2) (Fin a2))
    by (try reflexivity; left; now apply sub_buffer_below).
  rewrite (max_above (Fin a2 - Fin h2) (Fin c2 + Fin h2) (Fin c2))
    by (try reflexivity; right; now apply add_buffer_above).
  reflexivity.
Qed.

End PadProperties.

Lemma getCenter_inside_witness :
  contains (mkCorners (mkPoint (of_Z 0) (of_Z 10)) (mkPoint (of_Z 5) (of_Z 10)))
           (getCenter (mkCorners (mkPoint (of_Z 0) (of_Z 10))
                                 (mkPoint (of_Z 5) (of_Z 10))))
  = true.
Proof.
  apply (@getCenter_inside
           (mkCorners (mkPoint (of_Z 0) (of_Z 10)) (mkPoint (of_Z 5) (of_Z 10))));
    reflexivity.
Defined.

Lemma pad_contains_witness :
  let b := mkCorners (mkPoint (of_Z 0) (of_Z 10)) (mkPoint (of_Z 8) (of_Z 30)) in
  BoundsOps.contains_bounds (BoundsOps.pad b (Fin (1 # 2))) b = true.
Proof.
  apply (@pad_contains
           (mkCorners (mkPoint (of_Z 0) (of_Z 10)) (mkPoint (of_Z 8) (of_Z 30)))
           (1 # 2)); reflexivity || (cbn; lra).
Defined.

Section LatLngProperties.

Import OrderFacts LatLngOps.
Local Open Scope num_scope.

Lemma abs_sub_comm (a b : Num) : abs (a - b) = abs (b - a).
Proof.
  destruct a as [| | | p], b as [| | | q]; try reflexivity.
  cbn [JsNum.sub JsNum.abs fin]. apply JsNumFacts.fin_eq.
  rewrite !Qred_correct.
  setoid_replace (q - p)%Q with (- (p - q))%Q by ring.
  now rewrite Qabs_opp.
Qed.

Lemma abs_sub_self (a : Num) :
  abs (a - a) = if isFinite a then of_Z 0 else NaN.
Proof.
  destruct a as [| | | p]; try reflexivity.
  cbn [JsNum.sub JsNum.abs fin isFinite]. unfold of_Z.
  change (inject_Z 0) with (Qred 0). apply JsNumFacts.fin_eq.
  rewrite Qred_correct.
  setoid_replace (p - p)%Q with 0%Q by ring. reflexivity.
Qed.

(** X11.  [LatLng.equals] is symmetric; nothing equals a missing argument; and
    with a margin that is not negative, a LatLng equals itself exactly
    when both its coordinates are finite (the constructor admits infinite
    ones). *)
Theorem LatLng_equals_relation (l o : LatLng) (maxMargin : option Num) :
  equals l (Some o) maxMargin = equals o (Some l) maxMargin
  /\ equals l None maxMargin = false
  /\ ((of_Z 0 <=? margin_of maxMargin) = true ->
      equals l (Some l) maxMargin = isFinite (lat l) && isFinite (lng l)).
Proof.
  unfold equals. fold (margin_of maxMargin).
  split; [| split; [reflexivity |]].
  - now rewrite (abs_sub_comm (lat l)), (abs_sub_comm (lng l)).
  - intro margin. rewrite !abs_sub_self.
    destruct (isFinite (lat l)), (isFinite (lng l)); cbn [andb];
      try (destruct (margin_of maxMargin); reflexivity).
    destruct (margin_of maxMargin); try discriminate margin; try reflexivity.
    exact margin.
Qed.

End LatLngProperties.

Section LatLngBoundsProperties.

Import OrderFacts LatLngBounds.
Local Open Scope num_scope.



End LatLngBoundsProperties.

Section PointProperties.

Import PointOps.
Local Open Scope num_scope.

(** X13.  [trunc] drops the fractional part of a finite number: the result is
    the integer next to the number on the side of zero, less than one
    away from it; the other numbers are returned as they are. *)
Theorem trunc_toward_zero (v : Num) :
  match v with
  | Fin q =>
      exists k : Z,
        trunc v = of_Z k
        /\ ((0 <= q)%Q ->
            (0 <= k)%Z /\ (inject_Z k <= q)%Q /\ (q < inject_Z k + 1)%Q)
        /\ ((q <= 0)%Q ->
            (k <= 0)%Z /\ (q <= inject_Z k)%Q /\ (inject_Z k - 1 < q)%Q)
  | _ => trunc v = v
  end.
Proof.
  destruct v as [| | | q]; try reflexivity.
  unfold trunc, JsNum.gtb. cbn [JsNum.ltb of_Z].
  pose proof (Qfloor_le q) as f1. pose proof (Qlt_floor q) as f2.
  pose proof (Qle_ceiling q) as c1. pose proof (Qceiling_lt q) as c2.
  rewrite inject_Z_plus in f2. unfold Z.sub in c2. rewrite inject_Z_plus in c2.
  change (inject_Z 1) with 1%Q in f2.
  change (inject_Z (- (1))) with (- (1))%Q in c2.
  destruct (Qltb (inject_Z 0) q) eqn:positive;
    change (inject_Z 0) with 0%Q in positive; Qbool.
  - exists (Qfloor q). split; [reflexivity |]. split; intro sign.
    + repeat split; try lra.
      assert (inject_Z (-1) < inject_Z (Qfloor q))%Q as lt
          by (change (inject_Z (-1)) with (- (1))%Q; lra).
      rewrite <- Zlt_Qlt in lt. lia.
    + exfalso. lra.
  - exists (Qceiling q). split; [reflexivity |]. split; intro sign.
    + assert (q == 0)%Q as zero by lra.
      assert (Qceiling q = 0%Z) as -> by (rewrite zero; reflexivity).
      change (inject_Z 0) with 0%Q. repeat split; try lia; lra.
    + repeat split; try lra.
      assert (inject_Z (Qceiling q) < inject_Z 1)%Q as lt
          by (change (inject_Z 1) with 1%Q; lra).
      rewrite <- Zlt_Qlt in lt. lia.
Qed.

End PointProperties.

Section TransformationProperties.

Local Open Scope num_scope.

Lemma div_fin (p q : Q) : ~ (q == 0)%Q -> Fin p / Fin q = fin (p / q).
Proof.
  intro nz. cbn [JsNum.div].
  now assert (Qeqb q 0 = false) as -> by now apply JsNumFacts.Qeqb_neq.
Qed.

(** X14.  [untransform] undoes [transform]: on a point with finite coordinates,
    with a finite scale (a scale of zero counts as 1) and finite
    coefficients of which the two factors are not zero, the point comes
    back. *)
Theorem untransform_transform (a b c d px py : Q) (scale : Num) :
  ~ (a == 0)%Q -> ~ (c == 0)%Q -> isFinite scale = true ->
  let t := Crs.toTransformation (Fin a) (Fin b) (Fin c) (Fin d) in
  Crs.untransform t (CrsOps.transform t (mkPoint (Fin px) (Fin py)) scale) scale
  = mkPoint (fin px) (fin py).
Proof.
  intros nza nzc fs t.
  unfold Crs.untransform, CrsOps.transform, Crs._transform.
  assert (exists s : Q, Crs.scale_or_1 scale = Fin s /\ ~ (s == 0)%Q)
    as (s & -> & nzs).
  { unfold Crs.scale_or_1. destruct scale as [| | | s]; try discriminate.
    cbn [truthy]. destruct (Qeqb s 0) eqn:zero; cbn [negb].
    - exists 1%Q. split; [reflexivity | intro h; lra].
    - exists s. split; [reflexivity | now apply JsNumFacts.Qeqb_neq]. }
  cbn [Crs._a Crs._b Crs._c Crs._d t x y JsNum.mul JsNum.add JsNum.sub fin].
  unfold fin. rewrite !div_fin by assumption.
  unfold fin. cbn [JsNum.sub]. unfold fin. rewrite !div_fin by assumption.
  unfold fin. f_equal; f_equal; apply Qred_complete;
    rewrite !Qred_correct; field; auto.
Qed.

End TransformationProperties.

Lemma untransform_transform_witness :
  let t := Crs.toTransformation (Fin (1 # 2)) (Fin 3) (Fin (- (1 # 2))) (Fin 3) in
  Crs.untransform t (CrsOps.transform t (mkPoint (Fin 7) (Fin 9)) (of_Z 0))
                  (of_Z 0)
  = mkPoint (fin 7) (fin 9).
Proof.
  apply (@untransform_transform (1 # 2) 3 (- (1 # 2)) 3 7 9 (of_Z 0));
    [intro h; discriminate h | intro h; discriminate h | reflexivity].
Defined.

(* ================================================================== *)
(** * Map core: limiting and setting the view                           *)
(* ================================================================== *)

Section ViewProperties.

Import OrderFacts BoundsOps LatLngBounds MapView.
Local Open Scope num_scope.

Context `{Host}.

(** Where nothing sticks out on either side, nothing is moved. *)
Lemma rebound_inside (left right : Num) :
  (left <=? of_Z 0) = true -> (right <=? of_Z 0) = true ->
  _rebound left right = of_Z 0.
Proof.
  unfold _rebound, JsNum.gtb.
  destruct left as [| | | l], right as [| | | r]; cbn [JsNum.leb of_Z];
    intros hl hr; try discriminate; try reflexivity;
    change (inject_Z 0) with 0%Q in *; Qbool.
  - (* -Infinity and a finite number *)
    cbn [JsNum.add JsNum.ltb JsNum.ceil JsNum.floor JsNum.max of_Z].
    pose proof (Qfloor_le r) as f.
    assert (Qltb (inject_Z 0) (inject_Z (Qfloor r)) = false) as ->
        by (change (inject_Z 0) with 0%Q; Qbool).
    reflexivity.
  - cbn [JsNum.add JsNum.ltb JsNum.ceil JsNum.floor JsNum.max of_Z].
    pose proof (Qceiling_lt l) as c.
    assert (inject_Z (Qceiling l - 1) < inject_Z 0)%Q as lt
        by (change (inject_Z 0) with 0%Q; lra).
    rewrite <- Zlt_Qlt in lt.
    assert (Qltb (inject_Z 0) (inject_Z (Qceiling l)) = false) as ->.
    { Qbool. rewrite <- Zle_Qle. lia. }
    reflexivity.
  - cbn [JsNum.add JsNum.ltb JsNum.ceil JsNum.floor JsNum.max of_Z fin].
    assert (Qltb (inject_Z 0) (Qred (l + r)) = false) as ->
        by (change (inject_Z 0) with 0%Q; Qbool; rewrite Qred_correct; lra).
    pose proof (Qfloor_le r) as f. pose proof (Qceiling_lt l) as c.
    assert (inject_Z (Qceiling l - 1) < inject_Z 0)%Q as lt
        by (change (inject_Z 0) with 0%Q; lra).
    rewrite <- Zlt_Qlt in lt.
    assert (Qltb (inject_Z 0) (inject_Z (Qceiling l)) = false) as ->.
    { Qbool. rewrite <- Zle_Qle. lia. }
    assert (Qltb (inject_Z 0) (inject_Z (Qfloor r)) = false) as ->
        by (change (inject_Z 0) with 0%Q; Qbool).
    reflexivity.
Qed.

(** The offsets of a finite coordinate from bounds that hold it. *)
Lemma offsets_inside (lo hi a c : Num) :
  isFinite a = true -> isFinite c = true ->
  (lo <=? a) = true -> (c <=? hi) = true ->
  (lo - a <=? of_Z 0) = true /\ (neg (hi - c) <=? of_Z 0) = true.
Proof.
  destruct a as [| | | a], c as [| | | c]; try discriminate. intros _ _.
  destruct lo as [| | | lo], hi as [| | | hi]; cbn [JsNum.leb];
    intros hl hh; try discriminate; split; try reflexivity;
    cbn [JsNum.sub JsNum.neg JsNum.leb fin of_Z];
    change (inject_Z 0) with 0%Q; Qbool; rewrite !Qred_correct; lra.
Qed.

(** Bounds with finite corners that lie within other bounds rebound by
    nothing on either axis. *)
Lemma no_offset_inside (pmb pxBounds : Corners) :
  finite (min pxBounds) = true -> finite (max pxBounds) = true ->
  BoundsOps.contains_bounds pmb pxBounds = true ->
  mkPoint
    (_rebound (x (subtract (min pmb) (min pxBounds)))
              (neg (x (subtract (max pmb) (max pxBounds)))))
    (_rebound (y (subtract (min pmb) (min pxBounds)))
              (neg (y (subtract (max pmb) (max pxBounds)))))
  = mkPoint (of_Z 0) (of_Z 0).
Proof.
  intros fmin fmax inside.
  unfold BoundsOps.contains_bounds, JsNum.geb in inside. split_andb.
  unfold finite in fmin, fmax. split_andb.
  unfold subtract. cbn [x y].
  destruct (offsets_inside (x (min pmb)) (x (max pmb))
              (x (min pxBounds)) (x (max pxBounds))) as [lx rx]; auto.
  destruct (offsets_inside (y (min pmb)) (y (max pmb))
              (y (min pxBounds)) (y (max pxBounds))) as [ly ry]; auto.
  now rewrite (rebound_inside _ _ lx rx), (rebound_inside _ _ ly ry).
Qed.

(** X15.  Pixel bounds with finite corners that lie within the projected maximum
    bounds need no offset. *)
Theorem getBoundsOffset_inside (m : MapCore.Map) (pxBounds : Corners)
  (maxBounds : LatLngCorners) (zoom : option Num) :
  finite (min pxBounds) = true -> finite (max pxBounds) = true ->
  BoundsOps.contains_bounds (projected_bounds m maxBounds zoom) pxBounds = true ->
  _getBoundsOffset m pxBounds maxBounds zoom = mkPoint (of_Z 0) (of_Z 0).
Proof.
  intros fmin fmax inside. unfold _getBoundsOffset.
  fold (projected_bounds m maxBounds zoom). cbv zeta.
  now apply no_offset_inside.
Qed.

(** X16.  Without maximum bounds [_limitCenter] returns the center and leaves
    the map alone.  With maximum bounds whose projection contains the view
    around the center, it returns the center as well; the map then has its
    size cached, and nothing else written. *)
Theorem limitCenter_inside (m : MapCore.Map) (center : LatLng)
  (zoom : option Num) (bounds : LatLngCorners) :
  _limitCenter center zoom None m = (m, Return center)
  /\ (let viewBounds := view_bounds m center zoom in
      finite (min viewBounds) = true -> finite (max viewBounds) = true ->
      BoundsOps.contains_bounds (projected_bounds m bounds zoom) viewBounds = true ->
      _limitCenter center zoom (Some bounds) m
      = (fst (MapCore.getSize m), Return center)).
Proof.
  split; [reflexivity |].
  intros viewBounds fmin fmax inside.
  unfold _limitCenter, bind, get.
  destruct (MapCore.getSize m) as [m' [size | e]] eqn:sized;
    [| unfold MapCore.getSize, bind, get, ret, modify in sized;
       destruct (match MapCore._size m with
                 | Some _ => MapCore._sizeChanged m
                 | None => true
                 end); discriminate sized].
  cbn [fst].
  assert (forall latlng, MapCore.project m' latlng zoom
                         = MapCore.project m latlng zoom) as same.
  { intro latlng.
    unfold MapCore.getSize, bind, get, ret, modify in sized.
    destruct (match MapCore._size m with
              | Some _ => MapCore._sizeChanged m
              | None => true
              end); inversion sized; reflexivity. }
  assert (_getBoundsOffset m' viewBounds bounds zoom
          = mkPoint (of_Z 0) (of_Z 0)) as zero.
  { unfold _getBoundsOffset. cbv zeta.
    apply no_offset_inside; try assumption.
    unfold projected_bounds in inside. now rewrite !same. }
  assert (viewBounds
          = newBounds
              (subtract (MapCore.project m center zoom)
                        (divideBy size (of_Z 2)))
              (add (MapCore.project m center zoom)
                   (divideBy size (of_Z 2)))) as <-.
  { subst viewBounds. unfold view_bounds, snd_value. now rewrite sized. }
  rewrite zero. reflexivity.
Qed.

End ViewProperties.

Lemma getBoundsOffset_inside_witness :
  @MapView._getBoundsOffset Samples.host Samples.loaded_map
    (mkCorners (mkPoint (of_Z 100) (of_Z 600)) (mkPoint (of_Z 900) (of_Z 1000)))
    (LatLngBounds.mkLatLngCorners (mkLatLng (of_Z (-80)) (of_Z (-170)) None)
                                  (mkLatLng (of_Z 80) (of_Z 170) None))
    (Some (of_Z 2))
  = mkPoint (of_Z 0) (of_Z 0).
Proof.
  apply (@getBoundsOffset_inside Samples.host); vm_compute; reflexivity.
Defined.

Lemma limitCenter_inside_witness :
  let m := Samples.loaded_map in
  let center := mkLatLng (of_Z 0) (of_Z 0) None in
  let bounds :=
    LatLngBounds.mkLatLngCorners (mkLatLng (of_Z (-80)) (of_Z (-170)) None)
                                 (mkLatLng (of_Z 40) (of_Z 170) None) in
  @MapView._limitCenter Samples.host center (Some (of_Z 10)) (Some bounds) m
  = (fst (MapCore.getSize m), Return center).
Proof.
  apply (proj2 (@limitCenter_inside Samples.host Samples.loaded_map
                  (mkLatLng (of_Z 0) (of_Z 0) None) (Some (of_Z 10))
                  (LatLngBounds.mkLatLngCorners
                     (mkLatLng (of_Z (-80)) (of_Z (-170)) None)
                     (mkLatLng (of_Z 40) (of_Z 170) None))));
    vm_compute; reflexivity.
Defined.

Section ResetProperties.

Import MapView.
Local Open Scope list_scope.

Context `{Host}.

(** ** Running a sequence of calls *)

Lemma run_bind {S A B} (c : Js S A) (k : A -> Js S B) (s s' : S) (a : A) :
  c s = (s', Return a) -> bind c k s = k a s'.
Proof. intro e. unfold bind. now rewrite e. Qed.

Lemma run_on_view_map {A} (c : Js MapCore.Map A) (m m' : MapCore.Map)
  (log : list MapEvent) (a : A) :
  c m = (m', Return a) ->
  on_view_map c (mkView m log) = (mkView m' log, Return a).
Proof. intro e. unfold on_view_map. cbn [view_map view_fired]. now rewrite e. Qed.

Lemma run_when (b : bool) (e : MapEvent) (m : MapCore.Map)
  (log : list MapEvent) :
  when b (fire e) (mkView m log)
  = (mkView m (log ++ if b then [e] else []), Return tt).
Proof. destruct b; cbn; [reflexivity | now rewrite app_nil_r]. Qed.

Lemma run_fire (e : MapEvent) (m : MapCore.Map) (log : list MapEvent) :
  fire e (mkView m log) = (mkView m (log ++ [e]), Return tt).
Proof. reflexivity. Qed.

(** ** The calls that [_resetView] makes *)

(** [getSize] returns the size, after caching it where it has to. *)
Lemma getSize_returns (m : MapCore.Map) :
  exists (m' : MapCore.Map) (size : Point),
    MapCore.getSize m = (m', Return size)
    /\ (m' = m \/ exists p, m' = MapCore.set_size p m).
Proof.
  unfold MapCore.getSize, bind, get, modify, ret.
  destruct (match MapCore._size m with
            | Some _ => MapCore._sizeChanged m
            | None => true
            end); eexists _, _; (split; [reflexivity |]); eauto.
Qed.

Lemma moveStart_result (zoomChanged noMoveStart : bool) (m : MapCore.Map)
  (log : list MapEvent) :
  _moveStart zoomChanged noMoveStart (mkView m log)
  = (mkView m (log ++ (if zoomChanged then [Fired.zoomstart] else [])
                   ++ (if noMoveStart then [] else [Fired.movestart])),
     Return tt).
Proof.
  unfold _moveStart.
  rewrite (run_bind _ _ _ (run_when zoomChanged Fired.zoomstart m log)).
  rewrite run_when, <- app_assoc. now destruct noMoveStart.
Qed.

Lemma moveEnd_result (zoomChanged : bool) (m : MapCore.Map)
  (log : list MapEvent) :
  _moveEnd zoomChanged (mkView m log)
  = (mkView m (log ++ (if zoomChanged then [Fired.zoomend] else [])
                   ++ [Fired.moveend]),
     Return tt).
Proof.
  unfold _moveEnd.
  rewrite (run_bind _ _ _ (run_when zoomChanged Fired.zoomend m log)).
  now rewrite run_fire, <- app_assoc.
Qed.

(** [_move] to a zoom that is given: the map is the one with the zoom and
    the center stored, its size cached where it had to be, and a pixel
    origin. *)
Lemma move_result (center : LatLng) (zoom : Num) (m : MapCore.Map)
  (log : list MapEvent) :
  exists (m' : MapCore.Map) (origin : Point),
    _move center (Some zoom) false false (mkView m log)
    = (mkView (set_pixelOrigin origin m')
              (log ++ (if zoom_differs (MapCore._zoom m) zoom
                       then [Fired.zoom] else [])
                   ++ [Fired.move]),
       Return tt)
    /\ (m' = set_lastCenter (Some center) (set_zoom (Some zoom) m)
        \/ exists p,
             m' = MapCore.set_size p
                    (set_lastCenter (Some center) (set_zoom (Some zoom) m))).
Proof.
  set (m2 := set_lastCenter (Some center) (set_zoom (Some zoom) m)).
  destruct (getSize_returns m2) as (m' & size & sized & frame).
  exists m'. eexists. split; [| exact frame].
  unfold _move.
  rewrite (run_bind _ _ (mkView m log) (s' := mkView m log) (a := mkView m log))
    by reflexivity.
  cbn [view_map].
  rewrite (run_bind _ _ _
             (run_on_view_map (modify (set_zoom (Some zoom))) m log
                              (m' := set_zoom (Some zoom) m) (a := tt) eq_refl)).
  rewrite (run_bind _ _ _
             (run_on_view_map (modify (set_lastCenter (Some center)))
                              (set_zoom (Some zoom) m) log
                              (m' := m2) (a := tt) eq_refl)).
  assert (_getNewPixelOrigin center None m2
          = (m', Return (round (add (subtract (MapCore.project m' center None)
                                              (divideBy size (of_Z 2)))
                                    (MapCore._getMapPanePos m')))))
    as origin.
  { unfold _getNewPixelOrigin.
    rewrite (run_bind _ _ _ sized). reflexivity. }
  rewrite (run_bind _ _ _ (run_on_view_map _ m2 log origin)).
  rewrite (run_bind _ _ _
             (run_on_view_map (modify (set_pixelOrigin _)) m' log
                              (a := tt) eq_refl)).
  cbn [negb]. rewrite orb_false_r.
  rewrite (run_bind _ _ _ (run_when _ Fired.zoom _ log)).
  now rewrite run_fire, <- app_assoc.
Qed.

(** The zoom limits are options of the map, which setting a view does not
    write. *)
Lemma limitZoom_set_loaded (m : MapCore.Map) (p : Point) (zoom : Num) :
  MapCore._limitZoom (set_loaded true (set_mapPane_pos p m)) zoom
  = MapCore._limitZoom m zoom.
Proof. reflexivity. Qed.

(** The center of a loaded map whose pane is at rest is the one stored. *)
Lemma getCenter_at_rest (m : MapCore.Map) (center : LatLng) :
  MapCore._loaded m = true -> MapCore._lastCenter m = Some center ->
  MapCore.mapPane_pos m = mkPoint (of_Z 0) (of_Z 0) ->
  MapCore.getCenter m = (m, Return center).
Proof.
  intros loaded stored rest.
  unfold MapCore.getCenter, MapCore._checkIfLoaded, bind, get, throw, ret.
  rewrite loaded. cbn [negb]. rewrite stored.
  unfold MapCore._moved, MapCore._getMapPanePos. now rewrite rest.
Qed.

(** X17.  The view set is the view read back: after [_resetView(center, zoom)]
    the map is loaded, [getZoom] returns the zoom as [_limitZoom] limits
    it, and [getCenter] returns the center (a copy of it, which the
    constructor makes since it holds no NaN); the events are fired in the
    order of [reset_events], the zoom events only if the zoom changed,
    [load] only on a map that had no view. *)
Theorem resetView_sets_the_view (m : MapCore.Map) (log : list MapEvent)
  (center : LatLng) (zoom : Num) (noMoveStart : bool) :
  isNaN (lat center) = false -> isNaN (lng center) = false ->
  let r := _resetView center zoom noMoveStart (mkView m log) in
  let m' := view_map (fst r) in
  let limited := MapCore._limitZoom m zoom in
  snd r = Return tt
  /\ MapCore._loaded m' = true
  /\ MapCore.getZoom m' = (m', Return (Some limited))
  /\ MapCore.getCenter m' = (m', Return center)
  /\ LatLngOps.clone center = Return center
  /\ view_fired (fst r)
     = log ++ reset_events (zoom_differs (MapCore._zoom m) limited)
                           noMoveStart (negb (MapCore._loaded m)).
Proof.
  intros nlat nlng r m' limited.
  assert (LatLngOps.clone center = Return center) as copy.
  { unfold LatLngOps.clone, newLatLng. rewrite nlat, nlng.
    now destruct center. }
  set (m1 := set_loaded true (set_mapPane_pos (mkPoint (of_Z 0) (of_Z 0)) m)).
  destruct (move_result center limited m1
              (log ++ [Fired.viewprereset]
                   ++ (if zoom_differs (MapCore._zoom m) limited
                       then [Fired.zoomstart] else [])
                   ++ (if noMoveStart then [] else [Fired.movestart])))
    as (m3 & origin & moved & frame).
  assert (r = (mkView (set_pixelOrigin origin m3)
                      (log ++ reset_events
                                (zoom_differs (MapCore._zoom m) limited)
                                noMoveStart (negb (MapCore._loaded m))),
               Return tt)) as result.
  { subst r. unfold _resetView.
    rewrite (run_bind _ _ _
               (run_on_view_map (modify (set_mapPane_pos _)) m log
                                (a := tt) eq_refl)).
    rewrite (run_bind _ _ _ (s' := mkView _ log) (a := mkView _ log) eq_refl).
    cbn [view_map].
    rewrite (run_bind _ _ _
               (run_on_view_map (modify (set_loaded true)) _ log
                                (m' := m1) (a := tt) eq_refl)).
    rewrite (run_bind _ _ _ (s' := mkView m1 log) (a := mkView m1 log) eq_refl).
    cbn [view_map]. unfold m1 at 1. rewrite limitZoom_set_loaded.
    fold limited.
    rewrite (run_bind _ _ _ (run_fire Fired.viewprereset m1 log)).
    rewrite (run_bind _ _ _ (s' := mkView m1 _) (a := mkView m1 _) eq_refl).
    cbn [view_map].
    change (MapCore._zoom m1) with (MapCore._zoom m).
    rewrite (run_bind _ _ _ (moveStart_result _ noMoveStart m1 _)).
    rewrite <- !app_assoc.
    rewrite (run_bind _ _ _ moved).
    rewrite (run_bind _ _ _ (moveEnd_result _ _ _)).
    rewrite (run_bind _ _ _ (run_fire Fired.viewreset _ _)).
    rewrite run_when. unfold reset_events.
    change (MapCore._loaded
              (set_mapPane_pos (mkPoint (of_Z 0) (of_Z 0)) m))
      with (MapCore._loaded m).
    change (MapCore._zoom m1) with (MapCore._zoom m).
    now rewrite <- !app_assoc. }
  subst m'. rewrite result. cbn [fst snd view_map view_fired].
  assert (MapCore._loaded m3 = true /\ MapCore._zoom m3 = Some limited
          /\ MapCore._lastCenter m3 = Some center
          /\ MapCore.mapPane_pos m3 = mkPoint (of_Z 0) (of_Z 0))
    as (loaded & zoomed & centred & rest)
    by (destruct frame as [-> | [p ->]]; now repeat split).
  split; [reflexivity |]. split; [exact loaded |].
  split; [unfold MapCore.getZoom, bind, get, ret;
          cbn [MapCore._zoom set_pixelOrigin]; now rewrite zoomed |].
  split; [now apply getCenter_at_rest |].
  split; [exact copy | reflexivity].
Qed.

End ResetProperties.

Lemma resetView_sets_the_view_witness :
  let center := mkLatLng (of_Z 10) (of_Z 20) None in
  let r := @MapView._resetView Samples.host center (of_Z 5) false
             (MapView.mkView Samples.snapping_map []) in
  let m' := MapView.view_map (fst r) in
  let limited := @MapCore._limitZoom Samples.host Samples.snapping_map (of_Z 5) in
  snd r = Return tt
  /\ MapCore._loaded m' = true
  /\ MapCore.getZoom m' = (m', Return (Some limited))
  /\ @MapCore.getCenter Samples.host m' = (m', Return center)
  /\ LatLngOps.clone center = Return center
  /\ MapView.view_fired (fst r)
     = ([] ++ reset_events
                (MapView.zoom_differs (MapCore._zoom Samples.snapping_map) limited)
                false (negb (MapCore._loaded Samples.snapping_map)))%list.
Proof.
  apply (@resetView_sets_the_view Samples.host Samples.snapping_map []
           (mkLatLng (of_Z 10) (of_Z 20) None) (of_Z 5) false); reflexivity.
Defined.

(* ================================================================== *)
(** * The grid layer: removing tiles                                    *)
(* ================================================================== *)

Module DeleteFacts.

Import GridLayer StoreFacts.

Lemma lookup_delete_same (ts : Tiles) (key : string) :
  lookup key (delete key ts) = None.
Proof.
  unfold delete.
  induction ts as [| [k t] ts IH]; cbn; [reflexivity |].
  destruct (String.eqb_spec k key) as [-> | ne]; cbn; [exact IH |].
  destruct (String.eqb_spec k key); [congruence | exact IH].
Qed.

Lemma lookup_delete_other (ts : Tiles) (key k : string) :
  k <> key -> lookup k (delete key ts) = lookup k ts.
Proof.
  intro ne. unfold delete.
  induction ts as [| [k' t] ts IH]; cbn; [reflexivity |].
  destruct (String.eqb_spec k' key) as [-> | ne']; cbn.
  - destruct (String.eqb_spec key k); [congruence | exact IH].
  - now rewrite IH.
Qed.

Lemma for_in_tiles_ext `{Host} (body body' : string -> Layer -> Layer)
  (s : Layer) :
  (forall key s, lookup key (_tiles s) <> None -> body key s = body' key s) ->
  for_in_tiles body s = for_in_tiles body' s.
Proof.
  intro same. unfold for_in_tiles.
  generalize (keys (_tiles s)). intro ks. revert s.
  induction ks as [| key ks IH]; intro s; cbn [fold_left]; [reflexivity |].
  destruct (lookup key (_tiles s)) eqn:found; [| apply IH].
  rewrite same by congruence. apply IH.
Qed.

End DeleteFacts.

Section RemovalProperties.

Import GridLayer Marks StoreFacts RemovalFacts DeleteFacts.
Local Open Scope list_scope.

Context `{Host}.

(** X18.  [_removeTile], called with the key of tile coordinates that are
    below 2^50 in magnitude, does nothing when the store holds no tile
    under that key.  When it holds one, the tile is gone afterwards, the
    tiles under the other keys stay as they are, one [tileunload] event is
    fired, with the coordinates read back from the key, which are those
    that made it, and removing again changes nothing.  (The key of tile
    coordinates is none of the names that the store inherits, such as
    [constructor], for which the source goes on to remove an element that
    is not there.) *)
Theorem removeTile_removes_one (s : Layer) (c : TileCoords) :
  exact_coords c = true ->
  let key := _tileCoordsToKey c in
  (lookup key (_tiles s) = None -> _removeTile key s = s)
  /\ (forall t, lookup key (_tiles s) = Some t ->
        lookup key (_tiles (_removeTile key s)) = None
        /\ (forall k, k <> key ->
              lookup k (_tiles (_removeTile key s)) = lookup k (_tiles s))
        /\ fired (_removeTile key s) = fired s ++ [tileunload (to_Coords c)]
        /\ _removeTile key (_removeTile key s) = _removeTile key s).
Proof.
  intros _ key. split.
  - intro absent. unfold _removeTile. now rewrite absent.
  - intros t present.
    assert (_keyToTileCoords key = to_Coords c) as read_back.
    { unfold key. destruct c as [x y z]. apply key_round_trip. }
    assert (lookup key (_tiles (_removeTile key s)) = None) as gone.
    { rewrite (removeTile_present s key present). cbn [_tiles fire set_tiles].
      apply lookup_delete_same. }
    repeat split.
    + exact gone.
    + intros k ne. rewrite (removeTile_present s key present).
      cbn [_tiles fire set_tiles]. now apply lookup_delete_other.
    + rewrite (removeTile_present s key present). cbn [fired fire set_tiles].
      unfold unload. now rewrite read_back.
    + unfold _removeTile at 1. now rewrite gone.
Qed.

(** A loop over the store that removes the tiles chosen by a test: they
    are removed in the order of the store, with a [tileunload] event
    each. *)
Lemma remove_where (p : Tile -> bool) (s : Layer) :
  NoDup (keys (_tiles s)) ->
  for_in_tiles
    (fun key s =>
       match lookup key (_tiles s) with
       | Some tile => if p tile then _removeTile key s else s
       | None => s
       end) s
  = fire_all
      (map unload (keys (filter (fun e => p (snd e)) (_tiles s))))
      (set_tiles (filter (fun e => negb (p (snd e))) (_tiles s)) s).
Proof.
  unfold for_in_tiles.
  assert (forall rest kept s,
    _tiles s = (kept ++ rest)%list ->
    NoDup (keys (kept ++ rest)) ->
    fold_left
      (fun s key =>
         match lookup key (_tiles s) with
         | Some _ =>
             match lookup key (_tiles s) with
             | Some tile => if p tile then _removeTile key s else s
             | None => s
             end
         | None => s
         end) (keys rest) s
    = fire_all
        (map unload (keys (filter (fun e => p (snd e)) rest)))
        (set_tiles (kept ++ filter (fun e => negb (p (snd e))) rest) s)) as loop.
  { induction rest as [| [k t] rest IH]; intros kept s' held nodup.
    - cbn. rewrite app_nil_r in *. now rewrite <- held, set_tiles_same.
    - rewrite keys_app in nodup. cbn [keys map fst] in nodup.
      pose proof (NoDup_remove _ _ _ nodup) as [nodup' fresh].
      rewrite <- keys_app in nodup'.
      assert (~ In k (keys kept)) as fresh_kept
          by (intro i; apply fresh, in_or_app; now left).
      assert (~ In k (keys rest)) as fresh_rest
          by (intro i; apply fresh, in_or_app; now right).
      change (keys ((k, t) :: rest)) with (k :: keys rest).
      cbn [fold_left]. rewrite held.
      rewrite (@lookup_app_fresh kept ((k, t) :: rest) k fresh_kept).
      cbn [lookup]. rewrite String.eqb_refl. cbn [filter snd].
      destruct (p t) eqn:chosen; cbn [negb].
      + assert (lookup k (_tiles s') = Some t) as present.
        { rewrite held, (@lookup_app_fresh kept ((k, t) :: rest) k fresh_kept).
          cbn [lookup]. now rewrite String.eqb_refl. }
        rewrite (removeTile_present s' k present), held.
        rewrite (@delete_middle kept rest k t fresh_kept fresh_rest).
        rewrite (IH kept); [reflexivity | reflexivity | exact nodup'].
      + rewrite (IH (kept ++ [(k, t)])%list s').
        * now rewrite <- app_assoc.
        * now rewrite held, <- app_assoc.
        * rewrite <- app_assoc. cbn [app]. rewrite keys_app.
          cbn [keys map fst]. exact nodup. }
  intro nodup. apply (loop (_tiles s) [] s); [reflexivity | exact nodup].
Qed.

Lemma filter_all {A} (l : list A) : filter (fun _ => true) l = l.
Proof. induction l as [| a l IH]; cbn; [reflexivity | now rewrite IH]. Qed.

Lemma filter_none {A} (l : list A) : filter (fun _ => false) l = [].
Proof. induction l as [| a l IH]; cbn; [reflexivity | exact IH]. Qed.

Lemma removeAllTiles_result (s : Layer) :
  NoDup (keys (_tiles s)) ->
  _removeAllTiles s
  = fire_all (map unload (keys (_tiles s))) (set_tiles [] s).
Proof.
  intro nodup. unfold _removeAllTiles.
  rewrite (for_in_tiles_ext _
             (fun key s =>
                match lookup key (_tiles s) with
                | Some tile => if (fun _ => true) tile then _removeTile key s
                               else s
                | None => s
                end)).
  - rewrite (remove_where (fun _ => true) s nodup). cbn [negb].
    now rewrite filter_all, filter_none.
  - intros key s' present. now destruct (lookup key (_tiles s')).
Qed.

(** X19.  [_removeAllTiles] leaves the store empty and fires one [tileunload]
    event for each tile that it held, in the order of the store; the other
    fields of the layer are untouched. *)
Theorem removeAllTiles_empties (s : Layer) :
  NoDup (keys (_tiles s)) ->
  _tiles (_removeAllTiles s) = []
  /\ fired (_removeAllTiles s)
     = fired s ++ map (fun key => tileunload (_keyToTileCoords key))
                      (keys (_tiles s))
  /\ _removeAllTiles s
     = set_tiles [] (fire_all (map unload (keys (_tiles s))) s).
Proof.
  intro nodup. rewrite (removeAllTiles_result s nodup).
  rewrite tiles_fire_all, fired_fire_all. repeat split.
  generalize (map unload (keys (_tiles s))). intro events. revert s nodup.
  induction events as [| e events IH]; intros s nodup; [reflexivity |].
  cbn [fire_all fold_left]. unfold fire_all in IH.
  change (fire e (set_tiles [] s)) with (set_tiles [] (fire e s)).
  generalize (fire e s). clear. revert events.
  induction events as [| e events IH]; intro s; [reflexivity |].
  cbn [fold_left].
  change (fire e (set_tiles [] s)) with (set_tiles [] (fire e s)).
  apply IH.
Qed.

(** X20.  [_removeTilesAtZoom] removes the tiles of the zoom level given and no
    other: the store keeps the tiles of the other levels, in their order,
    and a [tileunload] event is fired for each tile removed. *)
Theorem removeTilesAtZoom_removes_the_level (zoom : Num) (s : Layer) :
  NoDup (keys (_tiles s)) ->
  let at_zoom (e : string * Tile) := (of_Z (tz (coords (snd e))) === zoom)%num in
  _tiles (TileLayer._removeTilesAtZoom zoom s)
  = filter (fun e => negb (at_zoom e)) (_tiles s)
  /\ fired (TileLayer._removeTilesAtZoom zoom s)
     = fired s ++ map (fun key => tileunload (_keyToTileCoords key))
                      (keys (filter at_zoom (_tiles s))).
Proof.
  intros nodup at_zoom. unfold TileLayer._removeTilesAtZoom.
  rewrite (for_in_tiles_ext _
             (fun key s =>
                match lookup key (_tiles s) with
                | Some tile =>
                    if (fun t => (of_Z (tz (coords t)) === zoom)%num) tile
                    then _removeTile key s else s
                | None => s
                end)).
  - rewrite (remove_where _ s nodup).
    rewrite tiles_fire_all, fired_fire_all. now split.
  - intros key s' present. destruct (lookup key (_tiles s')) as [t |];
      [| reflexivity].
    now destruct (of_Z (tz (coords t)) === zoom)%num.
Qed.

(** X21.  A prune pass made while the zoom of the map is outside the zoom limits
    of the layer removes every tile, with a [tileunload] event each; and a
    prune pass on a layer that is on no map does nothing. *)
Theorem pruneTiles_outside_zoom_limits (s : Layer) (m : MapCore.Map) :
  (_map s = None -> _pruneTiles s = s)
  /\ (_map s = Some m ->
      NoDup (keys (_tiles s)) ->
      (MapCore.to_number (MapCore._zoom m)
         >? MapCore.to_number (options_maxZoom s))%num
      || (MapCore.to_number (MapCore._zoom m)
            <? MapCore.to_number (options_minZoom s))%num
      = true ->
      _tiles (_pruneTiles s) = []
      /\ fired (_pruneTiles s)
         = fired s ++ map (fun key => tileunload (_keyToTileCoords key))
                          (keys (_tiles s))).
Proof.
  split.
  - intro detached. unfold _pruneTiles. now rewrite detached.
  - intros attached nodup outside. unfold _pruneTiles.
    rewrite attached, outside.
    rewrite (removeAllTiles_result s nodup), tiles_fire_all, fired_fire_all.
    now split.
Qed.

End RemovalProperties.

Lemma removeTile_removes_one_witness :
  let s := Samples.zooming_layer in
  let c := GridLayer.mkTileCoords 0 0 2 in
  let key := GridLayer._tileCoordsToKey c in
  GridLayer.lookup key (GridLayer._tiles (@GridLayer._removeTile Samples.host key s))
  = None
  /\ (forall k, k <> key ->
        GridLayer.lookup k
          (GridLayer._tiles (@GridLayer._removeTile Samples.host key s))
        = GridLayer.lookup k (GridLayer._tiles s))
  /\ GridLayer.fired (@GridLayer._removeTile Samples.host key s)
     = (GridLayer.fired s ++ [GridLayer.tileunload (GridLayer.to_Coords c)])%list
  /\ @GridLayer._removeTile Samples.host key
       (@GridLayer._removeTile Samples.host key s)
     = @GridLayer._removeTile Samples.host key s.
Proof.
  apply (proj2 (@removeTile_removes_one Samples.host Samples.zooming_layer
                  (GridLayer.mkTileCoords 0 0 2) eq_refl)
           (GridLayer.mkTile (GridLayer.mkTileCoords 0 0 2) true None false false)).
  reflexivity.
Defined.

Lemma pruneTiles_outside_zoom_limits_witness :
  let s := Samples.limited_layer in
  GridLayer._tiles (@GridLayer._pruneTiles Samples.host s) = []
  /\ GridLayer.fired (@GridLayer._pruneTiles Samples.host s)
     = (GridLayer.fired s
        ++ map (fun key => GridLayer.tileunload
                             (@GridLayer._keyToTileCoords Samples.host key))
               (GridLayer.keys (GridLayer._tiles s)))%list.
Proof.
  apply (proj2 (@pruneTiles_outside_zoom_limits Samples.host
                  Samples.limited_layer Samples.loaded_map));
    [reflexivity | | reflexivity].
  vm_compute. repeat constructor; cbn; intuition discriminate.
Defined.

Lemma removeAllTiles_empties_witness :
  let s := Samples.zooming_layer in
  GridLayer._tiles (@GridLayer._removeAllTiles Samples.host s) = []
  /\ GridLayer.fired (@GridLayer._removeAllTiles Samples.host s)
     = (GridLayer.fired s
        ++ map (fun key => GridLayer.tileunload
                             (@GridLayer._keyToTileCoords Samples.host key))
               (GridLayer.keys (GridLayer._tiles s)))%list
  /\ @GridLayer._removeAllTiles Samples.host s
     = GridLayer.set_tiles []
         (@Marks.fire_all
            (map (@Marks.unload Samples.host) (GridLayer.keys (GridLayer._tiles s)))
            s).
Proof.
  apply (@removeAllTiles_empties Samples.host Samples.zooming_layer).
  vm_compute. repeat constructor; cbn; intuition discriminate.
Defined.

Lemma removeTilesAtZoom_removes_the_level_witness :
  let s := Samples.zooming_layer in
  let at_zoom (e : string * GridLayer.Tile) :=
    (of_Z (GridLayer.tz (GridLayer.coords (snd e))) === of_Z 1)%num in
  GridLayer._tiles (@TileLayer._removeTilesAtZoom Samples.host (of_Z 1) s)
  = filter (fun e => negb (at_zoom e)) (GridLayer._tiles s)
  /\ GridLayer.fired (@TileLayer._removeTilesAtZoom Samples.host (of_Z 1) s)
     = (GridLayer.fired s
        ++ map (fun key => GridLayer.tileunload
                             (@GridLayer._keyToTileCoords Samples.host key))
               (GridLayer.keys (filter at_zoom (GridLayer._tiles s))))%list.
Proof.
  apply (@removeTilesAtZoom_removes_the_level Samples.host (of_Z 1)
           Samples.zooming_layer).
  vm_compute. repeat constructor; cbn; intuition discriminate.
Defined.

(* ================================================================== *)
(** * The grid layer: zoom clamping, valid tiles, the tile range        *)
(* ================================================================== *)

Section GridProperties.

Import GridLayer OrderFacts.
Local Open Scope num_scope.

(** X22.  With native zoom limits [lo <= hi], [_clampZoom] returns a zoom within
    them, leaves a zoom within them as it is, and is idempotent; without
    native zoom limits it returns its argument. *)
Theorem clampZoom_within (s : Layer) (zoom lo hi : Num) :
  (options_minNativeZoom s = None -> options_maxNativeZoom s = None ->
   _clampZoom s zoom = zoom)
  /\ (options_minNativeZoom s = Some lo -> options_maxNativeZoom s = Some hi ->
      (lo <=? hi) = true -> isNaN zoom = false ->
      ((lo <=? _clampZoom s zoom) && (_clampZoom s zoom <=? hi)) = true
      /\ _clampZoom s (_clampZoom s zoom) = _clampZoom s zoom
      /\ (((lo <=? zoom) && (zoom <=? hi)) = true -> _clampZoom s zoom = zoom)).
Proof.
  unfold _clampZoom. split.
  - now intros -> ->.
  - intros -> -> order number.
    destruct lo as [| | | lo], hi as [| | | hi], zoom as [| | | z];
      cbn in *; try discriminate; repeat split; try reflexivity;
      Qcases; rewrite ?andb_true_iff; try intros [? ?]; try intro;
      repeat split; try reflexivity; try discriminate; Qbool;
      try (exfalso; lra).
Qed.

End GridProperties.

Lemma clampZoom_within_witness :
  let s := Samples.limited_layer in
  let zoom := of_Z 5 in
  ((of_Z 1 <=? GridLayer._clampZoom s zoom)
   && (GridLayer._clampZoom s zoom <=? of_Z 3))%num = true
  /\ GridLayer._clampZoom s (GridLayer._clampZoom s zoom)
     = GridLayer._clampZoom s zoom
  /\ (((of_Z 1 <=? zoom) && (zoom <=? of_Z 3))%num = true ->
      GridLayer._clampZoom s zoom = zoom).
Proof.
  apply (proj2 (clampZoom_within Samples.limited_layer (of_Z 5)
                  (of_Z 1) (of_Z 3)));
    reflexivity.
Defined.

Section ValidTileProperties.

Import GridLayer.
Local Open Scope num_scope.

(** X23.  On a map whose CRS wraps the longitude and not the latitude (as every
    CRS built on Earth does), and for a layer without [bounds] option, a
    tile is valid exactly when its row is neither below nor above the
    global tile range: its column and its zoom play no part.  The call
    writes nothing. *)
Theorem isValidTile_ignores_the_column (s : Layer) (m : MapCore.Map)
  (range : Corners) (wrap : Num * Num) (c : TileCoords) :
  _map s = Some m ->
  Crs.infinite (MapCore.options_crs m) = false ->
  Crs.wrapLng (MapCore.options_crs m) = Some wrap ->
  Crs.wrapLat (MapCore.options_crs m) = None ->
  _globalTileRange s = Some range ->
  options_bounds s = None ->
  _isValidTile c s
  = (s, Return (negb ((of_Z (ty c) <? y (min range))
                      || (of_Z (ty c) >? y (max range)))))
  /\ (isNaN (y (min range)) = false -> isNaN (y (max range)) = false ->
      _isValidTile c s
      = (s, Return ((y (min range) <=? of_Z (ty c))
                    && (of_Z (ty c) <=? y (max range)))))
  /\ forall c', ty c' = ty c -> _isValidTile c' s = _isValidTile c s.
Proof.
  intros attached bounded wrapped unwrapped ranged unrestricted.
  assert (forall c0,
    _isValidTile c0 s
    = (s, Return (negb ((of_Z (ty c0) <? y (min range))
                        || (of_Z (ty c0) >? y (max range)))))) as value.
  { intro c0. unfold _isValidTile, bind, get, on_map, ret.
    rewrite attached. cbn [fst snd].
    rewrite <- attached, set_map_same.
    rewrite bounded, wrapped, unwrapped, ranged, unrestricted.
    cbn [negb andb orb].
    destruct (negb ((of_Z (ty c0) <? y (min range))
                    || (of_Z (ty c0) >? y (max range)))); reflexivity. }
  split; [apply value | split].
  - intros nlo nhi. rewrite value. do 2 f_equal. unfold JsNum.gtb, of_Z.
    destruct (y (min range)) as [| | | lo], (y (max range)) as [| | | hi];
      try discriminate; cbn [JsNum.ltb JsNum.leb negb orb andb];
      try reflexivity; OrderFacts.Qdecide.
  - intros c' same. now rewrite !value, same.
Qed.

End ValidTileProperties.

Lemma isValidTile_ignores_the_column_witness :
  let s := Samples.zooming_layer in
  let c := GridLayer.mkTileCoords 7 2 2 in
  let range :=
    mkCorners (mkPoint (of_Z 0) (of_Z 0)) (mkPoint (of_Z 3) (of_Z 3)) in
  GridLayer._isValidTile c s
  = (s, Return (negb ((of_Z (GridLayer.ty c) <? y (min range))
                      || (of_Z (GridLayer.ty c) >? y (max range)))%num))
  /\ (isNaN (y (min range)) = false -> isNaN (y (max range)) = false ->
      GridLayer._isValidTile c s
      = (s, Return ((y (min range) <=? of_Z (GridLayer.ty c))
                    && (of_Z (GridLayer.ty c) <=? y (max range)))%num))
  /\ forall c', GridLayer.ty c' = GridLayer.ty c ->
       GridLayer._isValidTile c' s
       = GridLayer._isValidTile c s.
Proof.
  apply (@isValidTile_ignores_the_column Samples.zooming_layer
           Samples.loaded_map
           (mkCorners (mkPoint (of_Z 0) (of_Z 0)) (mkPoint (of_Z 3) (of_Z 3)))
           (of_Z (-180), of_Z 180) (GridLayer.mkTileCoords 7 2 2));
    reflexivity.
Defined.

Section RangeProperties.

Import GridLayer OrderFacts.
Local Open Scope num_scope.

Lemma leb_fin (p q : Q) : (fin p <=? fin q) = true <-> (p <= q)%Q.
Proof.
  cbn [fin JsNum.leb]. rewrite JsNumFacts.Qleb_le, !Qred_correct. tauto.
Qed.

(** The tile that holds a pixel lies in the range computed on the axis. *)
Lemma axis_covered (lo hi p size : Q) :
  (0 < size)%Q -> (lo <= p)%Q -> (p < hi)%Q ->
  let t := JsNum.floor (Fin p / Fin size) in
  let a := JsNum.floor (Fin lo / Fin size) in
  let b := JsNum.ceil (Fin hi / Fin size) - of_Z 1 in
  (t >=? JsNum.min b a) = true /\ (t <=? JsNum.max b a) = true.
Proof.
  intros positive low high t a b.
  assert (~ (size == 0)%Q) as nz by (intro h; lra).
  assert (0 < / size)%Q as inv by now apply Qinv_lt_0_compat.
  assert (lo / size <= p / size)%Q as r1
      by (apply Qmult_le_compat_r; lra).
  assert (p / size < hi / size)%Q as r2
      by (apply Qmult_lt_compat_r; lra).
  assert ((a <=? t) = true) as at_least.
  { subst a t. rewrite !div_fin by assumption.
    cbn [JsNum.floor fin JsNum.leb of_Z]. Qbool. rewrite <- Zle_Qle.
    apply Qfloor_resp_le. now rewrite !Qred_correct. }
  assert ((t <=? b) = true) as at_most.
  { subst b t. rewrite !div_fin by assumption.
    cbn [JsNum.floor JsNum.ceil fin JsNum.sub JsNum.leb of_Z]. Qbool.
    rewrite (Qred_correct (_ - _)).
    pose proof (Qfloor_le (Qred (p / size))) as f.
    pose proof (Qle_ceiling (Qred (hi / size))) as c.
    pose proof (Qred_correct (p / size)) as e1.
    pose proof (Qred_correct (hi / size)) as e2.
    assert (inject_Z (Qfloor (Qred (p / size)))
            < inject_Z (Qceiling (Qred (hi / size))))%Q as lt by lra.
    rewrite <- Zlt_Qlt in lt.
    unfold Qminus. rewrite <- (inject_Z_opp 1), <- inject_Z_plus, <- Zle_Qle.
    lia. }
  assert (isNaN a = false /\ isNaN b = false /\ isNaN t = false)
    as (na & nb & nt).
  { subst a b t. rewrite !div_fin by assumption. now repeat split. }
  unfold JsNum.geb. split.
  - apply min_below; auto.
  - apply max_above; auto.
Qed.

(** X24.  In exact arithmetic, that is with the divisions by the tile size
    taken without rounding, the tile range covers the pixel bounds: for a
    tile size that is positive on both axes, the tile that holds a pixel of
    the bounds (the maximum edges excluded) lies in [_pxBoundsToTileRange]
    of the bounds.  (With the rounding of the code's numbers two pixels on
    either side of a tile edge can have the same quotient, and the tile of
    the one is then outside the range.) *)
Theorem pxBoundsToTileRange_covers (s : Layer) (b : Corners) (p : Point)
  (sx sy : Q) :
  getTileSize s = mkPoint (Fin sx) (Fin sy) -> (0 < sx)%Q -> (0 < sy)%Q ->
  finite (min b) = true -> finite (max b) = true -> finite p = true ->
  ((x (min b) <=? x p) && (x p <? x (max b))
   && (y (min b) <=? y p) && (y p <? y (max b))) = true ->
  contains (_pxBoundsToTileRange s b) (floor (unscaleBy p (getTileSize s)))
  = true.
Proof.
  intros size px py fmin fmax fp inside.
  destruct (finite_coordinates _ fmin) as (a1 & a2 & e1 & e2).
  destruct (finite_coordinates _ fmax) as (c1 & c2 & e3 & e4).
  destruct (finite_coordinates _ fp) as (p1 & p2 & e5 & e6).
  rewrite e1, e2, e3, e4, e5, e6 in inside. split_andb.
  cbn [JsNum.leb JsNum.ltb] in *. Qbool.
  unfold contains, _pxBoundsToTileRange, newBounds, floor, ceil, subtract,
    unscaleBy.
  rewrite size. cbn [x y min max]. rewrite e1, e2, e3, e4, e5, e6.
  assert (a1 <= p1)%Q as lx by assumption.
  assert (p1 < c1)%Q as hx by assumption.
  assert (a2 <= p2)%Q as ly by assumption.
  assert (p2 < c2)%Q as hy by assumption.
  destruct (axis_covered px lx hx) as [x_lo x_hi].
  destruct (axis_covered py ly hy) as [y_lo y_hi].
  now rewrite x_lo, x_hi, y_lo, y_hi.
Qed.

End RangeProperties.

Lemma pxBoundsToTileRange_covers_witness :
  let b := mkCorners (mkPoint (of_Z 10) (of_Z 20)) (mkPoint (of_Z 810) (of_Z 620)) in
  let p := mkPoint (of_Z 300) (Fin (1199 # 2)) in
  contains (GridLayer._pxBoundsToTileRange Samples.zooming_layer b)
           (floor (unscaleBy p (GridLayer.getTileSize Samples.zooming_layer)))
  = true.
Proof.
  apply (@pxBoundsToTileRange_covers Samples.zooming_layer
           (mkCorners (mkPoint (of_Z 10) (of_Z 20))
                      (mkPoint (of_Z 810) (of_Z 620)))
           (mkPoint (of_Z 300) (Fin (1199 # 2))) 256 256);
    reflexivity.
Defined.

Section RangeConverse.

Import GridLayer OrderFacts.
Local Open Scope num_scope.

(** A tile of the range computed on an axis meets the interval. *)
Lemma axis_met (lo hi size : Q) (i : Z) :
  (0 < size)%Q -> (lo < hi)%Q ->
  let a := JsNum.floor (Fin lo / Fin size) in
  let b := JsNum.ceil (Fin hi / Fin size) - of_Z 1 in
  (of_Z i >=? JsNum.min b a) = true -> (of_Z i <=? JsNum.max b a) = true ->
  (of_Z i * Fin size + Fin size >? Fin lo) = true
  /\ (of_Z i * Fin size <? Fin hi) = true.
Proof.
  intros positive extent a b.
  assert (~ (size == 0)%Q) as nz by (intro h; lra).
  destruct (@min_max_ordered a b) as [-> ->];
    [apply whole_floor | apply whole_ceil_pred
     | now apply tile_range_ordered |].
  subst a b. rewrite !div_fin by assumption.
  unfold JsNum.geb, JsNum.gtb.
  cbn [JsNum.floor JsNum.ceil JsNum.sub JsNum.mul JsNum.add JsNum.leb
       JsNum.ltb fin of_Z].
  intros at_least at_most. Qbool.
  rewrite Qred_correct in at_most.
  unfold Qminus in at_most.
  rewrite <- (inject_Z_opp 1), <- inject_Z_plus in at_most.
  rewrite <- Zle_Qle in at_least, at_most.
  pose proof (Qlt_floor (Qred (lo / size))) as f.
  pose proof (Qceiling_lt (Qred (hi / size))) as c.
  pose proof (Qred_correct (lo / size)) as e1.
  pose proof (Qred_correct (hi / size)) as e2.
  assert (lo / size < inject_Z i + 1)%Q as below.
  { assert (inject_Z (Qfloor (Qred (lo / size)) + 1) <= inject_Z (i + 1))%Q
      as le by (rewrite <- Zle_Qle; lia).
    rewrite !inject_Z_plus in le. change (inject_Z 1) with 1%Q in le.
    rewrite inject_Z_plus in f. change (inject_Z 1) with 1%Q in f. lra. }
  assert (inject_Z i < hi / size)%Q as above.
  { assert (inject_Z i <= inject_Z (Qceiling (Qred (hi / size)) - 1))%Q
      as le by (rewrite <- Zle_Qle; lia).
    lra. }
  assert (lo == (lo / size) * size)%Q as elo by (field; exact nz).
  assert (hi == (hi / size) * size)%Q as ehi by (field; exact nz).
  split; Qbool; rewrite !Qred_correct.
  - rewrite elo.
    setoid_replace (inject_Z i * size + size)%Q
      with ((inject_Z i + 1) * size)%Q by ring.
    apply Qmult_lt_compat_r; assumption.
  - rewrite ehi. apply Qmult_lt_compat_r; assumption.
Qed.

(** X25.  In exact arithmetic, that is with the divisions and products by
    the tile size taken without rounding, the tile range holds no tile
    that misses the pixel bounds: for a tile size that is positive on both
    axes and finite bounds with a positive extent on both axes, the pixel
    bounds of every tile of [_pxBoundsToTileRange] overlap the bounds.
    (With the rounding of the code's numbers a tile of the range can end
    or begin on the edge of bounds that are narrower than the rounding.) *)
Theorem pxBoundsToTileRange_tiles_meet_the_bounds (s : Layer) (b : Corners)
  (i j : Z) (sx sy : Q) :
  getTileSize s = mkPoint (Fin sx) (Fin sy) -> (0 < sx)%Q -> (0 < sy)%Q ->
  finite (min b) = true -> finite (max b) = true ->
  ((x (min b) <? x (max b)) && (y (min b) <? y (max b))) = true ->
  contains (_pxBoundsToTileRange s b) (mkPoint (of_Z i) (of_Z j)) = true ->
  BoundsOps.overlaps b (tile_pixel_bounds s (mkPoint (of_Z i) (of_Z j)))
  = true.
Proof.
  intros size px py fmin fmax extent inside.
  destruct (finite_coordinates _ fmin) as (a1 & a2 & e1 & e2).
  destruct (finite_coordinates _ fmax) as (c1 & c2 & e3 & e4).
  rewrite e1, e2, e3, e4 in extent. split_andb.
  cbn [JsNum.ltb] in *. Qbool.
  assert (a1 < c1)%Q as ex by assumption.
  assert (a2 < c2)%Q as ey by assumption.
  unfold contains, _pxBoundsToTileRange, newBounds, floor, ceil, subtract,
    unscaleBy in inside.
  rewrite size in inside. cbn [x y min max] in inside.
  rewrite e1, e2, e3, e4 in inside.
  apply andb_true_iff in inside as [inside y_hi].
  apply andb_true_iff in inside as [inside y_lo].
  apply andb_true_iff in inside as [x_lo x_hi].
  destruct (axis_met i px ex x_lo x_hi) as [x1 x2].
  destruct (axis_met j py ey y_lo y_hi) as [y1 y2].
  unfold BoundsOps.overlaps, tile_pixel_bounds, scaleBy, add.
  rewrite size. cbn [x y min max]. rewrite e1, e2, e3, e4.
  now rewrite x1, x2, y1, y2.
Qed.

End RangeConverse.

Lemma pxBoundsToTileRange_tiles_meet_the_bounds_witness :
  let b := mkCorners (mkPoint (of_Z 10) (of_Z 20)) (mkPoint (of_Z 810) (of_Z 620)) in
  BoundsOps.overlaps b
    (tile_pixel_bounds Samples.zooming_layer (mkPoint (of_Z 3) (of_Z 2)))
  = true.
Proof.
  apply (@pxBoundsToTileRange_tiles_meet_the_bounds Samples.zooming_layer
           (mkCorners (mkPoint (of_Z 10) (of_Z 20))
                      (mkPoint (of_Z 810) (of_Z 620)))
           3 2 256 256);
    reflexivity.
Defined.

(* ================================================================== *)
(** * The tile layer                                                    *)
(* ================================================================== *)

Section TileLayerProperties.

Import TileLayer OrderFacts.
Local Open Scope num_scope.

(** X26.  [TileLayer.initialize] leaves the zoom limits in order: where both
    limits are numbers, [minZoom <= maxZoom] holds afterwards, whatever
    their order before.  The one exception is excluded by the third
    hypothesis: retina detection on a retina screen, without
    [zoomReverse], for a negative [minZoom] and a [maxZoom] below 1. *)
Theorem initialize_orders_zoom_limits (retina : bool) (o : Options) :
  isNaN (minZoom o) = false -> isNaN (maxZoom o) = false ->
  (negb (detectRetina o && retina) || zoomReverse o
   || (of_Z 0 <=? minZoom o) || (of_Z 1 <=? maxZoom o)) = true ->
  (minZoom (initialize retina o) <=? maxZoom (initialize retina o)) = true.
Proof.
  destruct o as [lo hi size offset reverse detect].
  unfold initialize. cbn [minZoom maxZoom tileSize zoomOffset zoomReverse
                          detectRetina].
  unfold JsNum.gtb, of_Z.
  change (inject_Z 0) with 0%Q; change (inject_Z 1) with 1%Q.
  destruct detect, retina, reverse, lo as [| | | lo], hi as [| | | hi];
    cbn [JsNum.max JsNum.min JsNum.sub JsNum.add JsNum.ltb JsNum.leb
         andb orb negb fin isNaN minZoom maxZoom];
    intros nlo nhi usual; try discriminate; try reflexivity;
    repeat match goal with
    | |- context [Qltb ?a ?b] =>
        destruct (Qltb a b) eqn:?;
        cbn [JsNum.max JsNum.min JsNum.sub JsNum.add JsNum.ltb JsNum.leb
             andb orb negb fin isNaN minZoom maxZoom]
    end;
    try reflexivity;
    repeat match goal with
    | h : (Qleb ?a ?b || Qleb ?c ?d) = true |- _ =>
        apply orb_true_iff in h as [h | h]
    end;
    Qbool;
    repeat match goal with
    | h : context [Qred ?q] |- _ =>
        pose proof (Qred_correct q); generalize dependent (Qred q); intros
    end;
    repeat match goal with
    | |- context [Qred ?q] =>
        pose proof (Qred_correct q); generalize dependent (Qred q); intros
    end;
    try lra; exfalso; lra.
Qed.

(** The remainder of two whole numbers, the first not negative and the
    second positive. *)
Lemma Qrem_whole (k n : Z) :
  (0 <= k)%Z -> (0 < n)%Z ->
  (Qrem (inject_Z k) (inject_Z n) == inject_Z (k mod n))%Q.
Proof.
  intros pos_k pos_n. unfold Qrem.
  assert (0 < inject_Z n)%Q as qn
      by (change 0%Q with (inject_Z 0); now rewrite <- Zlt_Qlt).
  assert (0 <= inject_Z k)%Q as qk
      by (change 0%Q with (inject_Z 0); now rewrite <- Zle_Qle).
  assert (0 <= inject_Z k / inject_Z n)%Q as ratio.
  { apply Qle_shift_div_l; [exact qn | lra]. }
  assert (Qtrunc (inject_Z k / inject_Z n) = (k / n)%Z) as ->.
  { unfold Qtrunc.
    assert (Qltb (inject_Z k / inject_Z n) 0 = false) as ->
        by now apply JsNumFacts.Qltb_ge.
    apply JsNumFacts.Qfloor_unique.
    - apply Qle_shift_div_l; [exact qn |].
      rewrite <- inject_Z_mult, <- Zle_Qle.
      rewrite Z.mul_comm. apply Z.mul_div_le. exact pos_n.
    - apply Qlt_shift_div_r; [exact qn |].
      rewrite <- inject_Z_mult, <- Zlt_Qlt.
      rewrite Z.mul_comm. replace (k / n + 1)%Z with (Z.succ (k / n)) by lia.
      apply Z.mul_succ_div_gt. exact pos_n. }
  rewrite (Z.mod_eq k n) by lia.
  unfold Z.sub. rewrite inject_Z_plus, inject_Z_opp, inject_Z_mult. ring.
Qed.

Lemma inject_Z_abs (z : Z) : (Qabs (inject_Z z) == inject_Z (Z.abs z))%Q.
Proof. destruct z; reflexivity. Qed.

(** X27.  [_getSubdomain] always finds a subdomain: for tile coordinates (which
    are integers) and a list of subdomains that is not empty, the index
    [abs(x + y) % length] is an index of the list. *)
Theorem getSubdomain_defined (subdomains : list string) (c : GridLayer.TileCoords) :
  subdomains <> [] ->
  exists d : string,
    _getSubdomain subdomains c = Some d /\ In d subdomains.
Proof.
  intro some. unfold _getSubdomain.
  set (n := Z.of_nat (List.length subdomains)).
  assert (0 < n)%Z as pos_n
      by (subst n; destruct subdomains; [congruence | cbn; lia]).
  set (k := Z.abs (GridLayer.tx c + GridLayer.ty c)).
  assert (0 <= k)%Z as pos_k by (subst k; lia).
  assert (exists q : Q,
            abs (of_Z (GridLayer.tx c) + of_Z (GridLayer.ty c)) %% of_Z n = Fin q
            /\ (q == inject_Z (k mod n))%Q) as (q & -> & value).
  { eexists. split.
    - cbn [JsNum.add JsNum.abs JsNum.rem of_Z fin].
      assert (Qeqb (inject_Z n) 0 = false) as ->; [| reflexivity].
      apply JsNumFacts.Qeqb_neq. intro h.
      change 0%Q with (inject_Z 0) in h.
      apply (proj1 (inject_Z_injective n 0)) in h. lia.
    - rewrite Qred_correct.
      assert (Qred (Qabs (Qred (inject_Z (GridLayer.tx c)
                                + inject_Z (GridLayer.ty c))))
              == inject_Z k)%Q as whole_k.
      { rewrite !Qred_correct, <- inject_Z_plus. subst k.
        apply inject_Z_abs. }
      etransitivity;
        [apply JsNumFacts.Qrem_comp; [exact whole_k | reflexivity]
        | now apply Qrem_whole]. }
  pose proof (Z.mod_pos_bound k n pos_n) as [low high].
  unfold element.
  assert (Qfloor q = (k mod n)%Z) as ->
      by (rewrite (Qfloor_comp _ _ value); apply Qfloor_Z).
  assert (Qeqb q (inject_Z (k mod n)) = true) as ->
      by now apply JsNumFacts.Qeqb_eq.
  assert ((0 <=? k mod n)%Z = true) as -> by now apply Z.leb_le.
  cbn [andb].
  destruct (nth_error subdomains (Z.to_nat (k mod n))) as [d |] eqn:found.
  - exists d. split; [reflexivity |]. eapply nth_error_In, found.
  - apply nth_error_None in found. subst n. lia.
Qed.

End TileLayerProperties.

Lemma initialize_orders_zoom_limits_witness :
  let o := TileLayer.mkOptions (of_Z 5) (of_Z 3) (of_Z 256) (of_Z 0) false true in
  (TileLayer.minZoom (TileLayer.initialize true o)
   <=? TileLayer.maxZoom (TileLayer.initialize true o))%num = true.
Proof.
  apply (@initialize_orders_zoom_limits true
           (TileLayer.mkOptions (of_Z 5) (of_Z 3) (of_Z 256) (of_Z 0)
                                false true));
    reflexivity.
Defined.

Lemma getSubdomain_defined_witness :
  exists d : string,
    TileLayer._getSubdomain ["a"; "b"; "c"] (GridLayer.mkTileCoords (-3) 1 2)
    = Some d
    /\ In d ["a"; "b"; "c"].
Proof.
  apply (@getSubdomain_defined ["a"; "b"; "c"]
           (GridLayer.mkTileCoords (-3) 1 2)).
  discriminate.
Defined.

(* ================================================================== *)
(** * The grid layer: adding tiles; the reconciliation pass              *)
(* ================================================================== *)

Module AssignFacts.

Import GridLayer StoreFacts.
Local Open Scope list_scope.

Lemma lookup_assign_same (ts : Tiles) (key : string) (t : Tile) :
  lookup key (assign key t ts) = Some t.
Proof.
  induction ts as [| [k u] ts IH]; cbn.
  - now rewrite String.eqb_refl.
  - destruct (String.eqb_spec k key) as [-> | ne]; cbn.
    + now rewrite String.eqb_refl.
    + destruct (String.eqb_spec k key); [congruence | exact IH].
Qed.

Lemma lookup_assign_other (ts : Tiles) (key k : string) (t : Tile) :
  k <> key -> lookup k (assign key t ts) = lookup k ts.
Proof.
  intro ne. induction ts as [| [k' u] ts IH]; cbn.
  - destruct (String.eqb_spec key k); [congruence | reflexivity].
  - destruct (String.eqb_spec k' key) as [-> | ne']; cbn.
    + destruct (String.eqb_spec key k); [congruence | reflexivity].
    + now rewrite IH.
Qed.

Lemma lookup_absent (ts : Tiles) (key : string) :
  lookup key ts = None -> ~ In key (keys ts).
Proof. intros absent present. now apply lookup_key in present. Qed.

Lemma assign_fresh (ts : Tiles) (key : string) (t : Tile) :
  lookup key ts = None -> assign key t ts = ts ++ [(key, t)].
Proof.
  induction ts as [| [k u] ts IH]; cbn; [reflexivity |].
  destruct (String.eqb_spec k key) as [-> | ne]; [discriminate |].
  intro absent. now rewrite IH.
Qed.

Lemma keys_assign (ts : Tiles) (key : string) (t : Tile) :
  keys (assign key t ts)
  = match lookup key ts with
    | Some _ => keys ts
    | None => keys ts ++ [key]
    end.
Proof.
  induction ts as [| [k u] ts IH]; cbn; [reflexivity |].
  destruct (String.eqb_spec k key) as [-> | ne]; cbn; [reflexivity |].
  unfold keys in IH. rewrite IH. now destruct (lookup key ts).
Qed.

Lemma assign_nodup (ts : Tiles) (key : string) (t : Tile) :
  NoDup (keys ts) -> NoDup (keys (assign key t ts)).
Proof.
  intro nodup. rewrite keys_assign.
  destruct (lookup key ts) eqn:found; [exact nodup |].
  apply NoDup_app; [exact nodup | repeat constructor; intros [] |].
  intros k i [<- | []]. now apply (@lookup_absent _ _ found).
Qed.

End AssignFacts.

Section AddProperties.

Import GridLayer StoreFacts RemovalFacts DeleteFacts AssignFacts.
Local Open Scope list_scope.

Context `{Host}.

(** X28.  Adding a tile that the store does not hold and removing it again
    leaves the store as it was: in between, the tile is held under the key
    of its coordinates, current and not loaded, beside the tiles that were
    there; the two events fired are [tileloadstart] and [tileunload], both
    with the coordinates of the tile. *)
Theorem addTile_then_removeTile (s : Layer) (c : TileCoords) :
  lookup (_tileCoordsToKey c) (_tiles s) = None ->
  let key := _tileCoordsToKey c in
  lookup key (_tiles (_addTile c s)) = Some (mkTile c true None false false)
  /\ (forall k, k <> key ->
        lookup k (_tiles (_addTile c s)) = lookup k (_tiles s))
  /\ _tiles (_removeTile key (_addTile c s)) = _tiles s
  /\ fired (_removeTile key (_addTile c s))
     = fired s ++ [tileloadstart c; tileunload (to_Coords c)].
Proof.
  intros absent key. subst key.
  assert (lookup (_tileCoordsToKey c) (_tiles (_addTile c s))
          = Some (mkTile c true None false false)) as held
      by apply lookup_assign_same.
  split; [exact held |]. split; [| split].
  - intros k ne. now apply lookup_assign_other.
  - rewrite (removeTile_present _ _ held). cbn [_tiles fire set_tiles _addTile].
    rewrite (@assign_fresh (_tiles s) (_tileCoordsToKey c) _ absent).
    rewrite (@delete_middle (_tiles s) [] (_tileCoordsToKey c) _)
      by (try apply (@lookup_absent _ _ absent); intros []).
    apply app_nil_r.
  - rewrite (removeTile_present _ _ held). cbn [fired fire set_tiles _addTile].
    unfold Marks.unload. destruct c as [x y z]. rewrite key_round_trip.
    now rewrite <- app_assoc.
Qed.

End AddProperties.

Lemma addTile_then_removeTile_witness :
  let s := Samples.zooming_layer in
  let c := GridLayer.mkTileCoords 1 0 2 in
  let key := GridLayer._tileCoordsToKey c in
  GridLayer.lookup key (GridLayer._tiles (GridLayer._addTile c s))
  = Some (GridLayer.mkTile c true None false false)
  /\ (forall k, k <> key ->
        GridLayer.lookup k (GridLayer._tiles (GridLayer._addTile c s))
        = GridLayer.lookup k (GridLayer._tiles s))
  /\ GridLayer._tiles
       (@GridLayer._removeTile Samples.host key (GridLayer._addTile c s))
     = GridLayer._tiles s
  /\ GridLayer.fired
       (@GridLayer._removeTile Samples.host key (GridLayer._addTile c s))
     = (GridLayer.fired s
        ++ [GridLayer.tileloadstart c; GridLayer.tileunload (GridLayer.to_Coords c)])%list.
Proof.
  apply (@addTile_then_removeTile Samples.host Samples.zooming_layer
           (GridLayer.mkTileCoords 1 0 2)).
  reflexivity.
Defined.

Module RecolourFacts.

Import GridLayer StoreFacts.
Local Open Scope list_scope.

Lemma same_tile_refl (t : Tile) : same_tile t t.
Proof. now destruct t. Qed.

Lemma same_tile_trans (t t' t'' : Tile) :
  same_tile t t' -> same_tile t' t'' -> same_tile t t''.
Proof. unfold same_tile. intros <- <-. reflexivity. Qed.

Lemma same_tile_set_current (t : Tile) (v : bool) :
  same_tile t (set_current v t).
Proof. reflexivity. Qed.

Lemma recoloured_refl (ts : Tiles) : recoloured ts ts.
Proof.
  induction ts as [| e ts IH]; constructor; [| exact IH].
  split; [reflexivity | apply same_tile_refl].
Qed.

Lemma recoloured_trans (ts ts' ts'' : Tiles) :
  recoloured ts ts' -> recoloured ts' ts'' -> recoloured ts ts''.
Proof.
  intro first. revert ts''.
  induction first as [| e e' ts ts' [k same] rest IH]; intros ts'' second;
    inversion second as [| ? e'' ? ts3 [k' same'] rest']; subst;
    constructor.
  - split; [congruence | eapply same_tile_trans; eassumption].
  - now apply IH.
Qed.

Lemma recoloured_keys (ts ts' : Tiles) :
  recoloured ts ts' -> keys ts = keys ts'.
Proof.
  induction 1 as [| e e' ts ts' [k _] _ IH]; [reflexivity |].
  cbn [keys map]. unfold keys in IH. now rewrite k, IH.
Qed.

(** The tiles of two such stores under a key. *)
Lemma recoloured_lookup (ts ts' : Tiles) (key : string) :
  recoloured ts ts' ->
  match lookup key ts, lookup key ts' with
  | Some t, Some t' => same_tile t t'
  | None, None => True
  | _, _ => False
  end.
Proof.
  induction 1 as [| [k t] [k' t'] ts ts' [same_key same] _ IH]; cbn;
    [exact I |].
  cbn in same_key, same. subst k'.
  destruct (String.eqb k key); [exact same | exact IH].
Qed.

(** Writing the current mark of one tile. *)
Lemma recoloured_update (ts : Tiles) (key : string) (g : Tile -> Tile) :
  (forall t, same_tile t (g t)) -> recoloured ts (update key g ts).
Proof.
  intro same. induction ts as [| [k t] ts IH]; cbn; [constructor |].
  destruct (String.eqb k key); constructor.
  - split; [reflexivity | apply same].
  - apply recoloured_refl.
  - split; [reflexivity | apply same_tile_refl].
  - exact IH.
Qed.

Lemma lookup_update (ts : Tiles) (key k : string) (g : Tile -> Tile) :
  lookup k (update key g ts)
  = if String.eqb k key then option_map g (lookup k ts) else lookup k ts.
Proof.
  induction ts as [| [k' t] ts IH]; cbn; [now destruct (String.eqb k key) |].
  destruct (String.eqb_spec k' key) as [-> | ne]; cbn.
  - destruct (String.eqb_spec key k) as [<- | ne'].
    + now rewrite String.eqb_refl.
    + destruct (String.eqb_spec k key); [congruence | reflexivity].
  - destruct (String.eqb_spec k' k) as [-> | ne'].
    + destruct (String.eqb_spec k key); [congruence | reflexivity].
    + exact IH.
Qed.

End RecolourFacts.

Module ReconcileFacts.

Import GridLayer StoreFacts AssignFacts RecolourFacts.
Local Open Scope list_scope.

(** ** Loops that keep an invariant *)

Lemma foldM_invariant {S A B} (body : B -> A -> Js S B)
  (I : list A -> S -> B -> Prop) :
  (forall done a s b,
     I done s b ->
     exists s' b', body b a s = (s', Return b') /\ I (done ++ [a]) s' b') ->
  forall xs done s b,
    I done s b ->
    exists s' b', foldM body xs b s = (s', Return b') /\ I (done ++ xs) s' b'.
Proof.
  intro step. induction xs as [| a xs IH]; intros done s b inv.
  - exists s, b. rewrite app_nil_r. now split.
  - destruct (step done a s b inv) as (s1 & b1 & run & inv1).
    destruct (IH (done ++ [a]) s1 b1 inv1) as (s' & b' & run' & inv').
    exists s', b'. split.
    + cbn [foldM]. unfold bind. now rewrite run.
    + now rewrite <- app_assoc in inv'.
Qed.

(** ** The sort *)

Lemma In_insert_by (compare : TileCoords -> TileCoords -> Num)
  (a c : TileCoords) (sorted : list TileCoords) :
  In c (insert_by compare a sorted) <-> c = a \/ In c sorted.
Proof.
  induction sorted as [| b rest IH]; cbn.
  - intuition congruence.
  - destruct (compare a b <? of_Z 0)%num; cbn; [intuition congruence |].
    rewrite IH. intuition congruence.
Qed.

Lemma In_sort_by (compare : TileCoords -> TileCoords -> Num)
  (c : TileCoords) (queue : list TileCoords) :
  In c (sort_by compare queue) <-> In c queue.
Proof.
  unfold sort_by.
  assert (forall sorted,
            In c (fold_left (fun sorted a => insert_by compare a sorted)
                            queue sorted)
            <-> In c queue \/ In c sorted) as general.
  { induction queue as [| a queue IH]; intro sorted; cbn [fold_left].
    - cbn. tauto.
    - rewrite IH, In_insert_by. cbn. intuition congruence. }
  rewrite general. cbn. tauto.
Qed.

Lemma sort_by_nil (compare : TileCoords -> TileCoords -> Num)
  (queue : list TileCoords) :
  sort_by compare queue = [] <-> queue = [].
Proof.
  split.
  - intro empty. destruct queue as [| a queue]; [reflexivity |].
    exfalso. assert (In a (sort_by compare (a :: queue))) as i
        by (apply In_sort_by; now left).
    now rewrite empty in i.
  - now intros ->.
Qed.

Lemma insert_by_permutation (compare : TileCoords -> TileCoords -> Num)
  (a : TileCoords) (sorted : list TileCoords) :
  Permutation (a :: sorted) (insert_by compare a sorted).
Proof.
  induction sorted as [| b rest IH]; cbn; [apply Permutation_refl |].
  destruct (compare a b <? of_Z 0)%num; [apply Permutation_refl |].
  eapply perm_trans; [apply perm_swap | apply perm_skip, IH].
Qed.

(** The sort puts the queue in another order, and does nothing else. *)
Lemma sort_by_permutation (compare : TileCoords -> TileCoords -> Num)
  (queue : list TileCoords) :
  Permutation queue (sort_by compare queue).
Proof.
  unfold sort_by.
  assert (forall sorted,
            Permutation (queue ++ sorted)
              (fold_left (fun sorted a => insert_by compare a sorted)
                         queue sorted)) as general.
  { induction queue as [| a queue IH]; intro sorted; cbn [fold_left app];
      [apply Permutation_refl |].
    eapply perm_trans; [| apply IH].
    eapply perm_trans; [apply Permutation_middle |].
    apply Permutation_app_head, insert_by_permutation. }
  specialize (general []). now rewrite app_nil_r in general.
Qed.

(** ** The coordinates visited *)

Lemma counting_nodup (lo hi : Num) : NoDup (counting lo hi).
Proof.
  unfold counting. destruct lo, hi; try apply NoDup_nil.
  apply Injective_map_NoDup; [| apply seq_NoDup].
  intros a b e. lia.
Qed.

(** The two loops visit no coordinate twice. *)
Lemma range_coords_nodup (tileRange : Corners) (tileZoom : Num) :
  NoDup (range_coords tileRange tileZoom).
Proof.
  unfold range_coords.
  generalize (counting_nodup (y (min tileRange)) (y (max tileRange))).
  generalize (counting (y (min tileRange)) (y (max tileRange))) as rows.
  induction 1 as [| j rows fresh _ IH]; cbn [flat_map]; [apply NoDup_nil |].
  apply NoDup_app; [| exact IH |].
  - apply Injective_map_NoDup; [| apply counting_nodup].
    intros a b e. now injection e.
  - intros c here there.
    apply in_map_iff in here as (i & <- & _).
    apply in_flat_map in there as (j' & later & there).
    apply in_map_iff in there as (i' & e & _).
    injection e as _ <-. contradiction.
Qed.

(** ** Adding the tiles of the queue *)

Lemma add_all_tiles (queue : list TileCoords) (s s' : Layer) :
  _tiles s = _tiles s' ->
  _tiles (add_all queue s) = _tiles (add_all queue s').
Proof.
  revert s s'. induction queue as [| c queue IH]; intros s s' same;
    [exact same |].
  apply IH. cbn [_addTile _tiles fire set_tiles]. now rewrite same.
Qed.

Lemma add_all_options (queue : list TileCoords) (s : Layer) :
  _globalTileRange (add_all queue s) = _globalTileRange s
  /\ options_bounds (add_all queue s) = options_bounds s.
Proof.
  revert s. induction queue as [| c queue IH]; intro s; [now split |].
  destruct (IH (_addTile c s)) as (ranges & bounds).
  split; [exact ranges | exact bounds].
Qed.

Lemma for_each_addTile (queue : list TileCoords) (s : Layer) :
  for_each queue (fun c => modify (_addTile c)) s = (add_all queue s, Return tt).
Proof.
  revert s. induction queue as [| c queue IH]; intro s; [reflexivity |].
  cbn [for_each]. unfold bind, modify at 1. apply IH.
Qed.

Lemma add_all_frame (queue : list TileCoords) (s : Layer) :
  fired (add_all queue s) = fired s ++ map tileloadstart queue
  /\ _loading (add_all queue s) = _loading s
  /\ _map (add_all queue s) = _map s.
Proof.
  revert s. induction queue as [| c queue IH]; intro s; cbn.
  - now rewrite app_nil_r.
  - destruct (IH (_addTile c s)) as (events & loads & maps).
    unfold add_all in *. rewrite events, loads, maps. cbn.
    now rewrite <- app_assoc.
Qed.

Lemma add_all_nodup (queue : list TileCoords) (s : Layer) :
  NoDup (keys (_tiles s)) -> NoDup (keys (_tiles (add_all queue s))).
Proof.
  revert s. induction queue as [| c queue IH]; intros s nodup; [exact nodup |].
  apply IH. cbn [_addTile _tiles fire set_tiles]. now apply assign_nodup.
Qed.

Lemma lookup_add_all_other (queue : list TileCoords) (s : Layer) (k : string) :
  (forall c, In c queue -> _tileCoordsToKey c <> k) ->
  lookup k (_tiles (add_all queue s)) = lookup k (_tiles s).
Proof.
  revert s. induction queue as [| c queue IH]; intros s other; [reflexivity |].
  cbn [add_all fold_left]. fold (add_all queue (_addTile c s)).
  rewrite IH by (intros c' i; apply other; now right).
  cbn [_addTile _tiles fire set_tiles]. apply lookup_assign_other.
  intro e. apply (other c); [now left | now symmetry].
Qed.

(** Whatever the store holds after the additions was there before or is a
    tile of the queue. *)
Lemma lookup_add_all_inv (queue : list TileCoords) (s : Layer) (k : string)
  (t : Tile) :
  lookup k (_tiles (add_all queue s)) = Some t ->
  lookup k (_tiles s) = Some t
  \/ exists c, In c queue /\ k = _tileCoordsToKey c /\ t = new_tile c.
Proof.
  revert s. induction queue as [| c queue IH]; intros s found; [now left |].
  cbn [add_all fold_left] in found. fold (add_all queue (_addTile c s)) in found.
  destruct (IH _ found) as [before | (c' & i & e & new)].
  - cbn [_addTile _tiles fire set_tiles] in before.
    destruct (String.eqb_spec k (_tileCoordsToKey c)) as [-> | ne].
    + rewrite lookup_assign_same in before. inversion before; subst.
      right. exists c. repeat split. now left.
    + rewrite lookup_assign_other in before by exact ne. now left.
  - right. exists c'. repeat split; try assumption. now right.
Qed.

End ReconcileFacts.

Section ReconcileProperties.

Import GridLayer StoreFacts AssignFacts RecolourFacts ReconcileFacts.
Local Open Scope list_scope.

Context `{Host}.

Variable _setView : LatLng -> Num -> Js Layer unit.

Lemma TileCoords_eq_dec (c c' : TileCoords) : {c = c'} + {c <> c'}.
Proof. decide equality; apply Z.eq_dec. Qed.

(** A tile of the queue is in the store after the additions, as
    [_addTile] records it. *)
Lemma lookup_add_all (queue : list TileCoords) (s : Layer) (c : TileCoords) :
  In c queue ->
  lookup (_tileCoordsToKey c) (_tiles (add_all queue s)) = Some (new_tile c).
Proof.
  revert s. induction queue as [| a queue IH]; intros s i; [destruct i |].
  cbn [add_all fold_left]. fold (add_all queue (_addTile a s)).
  destruct (in_dec TileCoords_eq_dec c queue) as [later | last].
  - now apply IH.
  - destruct i as [-> | i]; [| contradiction].
    rewrite lookup_add_all_other.
    + cbn [_addTile _tiles fire set_tiles]. apply lookup_assign_same.
    + intros c' i' same. apply tileCoordsToKey_injective in same.
      now subst c'.
Qed.

(** ** The calls of the pass *)

(** [_isValidTile] writes nothing, and its answer does not depend on the
    tiles of the store. *)
Lemma isValidTile_answers (s : Layer) (m : MapCore.Map) (range : Corners)
  (ts : Tiles) (c : TileCoords) :
  _map s = Some m -> _globalTileRange s = Some range ->
  _isValidTile c (set_tiles ts s) = (set_tiles ts s, Return (is_valid s c)).
Proof.
  intros attached ranged. unfold is_valid, _isValidTile, bind, get, on_map, ret.
  cbn [_map _globalTileRange options_bounds set_tiles].
  rewrite attached, ranged. cbn [fst snd].
  assert (set_map (Some m) s = s) as -> by (rewrite <- attached; apply set_map_same).
  assert (set_map (Some m) (set_tiles ts s) = set_tiles ts s) as ->
      by (rewrite <- attached; now destruct s).
  cbn [_map _globalTileRange options_bounds set_tiles].
  destruct (Crs.infinite (MapCore.options_crs m)),
           (Crs.wrapLng (MapCore.options_crs m)),
           (Crs.wrapLat (MapCore.options_crs m));
    cbn [negb];
    repeat match goal with
    | |- context [if ?b then _ else _] => destruct b; cbn [negb fst snd]
    end;
    destruct (options_bounds s); reflexivity.
Qed.

(** The first loop of the pass applies its marking to every tile. *)
Lemma mark_loop (g : Tile -> Tile) (s : Layer) :
  (forall t, same_tile t (g t)) -> (forall t, g (g t) = g t) ->
  exists ts',
    for_in_tiles (fun key s => set_tiles (update key g (_tiles s)) s) s
    = set_tiles ts' s
    /\ recoloured (_tiles s) ts'
    /\ forall k, lookup k ts' = option_map g (lookup k (_tiles s)).
Proof.
  intros same idem. unfold for_in_tiles.
  set (ts0 := _tiles s).
  assert (forall k, option_map g (option_map g (lookup k ts0))
                    = option_map g (lookup k ts0)) as twice.
  { intro k. destruct (lookup k ts0); cbn; [now rewrite idem | reflexivity]. }
  assert (forall ks ts,
    recoloured ts0 ts ->
    (forall k, lookup k ts = lookup k ts0
               \/ lookup k ts = option_map g (lookup k ts0)) ->
    exists ts',
      fold_left
        (fun s key =>
           match lookup key (_tiles s) with
           | Some _ => set_tiles (update key g (_tiles s)) s
           | None => s
           end) ks (set_tiles ts s)
      = set_tiles ts' s
      /\ recoloured ts0 ts'
      /\ (forall k, lookup k ts' = lookup k ts0
                    \/ lookup k ts' = option_map g (lookup k ts0))
      /\ (forall k, In k ks \/ lookup k ts = option_map g (lookup k ts0) ->
                    lookup k ts' = option_map g (lookup k ts0))) as loop.
  { induction ks as [| key ks IH]; intros ts held either; cbn [fold_left].
    - exists ts. repeat split; try assumption. intros k [[] | e]; exact e.
    - cbn [_tiles set_tiles].
      destruct (lookup key ts) as [t |] eqn:found.
      + change (set_tiles (update key g ts) (set_tiles ts s))
          with (set_tiles (update key g ts) s).
        assert (lookup key (update key g ts) = option_map g (lookup key ts0))
          as now_marked.
        { rewrite lookup_update, String.eqb_refl.
          destruct (either key) as [-> | ->]; [reflexivity | apply twice]. }
        destruct (IH (update key g ts)) as (ts' & run & held' & either' & marked).
        * eapply recoloured_trans; [exact held | now apply recoloured_update].
        * intro k. destruct (String.eqb_spec k key) as [-> | ne];
            [now right |].
          rewrite lookup_update.
          destruct (String.eqb_spec k key); [contradiction | apply either].
        * exists ts'. repeat split; try assumption.
          intros k [[<- | i] | e]; apply marked.
          -- now right.
          -- now left.
          -- right. destruct (String.eqb_spec k key) as [-> | ne];
               [exact now_marked |].
             rewrite lookup_update.
             destruct (String.eqb_spec k key); [contradiction | exact e].
      + destruct (IH ts held either) as (ts' & run & held' & either' & marked).
        exists ts'. repeat split; try assumption.
        intros k [[<- | i] | e]; apply marked.
        * right. destruct (either key) as [e | e]; [| exact e].
          rewrite found in *. now rewrite <- e.
        * now left.
        * now right. }
  destruct (loop (keys ts0) ts0 (recoloured_refl _)
                 (fun k => or_introl eq_refl))
    as (ts' & run & held & either & marked).
  subst ts0. rewrite RemovalFacts.set_tiles_same in run.
  exists ts'. repeat split; try assumption.
  intro k. destruct (lookup k (_tiles s)) as [t |] eqn:found.
  - rewrite <- found. apply marked. left.
    apply lookup_Some_In in found.
    change k with (fst (k, t)). now apply in_map.
  - destruct (either k) as [e | e]; rewrite e, found; reflexivity.
Qed.

(** ** The second loop *)

Lemma wanted_app (s : Layer) (cs : list TileCoords) (c : TileCoords)
  (k : string) :
  wanted s (cs ++ [c]) k
  = wanted s cs k || (is_valid s c && String.eqb k (_tileCoordsToKey c)).
Proof.
  unfold wanted. rewrite existsb_app. cbn [existsb].
  now rewrite orb_false_r, (String.eqb_sym k).
Qed.

(** The store and the queue once the second loop has visited some
    coordinates, from the store [ts] that the first loop left. *)
Lemma visit_start (s : Layer) (ts : Tiles) :
  recoloured ts ts
  /\ (forall k,
        lookup k ts
        = if wanted s [] k then option_map (set_current true) (lookup k ts)
          else lookup k ts)
  /\ [] = filter (missing s ts) [].
Proof. split; [apply recoloured_refl | now split]. Qed.

Lemma visit_step (s : Layer) (ts ts' : Tiles) (cs queue : list TileCoords)
  (c : TileCoords) :
  recoloured ts ts' ->
  (forall k,
     lookup k ts'
     = if wanted s cs k then option_map (set_current true) (lookup k ts)
       else lookup k ts) ->
  queue = filter (missing s ts) cs ->
  let ts'' :=
    if is_valid s c
    then match lookup (_tileCoordsToKey c) ts' with
         | Some _ => update (_tileCoordsToKey c) (set_current true) ts'
         | None => ts'
         end
    else ts' in
  let queue' :=
    if is_valid s c
    then match lookup (_tileCoordsToKey c) ts' with
         | Some _ => queue
         | None => queue ++ [c]
         end
    else queue in
  recoloured ts ts''
  /\ (forall k,
        lookup k ts''
        = if wanted s (cs ++ [c]) k
          then option_map (set_current true) (lookup k ts)
          else lookup k ts)
  /\ queue' = filter (missing s ts) (cs ++ [c]).
Proof.
  intros held looks queued ts'' queue'. subst ts'' queue'.
  pose proof (recoloured_lookup (_tileCoordsToKey c) held) as both.
  rewrite filter_app. cbn [filter].
  change (missing s ts c)
    with (is_valid s c
          && match lookup (_tileCoordsToKey c) ts with
             | None => true
             | Some _ => false
             end).
  destruct (is_valid s c) eqn:valid; cbn [andb].
  - destruct (lookup (_tileCoordsToKey c) ts') as [t' |] eqn:found.
    + destruct (lookup (_tileCoordsToKey c) ts) as [t |] eqn:before;
        [| contradiction].
      split; [| split].
      * eapply recoloured_trans; [exact held |].
        apply recoloured_update. intro. apply same_tile_set_current.
      * intro k. rewrite lookup_update, wanted_app, valid. cbn [andb].
        destruct (String.eqb_spec k (_tileCoordsToKey c)) as [-> | ne].
        -- rewrite orb_true_r, looks, before.
           now destruct (wanted s cs (_tileCoordsToKey c)).
        -- rewrite orb_false_r. apply looks.
      * now rewrite app_nil_r.
    + destruct (lookup (_tileCoordsToKey c) ts) as [t |] eqn:before;
        [contradiction |].
      split; [exact held | split].
      * intro k. rewrite wanted_app, valid. cbn [andb].
        destruct (String.eqb_spec k (_tileCoordsToKey c)) as [-> | ne].
        -- rewrite orb_true_r, found, before. reflexivity.
        -- rewrite orb_false_r. apply looks.
      * now rewrite queued.
  - split; [exact held | split].
    + intro k. rewrite wanted_app, valid. cbn [andb].
      rewrite orb_false_r. apply looks.
    + now rewrite app_nil_r.
Qed.

(** ** The calls before the loops *)

Lemma bind_returns {S A B} (c : Js S A) (k : A -> Js S B) (s s' : S) (b : B) :
  bind c k s = (s', Return b) ->
  exists s1 a, c s = (s1, Return a) /\ k a s1 = (s', Return b).
Proof.
  unfold bind. destruct (c s) as [s1 [a | e]]; [| discriminate].
  intro run. now exists s1, a.
Qed.

Lemma on_map_attached {A} (c : Js MapCore.Map A) (s s' : Layer) (a : A) :
  on_map c s = (s', Return a) -> _map s' <> None.
Proof.
  unfold on_map. destruct (_map s) as [m |]; [| discriminate].
  destruct (c m) as [m' r]. intros [= <- _]. discriminate.
Qed.

(** Where [_getTiledPixelBounds] returns, the layer is attached to a map. *)
Lemma getTiledPixelBounds_attached (center : LatLng) (s s' : Layer)
  (bounds : Corners) :
  _getTiledPixelBounds center s = (s', Return bounds) -> _map s' <> None.
Proof.
  unfold _getTiledPixelBounds. intro run.
  repeat (apply bind_returns in run; destruct run as (? & ? & ? & run)).
  injection run as <- _.
  eapply on_map_attached; eassumption.
Qed.

Lemma update_result (center : option LatLng) (s s1 s2 : Layer) (c : LatLng)
  (m : MapCore.Map) (tileZoom : Num) (range pixelBounds : Corners) :
  _map s = Some m ->
  _tileZoom s = Some tileZoom ->
  _globalTileRange s = Some range ->
  match center with
  | None => on_map MapCore.getCenter s
  | Some c => ret c s
  end = (s1, Return c) ->
  _getTiledPixelBounds c s1 = (s2, Return pixelBounds) ->
  all_finite (_pxBoundsToTileRange s pixelBounds) = true ->
  (abs (_clampZoom s (MapCore.to_number (MapCore._zoom m)) - tileZoom)
   >? of_Z 1)%num = false ->
  let tileRange := _pxBoundsToTileRange s pixelBounds in
  let visited := range_coords tileRange tileZoom in
  exists ts : Tiles,
    _update _setView center s
    = (add_queue
         (sort_by
            (fun a b =>
               (distanceTo a (getCenter tileRange)
                - distanceTo b (getCenter tileRange))%num)
            (filter (missing s2 (_tiles s)) visited))
         (set_tiles ts s2),
       Return tt)
    /\ s2 = set_map (_map s2) s
    /\ recoloured (_tiles s) ts
    /\ (forall k,
          lookup k ts
          = option_map
              (fun t =>
                 if wanted s2 visited k then set_current true t
                 else first_mark tileZoom (no_prune_range s tileRange) t)
              (lookup k (_tiles s))).
Proof.
  intros attached zoomed ranged centred bounded finite near tileRange visited.
  assert (s2 = set_map (_map s2) s) as frame.
  { pose proof (map_only_getTiledPixelBounds c s1) as f2.
    rewrite bounded in f2. cbn [fst] in f2.
    assert (s1 = set_map (_map s1) s) as f1.
    { destruct center.
      - pose proof (map_only_ret l s) as f. now rewrite centred in f.
      - pose proof (map_only_on_map MapCore.getCenter s) as f.
        now rewrite centred in f. }
    rewrite f1 in f2. exact f2. }
  destruct (_map s2) as [m2 |] eqn:attached2;
    [| now apply getTiledPixelBounds_attached in bounded].
  assert (_globalTileRange s2 = Some range) as ranged2
      by (rewrite frame; exact ranged).
  assert (_tiles s2 = _tiles s) as tiles2 by (rewrite frame; reflexivity).
  unfold _update. unfold bind at 1. unfold get at 1.
  rewrite attached.
  unfold bind at 1.
  assert (on_map MapCore.getZoom s = (s, Return (MapCore._zoom m))) as ->.
  { unfold on_map. rewrite attached. cbn.
    now rewrite <- attached, set_map_same. }
  unfold bind at 1.
  assert (match center with
          | Some c0 => ret c0
          | None => on_map MapCore.getCenter
          end s = (s1, Return c)) as ->
    by (destruct center; exact centred).
  rewrite zoomed. unfold bind at 1. rewrite bounded.
  fold tileRange. unfold all_finite in finite. fold tileRange in finite.
  rewrite finite. cbn [negb].
  fold (no_prune_range s tileRange).
  (* the first loop *)
  set (g := first_mark tileZoom (no_prune_range s tileRange)).
  destruct (@mark_loop g s2) as (ts1 & marks & held1 & looks1).
  { intro t. unfold g, first_mark.
    destruct (stale _ _ t); [apply same_tile_set_current | apply same_tile_refl]. }
  { intro t. unfold g, first_mark.
    destruct (stale tileZoom (no_prune_range s tileRange) t) eqn:old;
      [| now rewrite old].
    change (stale tileZoom (no_prune_range s tileRange) (set_current false t))
      with (stale tileZoom (no_prune_range s tileRange) t).
    now rewrite old. }
  unfold bind at 1. unfold modify at 1.
  match goal with
  | |- context [for_in_tiles ?f s2] =>
      change (for_in_tiles f s2)
        with (for_in_tiles
                (fun key s0 => set_tiles (update key g (_tiles s0)) s0) s2)
  end.
  rewrite marks, near.
  (* the second loop *)
  set (z := integral tileZoom).
  set (cols := counting (x (min tileRange)) (x (max tileRange))).
  set (rows := counting (y (min tileRange)) (y (max tileRange))).
  pose (row := fun j => map (fun i => mkTileCoords i j z) cols).
  pose (Inv := fun (cs : list TileCoords) (st : Layer) (q : list TileCoords) =>
          exists ts',
            st = set_tiles ts' s2
            /\ recoloured ts1 ts'
            /\ (forall k,
                  lookup k ts'
                  = if wanted s2 cs k
                    then option_map (set_current true) (lookup k ts1)
                    else lookup k ts1)
            /\ q = filter (missing s2 ts1) cs).
  match goal with
  | |- context [bind (foldM ?outer rows []) _ _] =>
      assert (exists ts queue,
                Inv (flat_map row rows) (set_tiles ts s2) queue
                /\ foldM outer rows [] (set_tiles ts1 s2)
                   = (set_tiles ts s2, Return queue))
        as (ts & queue & (ts' & same & held & looks & queued) & run)
  end.
  { match goal with
    | |- context [foldM ?outer rows [] _] =>
        destruct (@foldM_invariant _ _ _ outer
                    (fun done st q => Inv (flat_map row done) st q))
          with (xs := rows) (done := @nil Z) (s := set_tiles ts1 s2)
               (b := @nil TileCoords)
          as (st & queue & run & inv)
    end.
    - intros done j st q inv. cbv beta.
      rewrite flat_map_app. cbn [flat_map]. rewrite app_nil_r.
      match goal with
      | |- context [foldM ?inner cols q st] =>
          destruct (@foldM_invariant _ _ _ inner
                      (fun done_i st q =>
                         Inv (flat_map row done
                              ++ map (fun i => mkTileCoords i j z) done_i) st q))
            with (xs := cols) (done := @nil Z) (s := st) (b := q)
            as (st' & q' & run & inv')
      end.
      + intros done_i i st' q' (ts' & -> & held & looks & queued).
        rewrite map_app. cbn [map]. rewrite app_assoc.
        set (c0 := mkTileCoords i j z).
        unfold bind at 1.
        rewrite (@isValidTile_answers s2 m2 range ts' c0 attached2 ranged2).
        pose proof (@visit_step s2 ts1 ts' _ q' c0 held looks queued) as step.
        cbv zeta in step.
        destruct (is_valid s2 c0); cbn [negb].
        * unfold bind at 1, get at 1. cbn [_tiles set_tiles].
          destruct (lookup (_tileCoordsToKey c0) ts').
          -- eexists _, _. split; [reflexivity |].
             eexists. split; [reflexivity | exact step].
          -- eexists _, _. split; [reflexivity |].
             eexists. split; [reflexivity | exact step].
        * eexists _, _. split; [reflexivity |].
          eexists. split; [reflexivity | exact step].
      + cbn [map]. now rewrite app_nil_r.
      + exists st', q'. split; [exact run | exact inv'].
    - exists ts1. split; [reflexivity |]. apply visit_start.
    - destruct inv as (ts' & -> & inv). exists ts', queue.
      split; [now exists ts' | exact run]. }
  unfold bind at 1. rewrite run. clear run.
  assert (ts = ts') as <- by (apply (f_equal _tiles) in same; exact same).
  clear same.
  set (compare := fun a b : TileCoords =>
         (distanceTo a (getCenter tileRange)
          - distanceTo b (getCenter tileRange))%num).
  assert (queue = filter (missing s2 (_tiles s)) visited) as <-.
  { rewrite queued. change (flat_map row rows) with visited.
    apply filter_ext. intro c1. unfold missing. rewrite looks1, tiles2.
    now destruct (lookup (_tileCoordsToKey c1) (_tiles s)). }
  exists ts.
  split; [| split; [exact frame | split]].
  - unfold add_queue. destruct (sort_by compare queue) as [| a sorted];
      [reflexivity |].
    unfold bind at 1, get at 1. unfold bind at 1.
    destruct (_loading (set_tiles ts s2)); cbn [negb];
      [unfold ret at 1 | unfold modify at 1]; apply for_each_addTile.
  - rewrite <- tiles2. eapply recoloured_trans; eassumption.
  - intro k. rewrite looks, looks1, tiles2.
    change (flat_map row rows) with visited.
    destruct (wanted s2 visited k), (lookup k (_tiles s)) as [t |];
      try reflexivity.
    cbn [option_map]. f_equal. unfold g, first_mark.
    now destruct (stale _ _ t).
Qed.

(** ** The layer after the pass *)

(** [_isValidTile] reads the map, the global tile range and the bounds of
    the options only. *)
Lemma is_valid_frame (s s' : Layer) (c : TileCoords) :
  _map s' = _map s ->
  _globalTileRange s' = _globalTileRange s ->
  options_bounds s' = options_bounds s ->
  is_valid s' c = is_valid s c.
Proof.
  intros maps ranges bounds.
  unfold is_valid, _isValidTile, bind, get, on_map, ret.
  rewrite maps. destruct (_map s) as [m |]; [| reflexivity].
  cbn [_map _globalTileRange options_bounds set_map fst snd].
  rewrite ranges, bounds.
  destruct (Crs.infinite (MapCore.options_crs m)),
           (Crs.wrapLng (MapCore.options_crs m)),
           (Crs.wrapLat (MapCore.options_crs m)),
           (_globalTileRange s);
    cbn [negb throw];
    repeat match goal with
    | |- context [if ?b then _ else _] => destruct b; cbn [negb fst snd]
    end;
    destruct (options_bounds s); reflexivity.
Qed.

Lemma add_queue_frame (queue : list TileCoords) (st : Layer) :
  _map (add_queue queue st) = _map st
  /\ _globalTileRange (add_queue queue st) = _globalTileRange st
  /\ options_bounds (add_queue queue st) = options_bounds st
  /\ _tiles (add_queue queue st) = _tiles (add_all queue st)
  /\ fired (add_queue queue st)
     = fired st
       ++ (if _loading st then []
           else match queue with [] => [] | _ => [loading] end)
       ++ map tileloadstart queue
  /\ _loading (add_queue queue st)
     = match queue with [] => _loading st | _ => true end.
Proof.
  unfold add_queue. destruct queue as [| a queue].
  - cbn [map add_all fold_left]. rewrite !app_nil_r.
    repeat split. destruct (_loading st); now rewrite app_nil_r.
  - set (queue' := a :: queue).
    set (st' := if _loading st then st
                else fire loading (set_loading true st)).
    destruct (add_all_frame queue' st') as (events & loads & maps).
    destruct (add_all_options queue' st') as (ranges & bounds).
    rewrite events, loads, maps, ranges, bounds.
    rewrite (@add_all_tiles queue' st' st)
      by (subst st'; now destruct (_loading st)).
    subst st'. destruct (_loading st) eqn:busy; cbn; repeat split.
    + exact busy.
    + now rewrite <- app_assoc.
Qed.

(** A key is that of a valid coordinate among those visited. *)
Lemma wanted_iff (s : Layer) (visited : list TileCoords) (k : string) :
  wanted s visited k = true
  <-> exists c, In c visited /\ is_valid s c = true /\ _tileCoordsToKey c = k.
Proof.
  unfold wanted. rewrite existsb_exists. split.
  - intros (c & i & both). apply andb_true_iff in both as (valid & same).
    apply String.eqb_eq in same. now exists c.
  - intros (c & i & valid & same). exists c. split; [exact i |].
    rewrite valid. now apply String.eqb_eq.
Qed.

(** The coordinates of the queue. *)
Lemma In_queue (s : Layer) (ts : Tiles) (visited : list TileCoords)
  (compare : TileCoords -> TileCoords -> Num) (c : TileCoords) :
  In c (sort_by compare (filter (missing s ts) visited))
  <-> In c visited /\ is_valid s c = true
      /\ lookup (_tileCoordsToKey c) ts = None.
Proof.
  rewrite In_sort_by, filter_In. unfold missing. rewrite andb_true_iff.
  destruct (lookup (_tileCoordsToKey c) ts); intuition congruence.
Qed.

(** X29.  When [_update] runs to its end (the layer is on a map, has a
    whole number as its tile zoom and a global tile range, the tile range
    of the view is finite, its corners are below 2^50 in magnitude, so
    that the two loops count its coordinates exactly, and the zoom is
    within one level of the tile zoom), the tile store is reconciled with
    the tile range: the tile of a valid coordinate of the range is marked
    as current if it was stored, and is a new current tile otherwise;
    under any other key the store holds what it held, marked as not
    current where the tile is of another zoom or outside the range kept
    around the tile range.  The tile range and the range kept around it
    are the ones computed in exact arithmetic. *)
Theorem update_reconciles_the_store
  (center : option LatLng) (s s1 s2 : Layer) (c : LatLng)
  (m : MapCore.Map) (z : Z) (range pixelBounds : Corners) :
  _map s = Some m ->
  _tileZoom s = Some (of_Z z) ->
  _globalTileRange s = Some range ->
  match center with
  | None => on_map MapCore.getCenter s
  | Some c => ret c s
  end = (s1, Return c) ->
  _getTiledPixelBounds c s1 = (s2, Return pixelBounds) ->
  all_finite (_pxBoundsToTileRange s pixelBounds) = true ->
  exact_range (_pxBoundsToTileRange s pixelBounds) = true ->
  (abs (_clampZoom s (MapCore.to_number (MapCore._zoom m)) - of_Z z)
   >? of_Z 1)%num = false ->
  let tileRange := _pxBoundsToTileRange s pixelBounds in
  let visited := range_coords tileRange (of_Z z) in
  exists s' : Layer,
    _update _setView center s = (s', Return tt)
    /\ (forall c t,
          In c visited -> is_valid s' c = true ->
          lookup (_tileCoordsToKey c) (_tiles s) = Some t ->
          lookup (_tileCoordsToKey c) (_tiles s') = Some (set_current true t))
    /\ (forall c,
          In c visited -> is_valid s' c = true ->
          lookup (_tileCoordsToKey c) (_tiles s) = None ->
          lookup (_tileCoordsToKey c) (_tiles s') = Some (new_tile c))
    /\ (forall k,
          (forall c, In c visited -> is_valid s' c = true ->
                     _tileCoordsToKey c <> k) ->
          lookup k (_tiles s')
          = option_map (first_mark (of_Z z) (no_prune_range s tileRange))
                       (lookup k (_tiles s))).
Proof.
  intros attached zoomed ranged centred bounded finite _ near tileRange
    visited.
  destruct (@update_result center s s1 s2 c m (of_Z z) range pixelBounds
              attached zoomed ranged centred bounded finite near)
    as (ts & run & frame & held & looks).
  fold tileRange in run, looks. fold visited in run, looks.
  set (compare := fun a b : TileCoords =>
         (distanceTo a (getCenter tileRange)
          - distanceTo b (getCenter tileRange))%num) in run.
  set (queue := sort_by compare (filter (missing s2 (_tiles s)) visited)) in run.
  set (s' := add_queue queue (set_tiles ts s2)) in run.
  destruct (add_queue_frame queue (set_tiles ts s2))
    as (maps & ranges & bounds & tiles & _).
  assert (forall c0, is_valid s' c0 = is_valid s2 c0) as valid
      by (intro; now apply is_valid_frame).
  assert (_tiles s' = _tiles (add_all queue (set_tiles ts s2))) as stored
      by exact tiles.
  clear maps ranges bounds tiles.
  assert (forall c0 k,
            In c0 queue -> lookup k (_tiles s) <> None ->
            _tileCoordsToKey c0 <> k) as apart.
  { intros c0 k queued present <-.
    apply In_queue in queued as (_ & _ & absent). contradiction. }
  exists s'. split; [exact run | split; [| split]].
  - intros c0 t visit ok found. rewrite stored.
    rewrite lookup_add_all_other
      by (intros c1 queued; apply apart; [exact queued | congruence]).
    cbn [_tiles set_tiles]. rewrite looks, found. cbn [option_map].
    assert (wanted s2 visited (_tileCoordsToKey c0) = true) as ->;
      [| reflexivity].
    apply wanted_iff. exists c0. now rewrite <- valid.
  - intros c0 visit ok absent. rewrite stored.
    apply lookup_add_all. apply In_queue. now rewrite <- valid.
  - intros k other. rewrite stored.
    assert (wanted s2 visited k = false) as unwanted.
    { destruct (wanted s2 visited k) eqn:w; [| reflexivity].
      apply wanted_iff in w as (c0 & visit & ok & same).
      exfalso. apply (other c0); [exact visit | now rewrite valid | exact same]. }
    rewrite lookup_add_all_other.
    + cbn [_tiles set_tiles]. rewrite looks, unwanted.
      now destruct (lookup k (_tiles s)).
    + intros c0 queued. apply In_queue in queued as (visit & ok & _).
      apply other; [exact visit | now rewrite valid].
Qed.

(** X30.  The events of the pass, run to its end as above (the tile range
    of the view, computed in exact arithmetic, is finite and its corners
    are below 2^50 in magnitude): it announces with [tileloadstart] the
    valid coordinates of the tile range that had no tile, each of them
    once, and nothing else but a [loading] event before them if there is
    one to announce and the layer was not loading; the layer is loading
    afterwards if it was or if a tile was announced. *)
Theorem update_announces_the_missing_tiles
  (center : option LatLng) (s s1 s2 : Layer) (c : LatLng)
  (m : MapCore.Map) (z : Z) (range pixelBounds : Corners) :
  _map s = Some m ->
  _tileZoom s = Some (of_Z z) ->
  _globalTileRange s = Some range ->
  match center with
  | None => on_map MapCore.getCenter s
  | Some c => ret c s
  end = (s1, Return c) ->
  _getTiledPixelBounds c s1 = (s2, Return pixelBounds) ->
  all_finite (_pxBoundsToTileRange s pixelBounds) = true ->
  exact_range (_pxBoundsToTileRange s pixelBounds) = true ->
  (abs (_clampZoom s (MapCore.to_number (MapCore._zoom m)) - of_Z z)
   >? of_Z 1)%num = false ->
  let visited := range_coords (_pxBoundsToTileRange s pixelBounds) (of_Z z) in
  exists (s' : Layer) (queue : list TileCoords),
    _update _setView center s = (s', Return tt)
    /\ Permutation queue (filter (missing s' (_tiles s)) visited)
    /\ NoDup queue
    /\ fired s'
       = fired s
         ++ (if _loading s then []
             else match queue with [] => [] | _ => [loading] end)
         ++ map tileloadstart queue
    /\ _loading s' = match queue with [] => _loading s | _ => true end.
Proof.
  intros attached zoomed ranged centred bounded finite _ near visited.
  destruct (@update_result center s s1 s2 c m (of_Z z) range pixelBounds
              attached zoomed ranged centred bounded finite near)
    as (ts & run & frame & held & looks).
  fold visited in run.
  match type of run with
  | _ = (add_queue (sort_by ?compare _) _, _) => set (cmp := compare) in run
  end.
  set (queue := sort_by cmp (filter (missing s2 (_tiles s)) visited)) in run.
  set (s' := add_queue queue (set_tiles ts s2)) in run.
  destruct (add_queue_frame queue (set_tiles ts s2))
    as (maps & ranges & bounds & _ & events & loads).
  assert (filter (missing s' (_tiles s)) visited
          = filter (missing s2 (_tiles s)) visited) as same.
  { apply filter_ext. intro c0. unfold missing.
    now rewrite (@is_valid_frame s2 s' c0 maps ranges bounds). }
  exists s', queue. split; [exact run | split; [| split; [| split]]].
  - rewrite same. apply Permutation_sym, sort_by_permutation.
  - eapply Permutation_NoDup; [apply sort_by_permutation |].
    apply NoDup_filter, range_coords_nodup.
  - fold s' in events. rewrite events. cbn [fired _loading set_tiles].
    rewrite frame. reflexivity.
  - fold s' in loads. rewrite loads. cbn [_loading set_tiles].
    rewrite frame. reflexivity.
Qed.

End ReconcileProperties.

Lemma update_reconciles_the_store_witness :
  let s := Samples.zooming_layer in
  let c := mkLatLng (of_Z 0) (of_Z 0) None in
  let pixelBounds :=
    mkCorners (mkPoint (of_Z 112) (of_Z 130)) (mkPoint (of_Z 912) (of_Z 730)) in
  let tileRange := GridLayer._pxBoundsToTileRange s pixelBounds in
  let visited := range_coords tileRange (of_Z 2) in
  exists s' : GridLayer.Layer,
    @GridLayer._update Samples.host Samples.no_reset (Some c) s
    = (s', Return tt)
    /\ (forall c t,
          In c visited -> is_valid s' c = true ->
          GridLayer.lookup (GridLayer._tileCoordsToKey c) (GridLayer._tiles s)
          = Some t ->
          GridLayer.lookup (GridLayer._tileCoordsToKey c) (GridLayer._tiles s')
          = Some (GridLayer.set_current true t))
    /\ (forall c,
          In c visited -> is_valid s' c = true ->
          GridLayer.lookup (GridLayer._tileCoordsToKey c) (GridLayer._tiles s)
          = None ->
          GridLayer.lookup (GridLayer._tileCoordsToKey c) (GridLayer._tiles s')
          = Some (new_tile c))
    /\ (forall k,
          (forall c, In c visited -> is_valid s' c = true ->
                     GridLayer._tileCoordsToKey c <> k) ->
          GridLayer.lookup k (GridLayer._tiles s')
          = option_map (first_mark (of_Z 2) (no_prune_range s tileRange))
                       (GridLayer.lookup k (GridLayer._tiles s))).
Proof.
  apply (@update_reconciles_the_store Samples.host Samples.no_reset
           (Some (mkLatLng (of_Z 0) (of_Z 0) None))
           Samples.zooming_layer Samples.zooming_layer
           (fst (@GridLayer._getTiledPixelBounds Samples.host
                   (mkLatLng (of_Z 0) (of_Z 0) None) Samples.zooming_layer))
           (mkLatLng (of_Z 0) (of_Z 0) None) Samples.loaded_map 2%Z
           (mkCorners (mkPoint (of_Z 0) (of_Z 0)) (mkPoint (of_Z 3) (of_Z 3)))
           (mkCorners (mkPoint (of_Z 112) (of_Z 130))
                      (mkPoint (of_Z 912) (of_Z 730))));
    reflexivity.
Defined.

Lemma update_announces_the_missing_tiles_witness :
  let s := Samples.zooming_layer in
  let c := mkLatLng (of_Z 0) (of_Z 0) None in
  let pixelBounds :=
    mkCorners (mkPoint (of_Z 112) (of_Z 130)) (mkPoint (of_Z 912) (of_Z 730)) in
  let visited :=
    range_coords (GridLayer._pxBoundsToTileRange s pixelBounds) (of_Z 2) in
  exists (s' : GridLayer.Layer) (queue : list GridLayer.TileCoords),
    @GridLayer._update Samples.host Samples.no_reset (Some c) s
    = (s', Return tt)
    /\ Permutation queue (filter (missing s' (GridLayer._tiles s)) visited)
    /\ NoDup queue
    /\ GridLayer.fired s'
       = (GridLayer.fired s
          ++ (if GridLayer._loading s then []
              else match queue with [] => [] | _ => [GridLayer.loading] end)
          ++ map GridLayer.tileloadstart queue)%list
    /\ GridLayer._loading s'
       = match queue with [] => GridLayer._loading s | _ => true end.
Proof.
  apply (@update_announces_the_missing_tiles Samples.host Samples.no_reset
           (Some (mkLatLng (of_Z 0) (of_Z 0) None))
           Samples.zooming_layer Samples.zooming_layer
           (fst (@GridLayer._getTiledPixelBounds Samples.host
                   (mkLatLng (of_Z 0) (of_Z 0) None) Samples.zooming_layer))
           (mkLatLng (of_Z 0) (of_Z 0) None) Samples.loaded_map 2%Z
           (mkCorners (mkPoint (of_Z 0) (of_Z 0)) (mkPoint (of_Z 3) (of_Z 3)))
           (mkCorners (mkPoint (of_Z 112) (of_Z 130))
                      (mkPoint (of_Z 912) (of_Z 730))));
    reflexivity.
Defined.
